(** * The P&L engine of wallet-tracker: [src/services/pnlCalculator.ts]

    A shallow embedding of the [PnLCalculator] class and the properties of
    its lot ledger, its replay loop and its summary arithmetic.  Of the code
    around the engine the file embeds [getEmptyResult] of the wallet service,
    the token filter of the [calculate_pnl] handler ([src/index.ts]) and
    [retryRequest] of the two fetchers.

    Conventions of the embedding.

    - A JavaScript [number] is the type [number] below.  Finite values are
      exact rationals ([Qc], canonical fractions, so that equality is
      Leibniz equality): rounding, overflow and the sign of zero are not
      modelled.  The special values [NaN], [+Infinity] and [-Infinity] are
      kept with their IEEE 754 behaviour, because the engine divides without
      a guard in [orderPositions].
    - A [timestamp] is an integer (milliseconds since the epoch), a [Z].
    - A JavaScript [Map] is an insertion-ordered association list with unique
      keys ([JsMap]); [Array.from(m.values())] is [JsMap.values].
    - The caller's [Transaction] objects live in a store ([TxHeap]); the
      array handed to [calculate] is a list of references into it, so that
      the assignment [tx.realized_pnl_usd = ...] is visible to the caller.
    - Inside [removePosition] the elements of [orderedPositions] are either
      the very objects of the key's [positions] array ([Shared i], slot [i])
      or fresh copies ([Copy p]), as the three branches of [orderPositions]
      build them.
    - In [retryRequest] the requests go to an oracle that gives the outcome
      of each [axios.get] in turn; the state is the number of requests issued
      and the delays waited. *)

From Stdlib Require Import List String Ascii ZArith QArith Qcanon Bool.
From Stdlib Require Import Permutation Sorted Lia Lqa.
Import ListNotations.

Set Implicit Arguments.

(** ** Numbers *)

Inductive number : Type :=
| Fin (q : Qc)
| PInf
| NInf
| NaN.

Definition Qcltb (x y : Qc) : bool :=
  match (x ?= y)%Qc with Lt => true | _ => false end.

Definition Qceqb (x y : Qc) : bool :=
  match (x ?= y)%Qc with Eq => true | _ => false end.

Definition qc (z : Z) : Qc := Q2Qc (inject_Z z).

Definition zero : number := Fin (qc 0).

(** [a + b] *)
Definition nadd (a b : number) : number :=
  match a, b with
  | NaN, _ | _, NaN => NaN
  | PInf, NInf | NInf, PInf => NaN
  | PInf, _ | _, PInf => PInf
  | NInf, _ | _, NInf => NInf
  | Fin x, Fin y => Fin (x + y)
  end.

(** [-a] *)
Definition nneg (a : number) : number :=
  match a with
  | Fin x => Fin (- x)
  | PInf => NInf
  | NInf => PInf
  | NaN => NaN
  end.

(** [a - b] *)
Definition nsub (a b : number) : number := nadd a (nneg b).

(** The sign given to an infinite product or quotient by a finite factor. *)
Definition signed_inf (positive : bool) (x : Qc) : number :=
  if Qceqb x (qc 0) then NaN
  else if Qcltb (qc 0) x then (if positive then PInf else NInf)
  else (if positive then NInf else PInf).

(** [a * b] *)
Definition nmul (a b : number) : number :=
  match a, b with
  | NaN, _ | _, NaN => NaN
  | Fin x, Fin y => Fin (x * y)
  | Fin x, PInf | PInf, Fin x => signed_inf true x
  | Fin x, NInf | NInf, Fin x => signed_inf false x
  | PInf, PInf | NInf, NInf => PInf
  | PInf, NInf | NInf, PInf => NInf
  end.

(** [a / b]; a finite zero divisor is [+0]. *)
Definition ndiv (a b : number) : number :=
  match a, b with
  | NaN, _ | _, NaN => NaN
  | Fin x, Fin y =>
      if Qceqb y (qc 0) then
        (if Qceqb x (qc 0) then NaN
         else if Qcltb (qc 0) x then PInf else NInf)
      else Fin (x / y)
  | Fin _, PInf | Fin _, NInf => zero
  | PInf, Fin y => if Qcltb y (qc 0) then NInf else PInf
  | NInf, Fin y => if Qcltb y (qc 0) then PInf else NInf
  | PInf, PInf | PInf, NInf | NInf, PInf | NInf, NInf => NaN
  end.

(** [a < b]; every comparison with [NaN] is false. *)
Definition nltb (a b : number) : bool :=
  match a, b with
  | NaN, _ | _, NaN => false
  | _, NInf => false
  | NInf, _ => true
  | PInf, _ => false
  | _, PInf => true
  | Fin x, Fin y => Qcltb x y
  end.

(** [a > b] *)
Definition ngtb (a b : number) : bool := nltb b a.

(** [a >= b] *)
Definition ngeb (a b : number) : bool :=
  match a, b with
  | NaN, _ | _, NaN => false
  | _, _ => negb (nltb a b)
  end.

(** [Math.min(a, b)] *)
Definition nmin (a b : number) : number :=
  match a, b with
  | NaN, _ | _, NaN => NaN
  | _, _ => if nltb b a then b else a
  end.

(** [Math.abs(a)] *)
Definition nabs (a : number) : number :=
  match a with
  | Fin x => if Qcltb x (qc 0) then Fin (- x) else Fin x
  | PInf | NInf => PInf
  | NaN => NaN
  end.

(** [x || 0] for an optional number: [undefined], [0] and [NaN] are falsy. *)
Definition or_zero (x : option number) : number :=
  match x with
  | None => zero
  | Some NaN => zero
  | Some (Fin q) => if Qceqb q (qc 0) then zero else Fin q
  | Some v => v
  end.

Declare Scope number_scope.
Delimit Scope number_scope with num.
Bind Scope number_scope with number.
Infix "+" := nadd : number_scope.
Infix "-" := nsub : number_scope.
Infix "*" := nmul : number_scope.
Infix "/" := ndiv : number_scope.

(** [arr.reduce((sum, x) => sum + f(x), 0)] *)
Definition reduce_sum {A : Type} (f : A -> number) (l : list A) : number :=
  fold_left (fun sum x => (sum + f x)%num) l zero.

(** ** Insertion-ordered maps with string keys *)

Module JsMap.

Definition t (V : Type) : Type := list (string * V).

Definition empty {V : Type} : t V := [].

Fixpoint get {V : Type} (k : string) (m : t V) : option V :=
  match m with
  | [] => None
  | (k', v) :: rest => if String.eqb k k' then Some v else get k rest
  end.

(** [m.set(k, v)]: an existing key keeps its place, a new key goes last. *)
Fixpoint set {V : Type} (k : string) (v : V) (m : t V) : t V :=
  match m with
  | [] => [(k, v)]
  | (k', v') :: rest =>
      if String.eqb k k' then (k', v) :: rest else (k', v') :: set k v rest
  end.

Definition values {V : Type} (m : t V) : list V := map snd m.

End JsMap.

(** ** [Array.prototype.sort]: a stable sort by a comparator

    [cmp x y <= 0] keeps [x] before [y]; elements that compare equal keep
    the order they had in the input. *)

Section StableSort.
Variable A : Type.
Variable cmp : A -> A -> Z.

Fixpoint insert_sorted (x : A) (l : list A) : list A :=
  match l with
  | [] => [x]
  | y :: rest =>
      if (cmp x y <=? 0)%Z then x :: y :: rest else y :: insert_sorted x rest
  end.

Definition sort (l : list A) : list A := fold_right insert_sorted [] l.

End StableSort.

(** ** The data model ([src/types/index.ts]) *)

Inductive TxType : Type := buy | sell | transfer_in | transfer_out.

Module Transaction.
Record t : Type := mk {
  tx_hash : string;
  chain : string;
  timestamp : Z;
  type : TxType;
  token_symbol : string;
  token_address : string;
  quantity : number;
  price_usd : number;
  total_value_usd : number;
  realized_pnl_usd : option number
}.

(** [{ ...tx, realized_pnl_usd: v }], also the effect of
    [tx.realized_pnl_usd = v] on the object. *)
Definition with_realized (tx : t) (v : option number) : t :=
  mk (tx_hash tx) (chain tx) (timestamp tx) (type tx) (token_symbol tx)
     (token_address tx) (quantity tx) (price_usd tx) (total_value_usd tx) v.
End Transaction.

Module Position.
Record t : Type := mk {
  quantity : number;
  price_usd : number;
  timestamp : Z;
  tx_hash : string
}.

Definition with_quantity (p : t) (q : number) : t :=
  mk q (price_usd p) (timestamp p) (tx_hash p).

Definition with_price (p : t) (c : number) : t :=
  mk (quantity p) c (timestamp p) (tx_hash p).
End Position.

Module TokenPnL.
Record t : Type := mk {
  token_symbol : string;
  token_address : string;
  chain : string;
  quantity_held : number;
  average_buy_price_usd : number;
  current_price_usd : number;
  realized_pnl_usd : number;
  unrealized_pnl_usd : number;
  total_pnl_usd : number;
  pnl_percentage : number
}.
End TokenPnL.

Module ChainPnL.
Record t : Type := mk {
  chain : string;
  realized_pnl_usd : number;
  unrealized_pnl_usd : number;
  total_pnl_usd : number;
  pnl_percentage : number
}.
End ChainPnL.

Module PnLSummary.
Record t : Type := mk {
  total_realized_pnl_usd : number;
  total_unrealized_pnl_usd : number;
  total_pnl_usd : number;
  total_pnl_percentage : number;
  initial_investment_usd : number;
  current_value_usd : number
}.
End PnLSummary.

Module Metadata.
Record t : Type := mk {
  last_updated : Z;
  chains_queried : list string;
  data_sources : list string
}.
End Metadata.

Module PnLResult.
Record t : Type := mk {
  summary : PnLSummary.t;
  by_chain : list ChainPnL.t;
  by_token : list TokenPnL.t;
  transactions : list Transaction.t;
  metadata : Metadata.t
}.
End PnLResult.

(** ** The store of the caller's transaction objects *)

Definition Ref : Type := nat.
Definition TxHeap : Type := list Transaction.t.

Definition deref (h : TxHeap) (r : Ref) : option Transaction.t := nth_error h r.

Fixpoint update_nth {A : Type} (i : nat) (x : A) (l : list A) : list A :=
  match l, i with
  | [], _ => []
  | _ :: rest, O => x :: rest
  | y :: rest, S j => y :: update_nth j x rest
  end.

(** ** Strings: [toLowerCase] on ASCII letters, and the token key *)

Definition lower_ascii (c : ascii) : ascii :=
  let n := nat_of_ascii c in
  if andb (65 <=? n)%nat (n <=? 90)%nat then ascii_of_nat (n + 32) else c.

Fixpoint toLowerCase (s : string) : string :=
  match s with
  | EmptyString => EmptyString
  | String c rest => String (lower_ascii c) (toLowerCase rest)
  end.

Definition getTokenKey (chain symbol address : string) : string :=
  toLowerCase (chain ++ ":" ++ symbol ++ ":" ++ address).

(** ** The engine: [class PnLCalculator] *)

(** An element of [orderedPositions]: the object in slot [i] of the key's
    [positions] array, or a fresh object. *)
Inductive PosRef : Type :=
| Shared (i : nat)
| Copy (p : Position.t).

(** The instance fields [positions] and [tokenPnL], and the store in which
    the transaction objects live. *)
Record Engine : Type := mkEngine {
  positions : JsMap.t (list Position.t);
  tokenPnL : JsMap.t TokenPnL.t;
  heap : TxHeap
}.

Definition hundred : number := Fin (qc 100).

(** [this.positions.get(key) || []] *)
Definition positions_of (key : string) (e : Engine) : list Position.t :=
  match JsMap.get key (positions e) with
  | Some ps => ps
  | None => []
  end.

Definition totalQuantity (ps : list Position.t) : number :=
  reduce_sum Position.quantity ps.

Definition totalValue (ps : list Position.t) : number :=
  reduce_sum (fun p => (Position.quantity p * Position.price_usd p)%num) ps.

(** [updateTokenPnL(key, chain, symbol, address, realizedPnL = 0)] *)
Definition updateTokenPnL (key chain symbol address : string)
    (realizedPnL : number) (e : Engine) : Engine :=
  let existing :=
    match JsMap.get key (tokenPnL e) with
    | Some t => t
    | None => TokenPnL.mk symbol address chain zero zero zero zero zero zero zero
    end in
  let realized := (TokenPnL.realized_pnl_usd existing + realizedPnL)%num in
  let ps := positions_of key e in
  let held := totalQuantity ps in
  let value := totalValue ps in
  let updated :=
    TokenPnL.mk (TokenPnL.token_symbol existing) (TokenPnL.token_address existing)
      (TokenPnL.chain existing)
      held
      (if ngtb held zero then (value / held)%num else zero)
      (TokenPnL.current_price_usd existing)
      realized
      (TokenPnL.unrealized_pnl_usd existing)
      (TokenPnL.total_pnl_usd existing)
      (TokenPnL.pnl_percentage existing) in
  mkEngine (positions e) (JsMap.set key updated (tokenPnL e)) (heap e).

(** [addPosition(key, tx)] *)
Definition addPosition (key : string) (tx : Transaction.t) (e : Engine) : Engine :=
  let ps := positions_of key e in
  let ps' := ps ++ [Position.mk (Transaction.quantity tx) (Transaction.price_usd tx)
                      (Transaction.timestamp tx) (Transaction.tx_hash tx)] in
  let e' := mkEngine (JsMap.set key ps' (positions e)) (tokenPnL e) (heap e) in
  updateTokenPnL key (Transaction.chain tx) (Transaction.token_symbol tx)
    (Transaction.token_address tx) zero e'.

Section Method.

(** [this.method], as passed to the constructor: any string at run time. *)
Variable method : string.

Definition by_timestamp_asc (a b : nat * Position.t) : Z :=
  (Position.timestamp (snd a) - Position.timestamp (snd b))%Z.

Definition by_timestamp_desc (a b : nat * Position.t) : Z :=
  (Position.timestamp (snd b) - Position.timestamp (snd a))%Z.

(** The slots of an array, each with the object it holds. *)
Definition slots (ps : list Position.t) : list (nat * Position.t) :=
  combine (seq 0 (List.length ps)) ps.

(** [orderPositions(positions)] *)
Definition orderPositions (ps : list Position.t) : list PosRef :=
  if String.eqb method "fifo" then
    map (fun s => Shared (fst s)) (sort by_timestamp_asc (slots ps))
  else if String.eqb method "lifo" then
    map (fun s => Shared (fst s)) (sort by_timestamp_desc (slots ps))
  else if String.eqb method "avg" then
    let avgPrice := (totalValue ps / totalQuantity ps)%num in
    map (fun p => Copy (Position.with_price p avgPrice)) ps
  else
    map (fun s => Shared (fst s)) (slots ps).

(** The object an element of [orderedPositions] denotes. *)
Definition resolve (ps : list Position.t) (r : PosRef) : option Position.t :=
  match r with
  | Shared i => nth_error ps i
  | Copy p => Some p
  end.

(** [position.quantity -= quantityToSell]: visible in [positions] only when
    the object is shared with it; a copy is not read again. *)
Definition assign_quantity (ps : list Position.t) (r : PosRef) (q : number)
  : list Position.t :=
  match r with
  | Shared i =>
      match nth_error ps i with
      | Some p => update_nth i (Position.with_quantity p q) ps
      | None => ps
      end
  | Copy _ => ps
  end.

(** The [for] loop of [removePosition]; the result is the [positions] array
    after the loop, [remainingQuantity] and [totalCostBasis]. *)
Fixpoint sellLoop (ordered : list PosRef) (ps : list Position.t)
    (remainingQuantity totalCostBasis : number)
  : list Position.t * number * number :=
  match ordered with
  | [] => (ps, remainingQuantity, totalCostBasis)
  | r :: rest =>
      if ngtb remainingQuantity zero then
        match resolve ps r with
        | Some position =>
            let quantityToSell :=
              nmin (Position.quantity position) remainingQuantity in
            sellLoop rest
              (assign_quantity ps r (Position.quantity position - quantityToSell)%num)
              (remainingQuantity - quantityToSell)%num
              (totalCostBasis + quantityToSell * Position.price_usd position)%num
        | None => sellLoop rest ps remainingQuantity totalCostBasis
        end
      else (ps, remainingQuantity, totalCostBasis)
  end.

(** [removePosition(key, tx)], where [tx] is the object at [r]. *)
Definition removePosition (key : string) (r : Ref) (tx : Transaction.t)
    (e : Engine) : Engine :=
  let ps := positions_of key e in
  let orderedPositions := orderPositions ps in
  let '(ps', _, totalCostBasis) :=
    sellLoop orderedPositions ps (Transaction.quantity tx) zero in
  let kept := filter (fun p => ngtb (Position.quantity p) zero) ps' in
  let saleProceeds := (Transaction.quantity tx * Transaction.price_usd tx)%num in
  let realizedPnL := (saleProceeds - totalCostBasis)%num in
  let e' :=
    mkEngine (JsMap.set key kept (positions e)) (tokenPnL e)
      (update_nth r (Transaction.with_realized tx (Some realizedPnL)) (heap e)) in
  updateTokenPnL key (Transaction.chain tx) (Transaction.token_symbol tx)
    (Transaction.token_address tx) realizedPnL e'.

(** [processTransaction(tx)], where [tx] is the object at [r]. *)
Definition processTransaction (e : Engine) (r : Ref) : Engine :=
  match deref (heap e) r with
  | None => e
  | Some tx =>
      let key := getTokenKey (Transaction.chain tx) (Transaction.token_symbol tx)
                   (Transaction.token_address tx) in
      match Transaction.type tx with
      | buy | transfer_in => addPosition key tx e
      | sell | transfer_out => removePosition key r tx e
      end
  end.

End Method.

(** One iteration of the loop of [calculateUnrealizedPnL(currentPrices)]. *)
Definition finalizeToken (currentPrices : JsMap.t number) (pnl : TokenPnL.t)
  : TokenPnL.t :=
  let currentPrice := or_zero (JsMap.get (TokenPnL.token_symbol pnl) currentPrices) in
  let held := TokenPnL.quantity_held pnl in
  let avg := TokenPnL.average_buy_price_usd pnl in
  let unrealized :=
    if ngtb held zero then (held * currentPrice - held * avg)%num
    else TokenPnL.unrealized_pnl_usd pnl in
  let total := (TokenPnL.realized_pnl_usd pnl + unrealized)%num in
  let totalCostBasis := (held * avg + nabs (TokenPnL.realized_pnl_usd pnl))%num in
  TokenPnL.mk (TokenPnL.token_symbol pnl) (TokenPnL.token_address pnl)
    (TokenPnL.chain pnl) held avg currentPrice (TokenPnL.realized_pnl_usd pnl)
    unrealized total
    (if ngtb totalCostBasis zero then (total / totalCostBasis * hundred)%num
     else zero).

(** [calculateUnrealizedPnL(currentPrices)] *)
Definition calculateUnrealizedPnL (currentPrices : JsMap.t number)
    (m : JsMap.t TokenPnL.t) : JsMap.t TokenPnL.t :=
  map (fun kv => (fst kv, finalizeToken currentPrices (snd kv))) m.

(** The first loop of [aggregateByChain(tokens)]. *)
Definition addToChain (chainMap : JsMap.t ChainPnL.t) (token : TokenPnL.t)
  : JsMap.t ChainPnL.t :=
  let existing :=
    match JsMap.get (TokenPnL.chain token) chainMap with
    | Some c => c
    | None => ChainPnL.mk (TokenPnL.chain token) zero zero zero zero
    end in
  JsMap.set (TokenPnL.chain token)
    (ChainPnL.mk (ChainPnL.chain existing)
       (ChainPnL.realized_pnl_usd existing + TokenPnL.realized_pnl_usd token)%num
       (ChainPnL.unrealized_pnl_usd existing + TokenPnL.unrealized_pnl_usd token)%num
       (ChainPnL.total_pnl_usd existing + TokenPnL.total_pnl_usd token)%num
       (ChainPnL.pnl_percentage existing))
    chainMap.

(** The second loop of [aggregateByChain(tokens)]. *)
Definition chainPercentage (c : ChainPnL.t) : ChainPnL.t :=
  let totalInvested :=
    nabs (ChainPnL.total_pnl_usd c - ChainPnL.realized_pnl_usd c)%num in
  ChainPnL.mk (ChainPnL.chain c) (ChainPnL.realized_pnl_usd c)
    (ChainPnL.unrealized_pnl_usd c) (ChainPnL.total_pnl_usd c)
    (if ngtb totalInvested zero
     then (ChainPnL.total_pnl_usd c / totalInvested * hundred)%num else zero).

(** [aggregateByChain(tokens)] *)
Definition aggregateByChain (tokens : list TokenPnL.t) : list ChainPnL.t :=
  map chainPercentage (JsMap.values (fold_left addToChain tokens JsMap.empty)).

(** [calculateSummary(tokens)] *)
Definition calculateSummary (tokens : list TokenPnL.t) : PnLSummary.t :=
  let total_realized := reduce_sum TokenPnL.realized_pnl_usd tokens in
  let total_unrealized := reduce_sum TokenPnL.unrealized_pnl_usd tokens in
  let current_value :=
    reduce_sum (fun t => (TokenPnL.quantity_held t * TokenPnL.current_price_usd t)%num)
      tokens in
  let remaining_cost_basis :=
    reduce_sum
      (fun t => (TokenPnL.quantity_held t * TokenPnL.average_buy_price_usd t)%num)
      tokens in
  let total_sale_proceeds := reduce_sum TokenPnL.realized_pnl_usd tokens in
  let initial_investment :=
    (remaining_cost_basis +
     (if ngeb total_sale_proceeds zero then total_sale_proceeds
      else nneg total_sale_proceeds))%num in
  let total_change := (current_value - initial_investment)%num in
  let pnl_percentage :=
    if ngtb initial_investment zero
    then (total_change / initial_investment * hundred)%num else zero in
  PnLSummary.mk total_realized total_unrealized total_change pnl_percentage
    initial_investment current_value.

(** The objects an array of references holds. *)
Definition objects (h : TxHeap) (refs : list Ref) : list Transaction.t :=
  flat_map (fun r => match deref h r with Some tx => [tx] | None => [] end) refs.

(** [tx.timestamp] through a reference. *)
Definition timestamp_at (h : TxHeap) (r : Ref) : Z :=
  match deref h r with
  | Some tx => Transaction.timestamp tx
  | None => 0%Z
  end.

(** The comparator of [calculate]: [(a, b) => a.timestamp - b.timestamp]. *)
Definition by_tx_timestamp (h : TxHeap) (a b : Ref) : Z :=
  (timestamp_at h a - timestamp_at h b)%Z.

(** [[...new Set(l)]]: the distinct elements in order of first occurrence. *)
Definition distinct (l : list string) : list string :=
  fold_left (fun seen c => if existsb (String.eqb c) seen then seen else seen ++ [c])
    l [].

(** The element of [processedTxs] built from [tx]. *)
Definition annotate (tx : Transaction.t) : Transaction.t :=
  Transaction.with_realized tx
    (match Transaction.type tx with
     | sell => Transaction.realized_pnl_usd tx
     | _ => None
     end).

Definition data_sources : list string := ["etherscan"; "defillama"; "coingecko"]%string.

(** The replay loop of [calculate]: the engine after the reset and the
    processing of the sorted transactions. *)
Definition replay (method : string) (h : TxHeap) (sortedTxs : list Ref) : Engine :=
  fold_left (processTransaction method) sortedTxs
    (mkEngine JsMap.empty JsMap.empty h).

(** [calculate(transactions, currentPrices)] on an engine built with [method].
    [now] is the value of [Date.now()]; the second component is the store
    after the call. *)
Definition calculate (method : string) (now : Z) (h : TxHeap)
    (transactions : list Ref) (currentPrices : JsMap.t number)
  : PnLResult.t * TxHeap :=
  let sortedTxs := sort (by_tx_timestamp h) transactions in
  let e := replay method h sortedTxs in
  let byToken := JsMap.values (calculateUnrealizedPnL currentPrices (tokenPnL e)) in
  let byChain := aggregateByChain byToken in
  let summary := calculateSummary byToken in
  let processedTxs := map annotate (objects (heap e) sortedTxs) in
  (PnLResult.mk summary byChain byToken processedTxs
     (Metadata.mk now
        (distinct (map Transaction.chain (objects h transactions)))
        data_sources),
   heap e).

(** How a call ends: it returns a value or throws. *)
Inductive Completion (A : Type) : Type :=
| Returned (value : A)
| Thrown (message : string).

Arguments Returned {A} value.
Arguments Thrown {A} message.

(** [new PnLCalculator(method).calculate(transactions, currentPrices)]:
    neither the constructor nor any method of the class has a [throw]. *)
Definition invoke (method : string) (now : Z) (h : TxHeap)
    (transactions : list Ref) (currentPrices : JsMap.t number)
  : Completion (PnLResult.t * TxHeap) :=
  Returned (calculate method now h transactions currentPrices).

(** An array of fresh objects: the store and the references to all of it. *)
Definition all_refs (h : TxHeap) : list Ref := seq 0 (List.length h).

(** ** Vocabulary of the properties *)

Definition is_acquisition (ty : TxType) : bool :=
  match ty with
  | buy | transfer_in => true
  | sell | transfer_out => false
  end.

Definition is_disposal (ty : TxType) : bool :=
  match ty with
  | sell | transfer_out => true
  | buy | transfer_in => false
  end.

(** The key under which [processTransaction] files a transaction. *)
Definition key_of (tx : Transaction.t) : string :=
  getTokenKey (Transaction.chain tx) (Transaction.token_symbol tx)
    (Transaction.token_address tx).

(** The lot that [addPosition] pushes for a transaction. *)
Definition lot_of (tx : Transaction.t) : Position.t :=
  Position.mk (Transaction.quantity tx) (Transaction.price_usd tx)
    (Transaction.timestamp tx) (Transaction.tx_hash tx).

(** A finite number. *)
Definition finite (a : number) : bool :=
  match a with
  | Fin _ => true
  | _ => false
  end.

(** A finite number that is not negative. *)
Definition nonneg (a : number) : bool :=
  match a with
  | Fin q => negb (Qcltb q (qc 0))
  | _ => false
  end.

(** The three documented cost-basis methods. *)
Definition documented (method : string) : bool :=
  orb (String.eqb method "fifo")
    (orb (String.eqb method "lifo") (String.eqb method "avg")).

(** The engine states that the replay loop goes through, one per processed
    prefix of the sorted transactions. *)
Fixpoint trajectory (method : string) (e : Engine) (txs : list Ref)
  : list Engine :=
  match txs with
  | [] => [e]
  | r :: rest => e :: trajectory method (processTransaction method e r) rest
  end.

(** Equality of numbers, decided. *)
Definition number_eqb (a b : number) : bool :=
  match a, b with
  | Fin x, Fin y => Qceqb x y
  | PInf, PInf | NInf, NInf | NaN, NaN => true
  | _, _ => false
  end.

(** A lot whose quantity is finite and not negative. *)
Definition lot_nonneg (p : Position.t) : bool := nonneg (Position.quantity p).

(** A lot with such a quantity and a finite unit cost. *)
Definition lot_ok (p : Position.t) : bool :=
  andb (nonneg (Position.quantity p)) (finite (Position.price_usd p)).

(** The rational value of a finite number (0 for the special values). *)
Definition value_of (a : number) : Qc :=
  match a with
  | Fin q => q
  | _ => qc 0
  end.

Definition qty (p : Position.t) : Qc := value_of (Position.quantity p).

Definition unit_cost (p : Position.t) : Qc := value_of (Position.price_usd p).

(** [Σ quantity] and [Σ quantity × unit cost] over lots, as rationals. *)
Definition held (ps : list Position.t) : Qc :=
  fold_right (fun p s => (qty p + s)%Qc) (qc 0) ps.

Definition book_value (ps : list Position.t) : Qc :=
  fold_right (fun p s => (qty p * unit_cost p + s)%Qc) (qc 0) ps.

(** A lot after a disposal: the same lot with a quantity between 0 and what
    it was. *)
Definition lot_shrinks (p p' : Position.t) : Prop :=
  Position.price_usd p' = Position.price_usd p /\
  Position.timestamp p' = Position.timestamp p /\
  Position.tx_hash p' = Position.tx_hash p /\
  exists q q', Position.quantity p = Fin q /\ Position.quantity p' = Fin q' /\
               (qc 0 <= q')%Qc /\ (q' <= q)%Qc.

(** [positions.filter((p) => p.quantity > 0)] *)
Definition open_lots (ps : list Position.t) : list Position.t :=
  filter (fun p => ngtb (Position.quantity p) zero) ps.

(** Every lot of every key has a finite quantity that is not negative. *)
Definition lots_nonneg (e : Engine) : Prop :=
  forall key, Forall (fun p => lot_nonneg p = true) (positions_of key e).

(** Every transaction object has a finite quantity that is not negative. *)
Definition quantities_nonneg (h : TxHeap) : Prop :=
  Forall (fun tx => nonneg (Transaction.quantity tx) = true) h.

(** [new Set(l)] then spread, from a set that already holds [seen]. *)
Definition distinct_from (seen l : list string) : list string :=
  fold_left (fun seen c => if existsb (String.eqb c) seen then seen else seen ++ [c])
    l seen.

(** The lots of every key are in ascending order of timestamp, none later
    than [bound]. *)
Definition lots_in_order (bound : Z) (e : Engine) : Prop :=
  forall key,
    StronglySorted Z.le (map Position.timestamp (positions_of key e)) /\
    Forall (fun t => (t <= bound)%Z) (map Position.timestamp (positions_of key e)).

(** The store [h'] holds the objects of [h], up to [realized_pnl_usd]. *)
Definition same_objects (h h' : TxHeap) : Prop :=
  forall r, timestamp_at h' r = timestamp_at h r.

(** [l] with [x] put in at position [j] (at the end when [j] is beyond it). *)
Fixpoint insert_at {A : Type} (j : nat) (x : A) (l : list A) : list A :=
  match j, l with
  | O, _ => x :: l
  | S _, [] => [x]
  | S j', y :: rest => y :: insert_at j' x rest
  end.

(** The slot of an object of [l] after an insertion at slot [j]. *)
Definition shift (j i : nat) : nat := if (i <? j)%nat then i else S i.

(** A lot of quantity 0 with a finite unit cost: what a zero-quantity
    acquisition pushes. *)
Definition empty_lot (p : Position.t) : Prop :=
  Position.quantity p = zero /\ finite (Position.price_usd p) = true.

(** [ps'] is [ps], possibly with the lot [z] put in somewhere. *)
Definition with_extra_lot (z : Position.t) (ps ps' : list Position.t) : Prop :=
  ps' = ps \/ exists j, (j <= List.length ps)%nat /\ ps' = insert_at j z ps.

(** The slots of an array that starts at slot [n]. *)
Definition slots_from (n : nat) (ps : list Position.t) : list (nat * Position.t) :=
  combine (seq n (List.length ps)) ps.

Definition shift_slot (j : nat) (s : nat * Position.t) : nat * Position.t :=
  (shift j (fst s), snd s).

(** A comparator of slots that looks at an integer key of the lot. *)
Definition by_lot_key (k : Position.t -> Z) (a b : nat * Position.t) : Z :=
  (k (snd a) - k (snd b))%Z.

(** The engine with one more object at the end of the store. *)
Definition with_object (z : Transaction.t) (e : Engine) : Engine :=
  mkEngine (positions e) (tokenPnL e) (heap e ++ [z]).

(** Two engines that differ at most by the lot [z] among the lots of [key]. *)
Definition differ_by_lot (key : string) (z : Position.t) (e e' : Engine) : Prop :=
  tokenPnL e' = tokenPnL e /\ heap e' = heap e /\
  (forall k, k <> key -> positions_of k e' = positions_of k e) /\
  with_extra_lot z (positions_of key e) (positions_of key e').

(** Each token entry reports the lots of its key. *)
Definition entries_report_lots (e : Engine) : Prop :=
  forall key t, JsMap.get key (tokenPnL e) = Some t ->
    TokenPnL.quantity_held t = totalQuantity (positions_of key e) /\
    TokenPnL.average_buy_price_usd t =
      (if ngtb (totalQuantity (positions_of key e)) zero
       then (totalValue (positions_of key e) / totalQuantity (positions_of key e))%num
       else zero).

(** ** Vocabulary of the further properties *)

(** [Array.from(m.keys())] *)
Definition map_keys {V : Type} (m : JsMap.t V) : list string := map fst m.

(** A transaction without its [realized_pnl_usd]. *)
Definition without_realized (tx : Transaction.t) : Transaction.t :=
  Transaction.with_realized tx None.

(** The key that the identity fields of a token entry spell. *)
Definition entry_key (t : TokenPnL.t) : string :=
  getTokenKey (TokenPnL.chain t) (TokenPnL.token_symbol t) (TokenPnL.token_address t).

(** An entry of [tokenPnL] during the replay: filed under the key that its
    identity fields spell, the figures of [calculateUnrealizedPnL] still 0. *)
Definition entry_pending (key : string) (t : TokenPnL.t) : Prop :=
  entry_key t = key /\
  TokenPnL.current_price_usd t = zero /\
  TokenPnL.unrealized_pnl_usd t = zero /\
  TokenPnL.total_pnl_usd t = zero /\
  TokenPnL.pnl_percentage t = zero.

Definition entries_pending (e : Engine) : Prop :=
  Forall (fun kv => entry_pending (fst kv) (snd kv)) (tokenPnL e).

(** The chain, symbol and address of an entry are those of a transaction. *)
Definition identity_of (t : TokenPnL.t) (tx : Transaction.t) : Prop :=
  TokenPnL.chain t = Transaction.chain tx /\
  TokenPnL.token_symbol t = Transaction.token_symbol tx /\
  TokenPnL.token_address t = Transaction.token_address tx.

(** The first transaction of a key in an array. *)
Definition first_of (key : string) (txs : list Transaction.t)
  : option Transaction.t :=
  find (fun tx => String.eqb (key_of tx) key) txs.

(** The timestamp of the lot in slot [i] of an array. *)
Definition lot_timestamp (ps : list Position.t) (i : nat) : Z :=
  match nth_error ps i with
  | Some p => Position.timestamp p
  | None => 0%Z
  end.

(** Slot [i] goes before slot [j]: the older lot first and, of two lots of
    one timestamp, the one that is first in the array. *)
Definition oldest_first (ps : list Position.t) (i j : nat) : Prop :=
  (lot_timestamp ps i < lot_timestamp ps j)%Z \/
  (lot_timestamp ps i = lot_timestamp ps j /\ (i < j)%nat).

(** The newer lot first and, of two lots of one timestamp, again the one
    that is first in the array. *)
Definition newest_first (ps : list Position.t) (i j : nat) : Prop :=
  (lot_timestamp ps j < lot_timestamp ps i)%Z \/
  (lot_timestamp ps i = lot_timestamp ps j /\ (i < j)%nat).

(** The token entries of a chain, in their order. *)
Definition tokens_of_chain (c : string) (tokens : list TokenPnL.t)
  : list TokenPnL.t :=
  filter (fun t => String.eqb (TokenPnL.chain t) c) tokens.

(** A chain entry of the first loop of [aggregateByChain], filed under its
    chain, carries the sums over the tokens of the chain. *)
Definition chain_sums (tokens : list TokenPnL.t) (kv : string * ChainPnL.t) : Prop :=
  ChainPnL.chain (snd kv) = fst kv /\
  ChainPnL.realized_pnl_usd (snd kv) =
    reduce_sum TokenPnL.realized_pnl_usd (tokens_of_chain (fst kv) tokens) /\
  ChainPnL.unrealized_pnl_usd (snd kv) =
    reduce_sum TokenPnL.unrealized_pnl_usd (tokens_of_chain (fst kv) tokens) /\
  ChainPnL.total_pnl_usd (snd kv) =
    reduce_sum TokenPnL.total_pnl_usd (tokens_of_chain (fst kv) tokens).

(** The transaction behind a reference has the token key [key]. *)
Definition has_key (h : TxHeap) (key : string) (r : Ref) : bool :=
  match deref h r with
  | Some tx => String.eqb (key_of tx) key
  | None => false
  end.

(** The entry of a token key in [by_token]. *)
Definition entry_of (key : string) (tokens : list TokenPnL.t) : option TokenPnL.t :=
  find (fun t => String.eqb (entry_key t) key) tokens.

(** Two engines agree on a token key: the same lots and the same entry. *)
Definition agree_on (key : string) (e1 e2 : Engine) : Prop :=
  positions_of key e1 = positions_of key e2 /\
  JsMap.get key (tokenPnL e1) = JsMap.get key (tokenPnL e2).

(** Two stores hold the same objects, up to [realized_pnl_usd]. *)
Definition same_store (h1 h2 : TxHeap) : Prop :=
  forall r, option_map without_realized (deref h1 r) =
            option_map without_realized (deref h2 r).

(** ** The wallet service: the result for no transactions *)

(** [getEmptyResult(chains)] of the wallet service, which it returns instead
    of calling the engine when no transaction was fetched. *)
Definition getEmptyResult (now : Z) (chains : list string) : PnLResult.t :=
  PnLResult.mk (PnLSummary.mk zero zero zero zero zero zero) [] [] []
    (Metadata.mk now chains data_sources).

(** ** The [calculate_pnl] handler: the token filter *)

(** [include_tokens.includes(symbol)] *)
Definition includes (include_tokens : list string) (symbol : string) : bool :=
  existsb (String.eqb symbol) include_tokens.

(** The block [if (include_tokens && include_tokens.length > 0) { ... }] of
    the handler, on the result of the wallet service; [None] is an absent
    [include_tokens]. *)
Definition filter_by_tokens (include_tokens : option (list string))
    (result : PnLResult.t) : PnLResult.t :=
  match include_tokens with
  | None => result
  | Some l =>
      if (0 <? List.length l)%nat then
        let by_token :=
          filter (fun token => includes l (TokenPnL.token_symbol token))
            (PnLResult.by_token result) in
        let transactions :=
          filter (fun tx => includes l (Transaction.token_symbol tx))
            (PnLResult.transactions result) in
        let total_realized := reduce_sum TokenPnL.realized_pnl_usd by_token in
        let total_unrealized := reduce_sum TokenPnL.unrealized_pnl_usd by_token in
        PnLResult.mk
          (PnLSummary.mk total_realized total_unrealized
             (total_realized + total_unrealized)%num
             (PnLSummary.total_pnl_percentage (PnLResult.summary result))
             (PnLSummary.initial_investment_usd (PnLResult.summary result))
             (PnLSummary.current_value_usd (PnLResult.summary result)))
          (PnLResult.by_chain result) by_token transactions
          (PnLResult.metadata result)
      else result
  end.

(** ** The fetchers: [retryRequest] *)

(** The outcome of one [axios.get]: the body of the response, or the error
    that the call throws. *)
Inductive Outcome : Type :=
| Response (data : string)
| Failure (error : string).

(** The network as a fetcher meets it: the number of requests issued so far
    and the delays waited so far, in milliseconds. *)
Record Network : Type := mkNetwork {
  issued : nat;
  waited : list Z
}.

Definition retryDelay : Z := 1000.

Definition maxRetries : Z := 3.

(** [retryRequest(url, attempt)] of the blockchain fetcher and of the price
    fetcher; [outcome n] is the outcome of the request issued after [n]
    others, and [attempt] is at least 1, as the callers have it.  [fuel]
    bounds the depth of the recursion: [None] when it runs out. *)
Fixpoint retryRequest (fuel : nat) (outcome : nat -> Outcome) (attempt : Z)
    (net : Network) : option (Completion string * Network) :=
  match fuel with
  | O => None
  | S fuel' =>
      let net' := mkNetwork (S (issued net)) (waited net) in
      match outcome (issued net) with
      | Response data => Some (Returned data, net')
      | Failure error =>
          if (attempt <? maxRetries)%Z then
            let delay := (retryDelay * 2 ^ (attempt - 1))%Z in
            retryRequest fuel' outcome (attempt + 1)%Z
              (mkNetwork (issued net') (waited net' ++ [delay]))
          else Some (Thrown error, net')
      end
  end.

(** What a request that ends so makes of its caller. *)
Definition completion_of (o : Outcome) : Completion string :=
  match o with
  | Response data => Returned data
  | Failure error => Thrown error
  end.

(** ** Vocabulary of the realized P&L *)

(** [tx.realized_pnl_usd], and 0 for an object that has none. *)
Definition realized_or_zero (tx : Transaction.t) : number :=
  match Transaction.realized_pnl_usd tx with
  | Some x => x
  | None => zero
  end.

(** The disposals of a token key, in their order. *)
Definition disposals_of (key : string) (txs : list Transaction.t)
  : list Transaction.t :=
  filter (fun tx => andb (is_disposal (Transaction.type tx))
                      (String.eqb (key_of tx) key)) txs.

(** The realized P&L of the entry of a key, 0 when the key has no entry. *)
Definition realized_so_far (key : string) (e : Engine) : number :=
  match JsMap.get key (tokenPnL e) with
  | Some t => TokenPnL.realized_pnl_usd t
  | None => zero
  end.

(** ** Vocabulary of the holdings *)

(** The transactions of a token key, in their order. *)
Definition transactions_of (key : string) (txs : list Transaction.t)
  : list Transaction.t :=
  filter (fun tx => String.eqb (key_of tx) key) txs.

(** No transaction of the key is a disposal. *)
Definition never_disposed (key : string) (txs : list Transaction.t) : bool :=
  forallb (fun tx => orb (negb (String.eqb (key_of tx) key))
                       (is_acquisition (Transaction.type tx))) txs.

(** ** Sample inputs *)

(** A transaction of a token on a chain with the given kind, timestamp,
    quantity and unit price. *)
Definition token_tx (chain symbol : string) (ty : TxType) (ts q p : Z)
  : Transaction.t :=
  Transaction.mk "0xhash" chain ts ty symbol "0x0000" (Fin (qc q)) (Fin (qc p))
    (Fin (qc (q * p))) None.

(** The same for ETH on ethereum. *)
Definition eth_tx (ty : TxType) (ts q p : Z) : Transaction.t :=
  token_tx "ethereum" "ETH" ty ts q p.

(** ** Numbers: basic facts *)

Lemma Qcltb_true (x y : Qc) : Qcltb x y = true <-> (x < y)%Qc.
Proof.
  unfold Qcltb. rewrite Qclt_alt.
  destruct (x ?= y)%Qc; split; intro H; congruence.
Qed.

Lemma Qcltb_false (x y : Qc) : Qcltb x y = false <-> (y <= x)%Qc.
Proof.
  split; intro H.
  - apply Qcnot_lt_le. intro L. apply Qcltb_true in L. congruence.
  - destruct (Qcltb x y) eqn:E; [|reflexivity].
    apply Qcltb_true in E. exfalso. exact (Qcle_not_lt _ _ H E).
Qed.

Lemma Qceqb_true (x y : Qc) : Qceqb x y = true <-> x = y.
Proof.
  unfold Qceqb. rewrite Qceq_alt.
  destruct (x ?= y)%Qc; split; intro H; congruence.
Qed.

Lemma Qceqb_refl (x : Qc) : Qceqb x x = true.
Proof. apply Qceqb_true. reflexivity. Qed.

Lemma Qcopp_0 : (- qc 0)%Qc = qc 0.
Proof. apply Qc_is_canon. reflexivity. Qed.

Lemma nadd_0_r (a : number) : (a + zero)%num = a.
Proof.
  destruct a; simpl; try reflexivity.
  f_equal. apply Qcplus_0_r.
Qed.

Lemma nadd_0_l (a : number) : (zero + a)%num = a.
Proof.
  destruct a; simpl; try reflexivity.
  f_equal. apply Qcplus_0_l.
Qed.

Lemma nsub_0_r (a : number) : (a - zero)%num = a.
Proof.
  unfold nsub, zero. simpl nneg. rewrite Qcopp_0. apply nadd_0_r.
Qed.

Lemma nmul_0_l (x : Qc) : (zero * Fin x)%num = zero.
Proof. simpl. unfold zero. f_equal. apply Qcmult_0_l. Qed.

Lemma nonneg_Fin (a : number) :
  nonneg a = true <-> exists q, a = Fin q /\ (qc 0 <= q)%Qc.
Proof.
  destruct a; simpl; split; intro H; try discriminate;
    try (destruct H as (? & ? & ?); discriminate).
  - exists q. split; [reflexivity|].
    apply Qcltb_false. destruct (Qcltb q (qc 0)); [discriminate|reflexivity].
  - destruct H as (x & E & L). inversion E; subst.
    apply Qcltb_false in L. rewrite L. reflexivity.
Qed.

(** [|x|] is what the conditional of [calculateSummary] computes. *)
Lemma nabs_conditional (x : number) :
  (if ngeb x zero then x else nneg x) = nabs x.
Proof.
  destruct x as [q| | |]; simpl; try reflexivity.
  destruct (Qcltb q (qc 0)); reflexivity.
Qed.

Arguments nadd : simpl never.
Arguments nsub : simpl never.
Arguments nmul : simpl never.
Arguments ndiv : simpl never.
Arguments nltb : simpl never.
Arguments ngtb : simpl never.
Arguments ngeb : simpl never.
Arguments nmin : simpl never.
Arguments nabs : simpl never.
Arguments or_zero : simpl never.

(** ** Maps: [get] after [set] *)

Lemma get_set_eq {V : Type} (k : string) (v : V) (m : JsMap.t V) :
  JsMap.get k (JsMap.set k v m) = Some v.
Proof.
  induction m as [|[k' v'] m IH]; simpl.
  - rewrite String.eqb_refl. reflexivity.
  - destruct (String.eqb k k') eqn:E; simpl; rewrite E; [reflexivity|exact IH].
Qed.

Lemma get_set_ne {V : Type} (k k' : string) (v : V) (m : JsMap.t V) :
  k <> k' -> JsMap.get k' (JsMap.set k v m) = JsMap.get k' m.
Proof.
  intro N. induction m as [|[k0 v0] m IH]; simpl.
  - destruct (String.eqb k' k) eqn:E; [|reflexivity].
    apply String.eqb_eq in E. congruence.
  - destruct (String.eqb k k0) eqn:E; simpl.
    + apply String.eqb_eq in E. subst k0.
      destruct (String.eqb k' k) eqn:E'; [|reflexivity].
      apply String.eqb_eq in E'. congruence.
    + destruct (String.eqb k' k0); [reflexivity|exact IH].
Qed.

(** ** The engine, one call at a time *)

Section Steps.
Variable method : string.

Lemma heap_updateTokenPnL key chain symbol address realized e :
  heap (updateTokenPnL key chain symbol address realized e) = heap e.
Proof. reflexivity. Qed.

Lemma positions_updateTokenPnL key chain symbol address realized e :
  positions (updateTokenPnL key chain symbol address realized e) = positions e.
Proof. reflexivity. Qed.

Lemma heap_addPosition key tx e : heap (addPosition key tx e) = heap e.
Proof. reflexivity. Qed.

Lemma positions_of_addPosition key tx e :
  positions_of key (addPosition key tx e) = positions_of key e ++ [lot_of tx].
Proof.
  unfold positions_of, addPosition. simpl. rewrite get_set_eq. reflexivity.
Qed.

Lemma positions_of_addPosition_ne key key' tx e :
  key <> key' -> positions_of key' (addPosition key tx e) = positions_of key' e.
Proof.
  intro N. unfold positions_of, addPosition. simpl.
  rewrite get_set_ne by exact N. reflexivity.
Qed.

Lemma positions_of_removePosition_ne key key' r tx e :
  key <> key' ->
  positions_of key' (removePosition method key r tx e) = positions_of key' e.
Proof.
  intro N. unfold positions_of, removePosition.
  destruct (sellLoop _ _ _ _) as [[ps' rem] cost]. simpl.
  rewrite get_set_ne by exact N. reflexivity.
Qed.

Lemma positions_of_removePosition key r tx e :
  positions_of key (removePosition method key r tx e) =
  open_lots
    (fst (fst (sellLoop (orderPositions method (positions_of key e))
                 (positions_of key e) (Transaction.quantity tx) zero))).
Proof.
  unfold removePosition.
  destruct (sellLoop _ _ _ _) as [[ps' rem] cost]. simpl.
  unfold positions_of at 1. simpl. rewrite get_set_eq. reflexivity.
Qed.

Lemma heap_removePosition key r tx e :
  heap (removePosition method key r tx e) =
  update_nth r
    (Transaction.with_realized tx
       (Some (Transaction.quantity tx * Transaction.price_usd tx -
              snd (sellLoop (orderPositions method (positions_of key e))
                     (positions_of key e) (Transaction.quantity tx) zero))%num))
    (heap e).
Proof.
  unfold removePosition.
  destruct (sellLoop _ _ _ _) as [[ps' rem] cost]. reflexivity.
Qed.

Lemma processTransaction_acquisition e r tx :
  deref (heap e) r = Some tx ->
  is_acquisition (Transaction.type tx) = true ->
  processTransaction method e r = addPosition (key_of tx) tx e.
Proof.
  intros D A. unfold processTransaction. rewrite D.
  destruct (Transaction.type tx); try discriminate; reflexivity.
Qed.

Lemma processTransaction_disposal e r tx :
  deref (heap e) r = Some tx ->
  is_disposal (Transaction.type tx) = true ->
  processTransaction method e r = removePosition method (key_of tx) r tx e.
Proof.
  intros D A. unfold processTransaction. rewrite D.
  destruct (Transaction.type tx); try discriminate; reflexivity.
Qed.

Lemma processTransaction_dangling e r :
  deref (heap e) r = None -> processTransaction method e r = e.
Proof. intro D. unfold processTransaction. rewrite D. reflexivity. Qed.

End Steps.

Lemma number_eqb_true (a b : number) : number_eqb a b = true -> a = b.
Proof.
  destruct a, b; simpl; intro H; try discriminate; try reflexivity.
  f_equal. apply Qceqb_true. exact H.
Qed.

(** ** Sorting permutes *)

Section SortPermutes.
Variable A : Type.
Variable cmp : A -> A -> Z.

Lemma insert_sorted_permutation (x : A) (l : list A) :
  Permutation (insert_sorted cmp x l) (x :: l).
Proof.
  induction l as [|y l IH]; simpl.
  - apply Permutation_refl.
  - destruct (cmp x y <=? 0)%Z.
    + apply Permutation_refl.
    + apply perm_trans with (y :: x :: l).
      * apply perm_skip. exact IH.
      * apply perm_swap.
Qed.

Lemma sort_is_permutation (l : list A) : Permutation (sort cmp l) l.
Proof.
  induction l as [|x l IH]; simpl.
  - apply perm_nil.
  - apply perm_trans with (x :: sort cmp l).
    + apply insert_sorted_permutation.
    + apply perm_skip. exact IH.
Qed.

End SortPermutes.

(** ** Sorting by an integer key *)

Section SortByKey.
Variable A : Type.
Variable key : A -> Z.

Let cmp (a b : A) : Z := (key a - key b)%Z.

Lemma insert_sorted_swap (x y : A) (l : list A) :
  key x <> key y ->
  insert_sorted cmp x (insert_sorted cmp y l) =
  insert_sorted cmp y (insert_sorted cmp x l).
Proof.
  intro N. induction l as [|z l IH]; unfold cmp in *; simpl.
  - destruct (Z.leb_spec (key x - key y) 0), (Z.leb_spec (key y - key x) 0);
      try reflexivity; lia.
  - destruct (Z.leb_spec (key y - key z) 0), (Z.leb_spec (key x - key z) 0); simpl;
      repeat match goal with
      | |- context [(?a <=? ?b)%Z] => destruct (Z.leb_spec a b); simpl
      end; try reflexivity; try lia.
    f_equal. exact IH.
Qed.

(** With distinct keys the sorted array does not depend on the order of the
    input. *)
Lemma sort_permutation (l l' : list A) :
  Permutation l l' -> NoDup (map key l) -> sort cmp l = sort cmp l'.
Proof.
  induction 1 as [|x l l' P IH|x y l|l l' l'' P1 IH1 P2 IH2]; intro ND.
  - reflexivity.
  - simpl. rewrite IH; [reflexivity|]. inversion ND; assumption.
  - simpl. apply insert_sorted_swap.
    inversion ND as [|? ? NI ND']; subst. intro E. apply NI. left. symmetry. exact E.
  - rewrite IH1 by exact ND. apply IH2.
    apply Permutation_NoDup with (l := map key l); [|exact ND].
    apply Permutation_map. exact P1.
Qed.

End SortByKey.

(** ** Tactics *)

(** Decide the integer comparisons of a sort from the hypotheses. *)
Ltac resolve_leb :=
  repeat match goal with
  | |- context [(?a <=? ?b)%Z] =>
      first [ replace (a <=? b)%Z with true by (symmetry; apply Z.leb_le; lia)
            | replace (a <=? b)%Z with false by (symmetry; apply Z.leb_gt; lia) ]
  end.

(** Equality of two closed numbers, by evaluation. *)
Ltac number_eq := apply number_eqb_true; vm_compute; reflexivity.

(** ** The canonical scenario: two acquisitions, one disposal *)

Lemma replay_two_lots_then_disposal (method : string) (A B S : Transaction.t) :
  is_acquisition (Transaction.type A) = true ->
  is_acquisition (Transaction.type B) = true ->
  is_disposal (Transaction.type S) = true ->
  key_of A = key_of S -> key_of B = key_of S ->
  heap (replay method [A; B; S] [0; 1; 2]%nat) =
  [A; B;
   Transaction.with_realized S
     (Some (Transaction.quantity S * Transaction.price_usd S -
            snd (sellLoop (orderPositions method [lot_of A; lot_of B])
                   [lot_of A; lot_of B] (Transaction.quantity S) zero))%num)].
Proof.
  intros HA HB HS KA KB. unfold replay. simpl fold_left.
  rewrite (@processTransaction_acquisition method _ 0%nat A)
    by (reflexivity || assumption).
  rewrite (@processTransaction_acquisition method _ 1%nat B)
    by (reflexivity || assumption).
  rewrite (@processTransaction_disposal method _ 2%nat S)
    by (reflexivity || assumption).
  rewrite heap_removePosition. rewrite KA, KB.
  rewrite !positions_of_addPosition. reflexivity.
Qed.

(** C1.  One token key; acquisition [A] of quantity 2 at 1800, then
    acquisition [B] of quantity 1 at 2000 (in that timestamp order), then a
    disposal [S] of quantity 1 at 2200, handed to [calculate] in any array
    order.  The realized P&L recorded on the disposal is exactly 400 under
    fifo, exactly 200 under lifo and 2200 - (2*1800 + 1*2000)/3 under avg,
    which lies within 0.01 of 333.33. *)
Theorem C1_canonical_scenario
    (A B S : Transaction.t) (now : Z) (prices : JsMap.t number) (refs : list Ref) :
  is_acquisition (Transaction.type A) = true ->
  is_acquisition (Transaction.type B) = true ->
  is_disposal (Transaction.type S) = true ->
  key_of A = key_of S -> key_of B = key_of S ->
  Transaction.quantity A = Fin (qc 2) -> Transaction.price_usd A = Fin (qc 1800) ->
  Transaction.quantity B = Fin (qc 1) -> Transaction.price_usd B = Fin (qc 2000) ->
  Transaction.quantity S = Fin (qc 1) -> Transaction.price_usd S = Fin (qc 2200) ->
  (Transaction.timestamp A < Transaction.timestamp B)%Z ->
  (Transaction.timestamp B < Transaction.timestamp S)%Z ->
  Permutation refs [0; 1; 2]%nat ->
  let realized m :=
    option_map Transaction.realized_pnl_usd
      (nth_error (snd (calculate m now [A; B; S] refs prices)) 2) in
  realized "fifo"%string = Some (Some (Fin (qc 400))) /\
  realized "lifo"%string = Some (Some (Fin (qc 200))) /\
  realized "avg"%string =
    Some (Some (Fin (qc 2200 - (qc 2 * qc 1800 + qc 1 * qc 2000) / qc 3)%Qc)) /\
  (qc 33332 / qc 100 <= qc 2200 - (qc 2 * qc 1800 + qc 1 * qc 2000) / qc 3
   <= qc 33334 / qc 100)%Qc.
Proof.
  intros HA HB HS KA KB qA pA qB pB qS pS Lab Lbs P realized.
  assert (Hsort : sort (by_tx_timestamp [A; B; S]) refs = [0; 1; 2]%nat).
  { change (by_tx_timestamp [A; B; S])
      with (fun a b => (timestamp_at [A; B; S] a - timestamp_at [A; B; S] b)%Z).
    rewrite (sort_permutation (timestamp_at [A; B; S]) P).
    - cbn. resolve_leb. cbn. resolve_leb. reflexivity.
    - apply Permutation_NoDup with (l := map (timestamp_at [A; B; S]) [0; 1; 2]%nat).
      + apply Permutation_map. apply Permutation_sym. exact P.
      + cbn. repeat constructor; simpl; lia. }
  assert (Hheap : forall m,
    realized m =
    Some (Some (Transaction.quantity S * Transaction.price_usd S -
            snd (sellLoop (orderPositions m [lot_of A; lot_of B])
                   [lot_of A; lot_of B] (Transaction.quantity S) zero))%num)).
  { intro m. unfold realized, calculate. simpl snd. rewrite Hsort.
    rewrite replay_two_lots_then_disposal by assumption. reflexivity. }
  rewrite !Hheap. unfold lot_of. rewrite qA, pA, qB, pB, qS, pS.
  unfold orderPositions, slots. cbn [String.eqb Ascii.eqb Bool.eqb].
  unfold by_timestamp_asc, by_timestamp_desc.
  cbn [List.length seq combine sort fold_right insert_sorted snd fst
       Position.timestamp map].
  resolve_leb.
  cbn [map fst].
  split; [|split; [|split; [|split]]].
  - apply f_equal, f_equal. number_eq.
  - apply f_equal, f_equal. number_eq.
  - apply f_equal, f_equal. number_eq.
  - apply Qcltb_false. vm_compute. reflexivity.
  - apply Qcltb_false. vm_compute. reflexivity.
Qed.

Lemma C1_canonical_scenario_witness :
  let h := [eth_tx buy 1 2 1800; eth_tx transfer_in 2 1 2000; eth_tx sell 3 1 2200] in
  let realized m :=
    option_map Transaction.realized_pnl_usd
      (nth_error (snd (calculate m 0 h [2; 0; 1]%nat [])) 2) in
  realized "fifo"%string = Some (Some (Fin (qc 400))) /\
  realized "lifo"%string = Some (Some (Fin (qc 200))) /\
  realized "avg"%string =
    Some (Some (Fin (qc 2200 - (qc 2 * qc 1800 + qc 1 * qc 2000) / qc 3)%Qc)) /\
  (qc 33332 / qc 100 <= qc 2200 - (qc 2 * qc 1800 + qc 1 * qc 2000) / qc 3
   <= qc 33334 / qc 100)%Qc.
Proof.
  apply (@C1_canonical_scenario
           (eth_tx buy 1 2 1800) (eth_tx transfer_in 2 1 2000) (eth_tx sell 3 1 2200)
           0%Z [] [2; 0; 1]%nat);
    try reflexivity; try lia.
  apply Permutation_sym.
  apply perm_trans with [0; 2; 1]%nat; [apply perm_skip; apply perm_swap|apply perm_swap].
Defined.

(** ** Writing into the store *)

Lemma nth_error_update_nth {A : Type} (x : A) : forall (l : list A) (i : nat) (y : A),
  nth_error l i = Some y -> nth_error (update_nth i x l) i = Some x.
Proof.
  induction l as [|z l IH]; intros [|i] y H; simpl in *; try discriminate.
  - reflexivity.
  - eapply IH. exact H.
Qed.

Lemma nth_error_update_nth_ne {A : Type} (x : A) : forall (l : list A) (i j : nat),
  i <> j -> nth_error (update_nth i x l) j = nth_error l j.
Proof.
  induction l as [|z l IH]; intros [|i] [|j] N; simpl; try reflexivity.
  - congruence.
  - apply IH. congruence.
Qed.

Lemma length_update_nth {A : Type} (x : A) : forall (l : list A) (i : nat),
  List.length (update_nth i x l) = List.length l.
Proof.
  induction l as [|z l IH]; intros [|i]; simpl; try reflexivity.
  f_equal. apply IH.
Qed.

(** ** The portfolio summary *)

Lemma number_eqb_refl (a : number) : number_eqb a a = true.
Proof. destruct a; simpl; try reflexivity. apply Qceqb_refl. Qed.

Lemma number_eqb_false (a b : number) : number_eqb a b = false -> a <> b.
Proof. intros H E. subst b. rewrite number_eqb_refl in H. discriminate. Qed.

(** C3.  In every result of [calculate] the summary satisfies
    [initial_investment_usd = (sum over tokens of quantity_held *
    average_buy_price_usd) + |sum over tokens of realized_pnl_usd|] and
    [total_pnl_usd = current_value_usd - initial_investment_usd]; and
    [total_pnl_usd] is not in general the sum of the realized and the
    unrealized totals: after buying 1 at 100 and selling 1 at 150 it is -50
    while that sum is 50. *)
Theorem C3_summary_from_investment :
  (forall method now h transactions prices,
     let result := fst (calculate method now h transactions prices) in
     let tokens := PnLResult.by_token result in
     let s := PnLResult.summary result in
     PnLSummary.initial_investment_usd s =
       (reduce_sum
          (fun t => TokenPnL.quantity_held t * TokenPnL.average_buy_price_usd t)%num
          tokens
        + nabs (reduce_sum TokenPnL.realized_pnl_usd tokens))%num
     /\ PnLSummary.total_pnl_usd s =
        (PnLSummary.current_value_usd s - PnLSummary.initial_investment_usd s)%num)
  /\ (let h := [eth_tx buy 1 1 100; eth_tx sell 2 1 150] in
      let s := PnLResult.summary (fst (calculate "fifo" 0 h (all_refs h) [])) in
      PnLSummary.total_pnl_usd s = Fin (qc (-50))
      /\ (PnLSummary.total_realized_pnl_usd s + PnLSummary.total_unrealized_pnl_usd s)%num
         = Fin (qc 50)).
Proof.
  split.
  - intros method now h transactions prices result tokens s.
    unfold s, tokens, result, calculate. cbn [fst PnLResult.summary PnLResult.by_token].
    unfold calculateSummary.
    cbn [PnLSummary.initial_investment_usd PnLSummary.total_pnl_usd
         PnLSummary.current_value_usd].
    rewrite nabs_conditional. split; reflexivity.
  - split; number_eq.
Qed.

(** ** Arithmetic of lots *)

Lemma Qc_eq_Qeq (a b : Qc) : a = b -> (this a == this b)%Q.
Proof. intros ->. reflexivity. Qed.

(** Order and equations between rationals, through [Q]. *)
Ltac qc_arith :=
  change (qc 0) with 0%Qc in *;
  repeat match goal with
  | H : @eq Qc _ _ |- _ => apply Qc_eq_Qeq in H
  | |- @eq Qc _ _ => apply Qc_is_canon
  end;
  unfold Qcle, Qclt, Qcminus, Qcdiv, Qcplus, Qcopp, Qcmult, Q2Qc in *;
  cbn [this] in *;
  repeat match goal with
  | H : context [Qred ?x] |- _ => rewrite (Qred_correct x) in H
  | |- context [Qred ?x] => rewrite (Qred_correct x)
  end;
  lra.

Lemma nadd_Fin (a b : Qc) : (Fin a + Fin b)%num = Fin (a + b).
Proof. reflexivity. Qed.

Lemma nsub_Fin (a b : Qc) : (Fin a - Fin b)%num = Fin (a - b).
Proof. reflexivity. Qed.

Lemma nmul_Fin (a b : Qc) : (Fin a * Fin b)%num = Fin (a * b).
Proof. reflexivity. Qed.

Lemma ngtb_zero_Fin (r : Qc) : ngtb (Fin r) zero = true <-> (qc 0 < r)%Qc.
Proof. unfold ngtb, nltb, zero. apply Qcltb_true. Qed.

Lemma ngtb_zero_cases (rem : number) :
  ngtb rem zero = true -> (exists r, rem = Fin r /\ (qc 0 < r)%Qc) \/ rem = PInf.
Proof.
  destruct rem as [r| | |]; intro H; try discriminate.
  - left. exists r. split; [reflexivity|]. apply ngtb_zero_Fin. exact H.
  - right. reflexivity.
Qed.

(** What [Math.min(position.quantity, remainingQuantity)] takes from a lot. *)
Lemma take_spec (q : Qc) (rem : number) :
  (qc 0 <= q)%Qc -> ngtb rem zero = true ->
  exists m, nmin (Fin q) rem = Fin m /\ (qc 0 <= m)%Qc /\ (m <= q)%Qc /\
            (forall r, rem = Fin r -> (r < q /\ m = r)%Qc \/ (q <= r /\ m = q)%Qc).
Proof.
  intros Hq Hrem. destruct (ngtb_zero_cases _ Hrem) as [[r [-> Hr]]| ->].
  - unfold nmin, nltb. destruct (Qcltb r q) eqn:E.
    + apply Qcltb_true in E. exists r. repeat split.
      * apply Qclt_le_weak. exact Hr.
      * apply Qclt_le_weak. exact E.
      * intros r' Er. inversion Er; subst. left. split; [exact E|reflexivity].
    + apply Qcltb_false in E. exists q. repeat split.
      * exact Hq.
      * apply Qcle_refl.
      * intros r' Er. inversion Er; subst. right. split; [exact E|reflexivity].
  - exists q. repeat split.
    + exact Hq.
    + apply Qcle_refl.
    + intros r' Er. discriminate.
Qed.

Lemma lot_nonneg_qty (p : Position.t) :
  lot_nonneg p = true -> Position.quantity p = Fin (qty p) /\ (qc 0 <= qty p)%Qc.
Proof.
  unfold lot_nonneg, qty. intro H. apply nonneg_Fin in H.
  destruct H as (q & E & L). rewrite E. simpl. split; [reflexivity|exact L].
Qed.

Lemma lot_shrinks_refl (p : Position.t) : lot_nonneg p = true -> lot_shrinks p p.
Proof.
  intro H. destruct (lot_nonneg_qty _ H) as [E L].
  repeat split. exists (qty p), (qty p). repeat split; try assumption.
  apply Qcle_refl.
Qed.

Lemma lot_shrinks_trans (p1 p2 p3 : Position.t) :
  lot_shrinks p1 p2 -> lot_shrinks p2 p3 -> lot_shrinks p1 p3.
Proof.
  intros (P1 & T1 & H1 & q1 & q2 & E1 & E2 & L1 & L2)
         (P2 & T2 & H2 & q2' & q3 & E2' & E3 & L3 & L4).
  rewrite E2 in E2'. inversion E2'; subst q2'.
  repeat split; try congruence.
  exists q1, q3. repeat split; try assumption.
  eapply Qcle_trans; eassumption.
Qed.

Lemma lot_shrinks_nonneg (p p' : Position.t) : lot_shrinks p p' -> lot_nonneg p' = true.
Proof.
  intros (_ & _ & _ & q & q' & _ & E & L & _).
  unfold lot_nonneg. apply nonneg_Fin. exists q'. split; assumption.
Qed.

Lemma lots_shrink_refl (ps : list Position.t) :
  Forall (fun p => lot_nonneg p = true) ps -> Forall2 lot_shrinks ps ps.
Proof.
  induction 1; constructor; [apply lot_shrinks_refl|]; assumption.
Qed.

Lemma lots_shrink_trans (ps1 ps2 ps3 : list Position.t) :
  Forall2 lot_shrinks ps1 ps2 -> Forall2 lot_shrinks ps2 ps3 ->
  Forall2 lot_shrinks ps1 ps3.
Proof.
  intro H. revert ps3. induction H; intros ps3 H'; inversion H'; subst; constructor.
  - eapply lot_shrinks_trans; eassumption.
  - apply IHForall2. assumption.
Qed.

Lemma lots_shrink_nonneg (ps ps' : list Position.t) :
  Forall2 lot_shrinks ps ps' -> Forall (fun p => lot_nonneg p = true) ps'.
Proof.
  induction 1; constructor; [eapply lot_shrinks_nonneg; eassumption|assumption].
Qed.

Lemma lots_shrink_update (q' : Qc) : forall (ps : list Position.t) (i : nat) (p : Position.t),
  Forall (fun p => lot_nonneg p = true) ps ->
  nth_error ps i = Some p ->
  (qc 0 <= q')%Qc -> (q' <= qty p)%Qc ->
  Forall2 lot_shrinks ps (update_nth i (Position.with_quantity p (Fin q')) ps).
Proof.
  induction ps as [|p0 ps IH]; intros [|i] p F N L0 L1; simpl in *; try discriminate.
  - inversion N; subst p0. inversion F; subst. constructor.
    + destruct (lot_nonneg_qty p) as [E _]; [assumption|].
      repeat split. exists (qty p), q'. repeat split; assumption.
    + apply lots_shrink_refl. assumption.
  - inversion F; subst. constructor.
    + apply lot_shrinks_refl. assumption.
    + apply IH; assumption.
Qed.

(** A disposal only lowers the quantities of the lots, and never below 0. *)
Lemma sellLoop_shrinks (ordered : list PosRef) :
  forall (ps : list Position.t) (remaining cost : number),
  Forall (fun p => lot_nonneg p = true) ps ->
  Forall2 lot_shrinks ps (fst (fst (sellLoop ordered ps remaining cost))).
Proof.
  induction ordered as [|r rest IH]; intros ps remaining cost F; simpl.
  - apply lots_shrink_refl. exact F.
  - destruct (ngtb remaining zero) eqn:G; [|apply lots_shrink_refl; exact F].
    destruct (resolve ps r) as [position|] eqn:R; [|apply IH; exact F].
    destruct r as [i|c]; simpl in R.
    + assert (Hp : lot_nonneg position = true).
      { rewrite Forall_forall in F. apply F. eapply nth_error_In. exact R. }
      destruct (lot_nonneg_qty _ Hp) as [E L]. rewrite E.
      destruct (take_spec remaining L G) as (m & -> & L0 & L1 & _).
      rewrite nsub_Fin. unfold assign_quantity. rewrite R.
      assert (S1 : Forall2 lot_shrinks ps
                     (update_nth i (Position.with_quantity position (Fin (qty position - m))) ps)).
      { apply lots_shrink_update; try assumption; qc_arith. }
      eapply lots_shrink_trans; [exact S1|].
      apply IH. eapply lots_shrink_nonneg. exact S1.
    + apply IH. exact F.
Qed.

Lemma held_update : forall (ps : list Position.t) (i : nat) (p p' : Position.t),
  nth_error ps i = Some p ->
  held (update_nth i p' ps) = (held ps - qty p + qty p')%Qc.
Proof.
  induction ps as [|p0 ps IH]; intros [|i] p p' N; simpl in *; try discriminate.
  - inversion N; subst. ring.
  - rewrite (IH i p p' N). ring.
Qed.

Lemma book_value_update : forall (ps : list Position.t) (i : nat) (p p' : Position.t),
  nth_error ps i = Some p ->
  book_value (update_nth i p' ps) =
  (book_value ps - qty p * unit_cost p + qty p' * unit_cost p')%Qc.
Proof.
  induction ps as [|p0 ps IH]; intros [|i] p p' N; simpl in *; try discriminate.
  - inversion N; subst. ring.
  - rewrite (IH i p p' N). ring.
Qed.

Lemma qty_with_quantity (p : Position.t) (x : Qc) :
  qty (Position.with_quantity p (Fin x)) = x.
Proof. reflexivity. Qed.

Lemma unit_cost_with_quantity (p : Position.t) (q : number) :
  unit_cost (Position.with_quantity p q) = unit_cost p.
Proof. reflexivity. Qed.

Lemma Forall2_nth_error {A B : Type} (R : A -> B -> Prop) :
  forall (l : list A) (l' : list B) (i : nat) (a : A) (b : B),
  Forall2 R l l' -> nth_error l i = Some a -> nth_error l' i = Some b -> R a b.
Proof.
  intros l l' i a b H. revert i. induction H; intros [|i] Na Nb; simpl in *;
    try discriminate.
  - inversion Na; inversion Nb; subst. assumption.
  - eapply IHForall2; eassumption.
Qed.

Lemma held_nonneg (ps : list Position.t) :
  Forall (fun p => lot_nonneg p = true) ps -> (qc 0 <= held ps)%Qc.
Proof.
  induction 1 as [|p ps Hp F IH]; simpl.
  - apply Qcle_refl.
  - destruct (lot_nonneg_qty _ Hp) as [_ L]. qc_arith.
Qed.

Lemma held_zero (ps : list Position.t) :
  (forall i p, nth_error ps i = Some p -> qty p = qc 0) -> held ps = qc 0.
Proof.
  induction ps as [|p ps IH]; intro H; simpl.
  - reflexivity.
  - rewrite (H 0%nat p eq_refl). rewrite IH.
    + change (qc 0) with 0%Qc. ring.
    + intros i p' N. apply (H (S i) p'). exact N.
Qed.

Lemma book_value_zero (ps : list Position.t) :
  (forall i p, nth_error ps i = Some p -> qty p = qc 0) -> book_value ps = qc 0.
Proof.
  induction ps as [|p ps IH]; intro H; simpl.
  - reflexivity.
  - rewrite (H 0%nat p eq_refl). rewrite IH.
    + change (qc 0) with 0%Qc. ring.
    + intros i p' N. apply (H (S i) p'). exact N.
Qed.

(** The loop over the shared lots: what is taken from [remainingQuantity] is
    taken from the lots, and the loop ends with the request served or the
    visited lots empty. *)
Lemma sellLoop_shared_quantities (slots_in_order : list nat) :
  forall (ps : list Position.t) (r : Qc) (cost : number),
  Forall (fun p => lot_nonneg p = true) ps -> (qc 0 <= r)%Qc ->
  exists ps' r' cost',
    sellLoop (map Shared slots_in_order) ps (Fin r) cost = (ps', Fin r', cost') /\
    (qc 0 <= r')%Qc /\ (r' <= r)%Qc /\
    (held ps' - r' = held ps - r)%Qc /\
    (r' = qc 0 \/
     forall i p, In i slots_in_order -> nth_error ps' i = Some p -> qty p = qc 0).
Proof.
  induction slots_in_order as [|i rest IH]; intros ps r cost F Hr; simpl.
  - exists ps, r, cost. repeat split; try assumption; try apply Qcle_refl.
    right. intros i p [].
  - destruct (ngtb (Fin r) zero) eqn:G.
    + destruct (nth_error ps i) as [position|] eqn:N.
      * assert (Hp : lot_nonneg position = true).
        { rewrite Forall_forall in F. apply F. eapply nth_error_In. exact N. }
        destruct (lot_nonneg_qty _ Hp) as [E L]. rewrite E.
        destruct (take_spec (Fin r) L G) as (m & -> & L0 & L1 & Hm).
        rewrite !nsub_Fin.
        set (ps1 := update_nth i (Position.with_quantity position (Fin (qty position - m))) ps).
        assert (S1 : Forall2 lot_shrinks ps ps1).
        { apply lots_shrink_update; try assumption; qc_arith. }
        assert (F1 : Forall (fun p => lot_nonneg p = true) ps1).
        { eapply lots_shrink_nonneg. exact S1. }
        assert (Hmr : (m <= r)%Qc).
        { destruct (Hm r eq_refl) as [[_ ->]|[L2 ->]]; [apply Qcle_refl|exact L2]. }
        assert (Hr1 : (qc 0 <= r - m)%Qc) by qc_arith.
        destruct (IH ps1 (r - m)%Qc (cost + Fin m * Position.price_usd position)%num F1 Hr1)
          as (ps' & r' & cost' & Eq & L2 & L3 & C & D).
        exists ps', r', cost'. rewrite Eq. repeat split; try assumption.
        -- qc_arith.
        -- rewrite C. unfold ps1. rewrite (@held_update ps i position _ N).
           rewrite qty_with_quantity. ring.
        -- destruct D as [D|D]; [left; exact D|].
           destruct (Hm r eq_refl) as [[_ Em]|[_ Em]].
           ++ left. subst m. apply Qcle_antisym; qc_arith.
           ++ right. intros j p [<-|Hj] Nj; [|apply (D j p Hj Nj)].
              assert (S2 : Forall2 lot_shrinks ps1 ps').
              { replace ps' with (fst (fst (sellLoop (map Shared rest) ps1 (Fin (r - m))
                                       (cost + Fin m * Position.price_usd position)%num)))
                  by (rewrite Eq; reflexivity).
                apply sellLoop_shrinks. exact F1. }
              assert (N1 : nth_error ps1 i =
                           Some (Position.with_quantity position (Fin (qty position - m)))).
              { unfold ps1. eapply nth_error_update_nth. exact N. }
              destruct (@Forall2_nth_error _ _ lot_shrinks _ _ _ _ _ S2 N1 Nj)
                as (_ & _ & _ & q & q' & Eq1 & Eq2 & L4 & L5).
              simpl in Eq1. inversion Eq1; subst q. unfold qty. rewrite Eq2. simpl.
              subst m. apply Qcle_antisym; qc_arith.
      * destruct (IH ps r cost F Hr) as (ps' & r' & cost' & Eq & L2 & L3 & C & D).
        exists ps', r', cost'. repeat split; try assumption.
        destruct D as [D|D]; [left; exact D|right].
        intros j p [<-|Hj] Nj; [|apply (D j p Hj Nj)].
        exfalso.
        assert (S2 : Forall2 lot_shrinks ps ps').
        { replace ps' with (fst (fst (sellLoop (map Shared rest) ps (Fin r) cost)))
            by (rewrite Eq; reflexivity).
          apply sellLoop_shrinks. exact F. }
        apply Forall2_length in S2.
        apply nth_error_None in N.
        assert (nth_error ps' i <> None) by congruence.
        apply nth_error_Some in H. lia.
    + exists ps, r, cost. repeat split; try assumption; try apply Qcle_refl.
      left. unfold ngtb, nltb, zero in G. apply Qcltb_false in G.
      apply Qcle_antisym; assumption.
Qed.

Lemma lot_ok_nonneg (p : Position.t) : lot_ok p = true -> lot_nonneg p = true.
Proof. unfold lot_ok, lot_nonneg. intro H. apply andb_prop in H. tauto. Qed.

Lemma lot_ok_price (p : Position.t) :
  lot_ok p = true -> Position.price_usd p = Fin (unit_cost p).
Proof.
  unfold lot_ok, unit_cost. intro H. apply andb_prop in H. destruct H as [_ H].
  destruct (Position.price_usd p); try discriminate. reflexivity.
Qed.

Lemma lots_ok_nonneg (ps : list Position.t) :
  Forall (fun p => lot_ok p = true) ps -> Forall (fun p => lot_nonneg p = true) ps.
Proof. apply Forall_impl. exact lot_ok_nonneg. Qed.

Lemma lots_ok_shrink (ps ps' : list Position.t) :
  Forall2 lot_shrinks ps ps' -> Forall (fun p => lot_ok p = true) ps ->
  Forall (fun p => lot_ok p = true) ps'.
Proof.
  induction 1 as [|p p' ps ps' S _ IH]; intro F;
    inversion F as [|? ? Hp F']; subst; constructor.
  - destruct S as (P & _ & _ & q & q' & _ & E & L & _).
    unfold lot_ok in *. rewrite P.
    apply andb_prop in Hp. destruct Hp as [_ Hp].
    rewrite Hp, andb_true_r. apply nonneg_Fin. exists q'. split; assumption.
  - apply IH. assumption.
Qed.

(** The loop over the shared lots: what is added to [totalCostBasis] is the
    book value taken from the lots. *)
Lemma sellLoop_shared_cost (slots_in_order : list nat) :
  forall (ps : list Position.t) (remaining : number) (c : Qc),
  Forall (fun p => lot_ok p = true) ps ->
  exists c',
    snd (sellLoop (map Shared slots_in_order) ps remaining (Fin c)) = Fin c' /\
    (c' + book_value (fst (fst (sellLoop (map Shared slots_in_order) ps remaining (Fin c))))
     = c + book_value ps)%Qc.
Proof.
  induction slots_in_order as [|i rest IH]; intros ps remaining c F; simpl.
  - exists c. split; reflexivity.
  - destruct (ngtb remaining zero) eqn:G; [|exists c; split; reflexivity].
    destruct (nth_error ps i) as [position|] eqn:N; [|apply IH; exact F].
    assert (Hp : lot_ok position = true).
    { rewrite Forall_forall in F. apply F. eapply nth_error_In. exact N. }
    destruct (lot_nonneg_qty _ (lot_ok_nonneg _ Hp)) as [E L]. rewrite E.
    rewrite (lot_ok_price _ Hp).
    destruct (take_spec remaining L G) as (m & -> & L0 & L1 & _).
    rewrite nsub_Fin, nmul_Fin, nadd_Fin.
    set (ps1 := update_nth i (Position.with_quantity position (Fin (qty position - m))) ps).
    assert (S1 : Forall2 lot_shrinks ps ps1).
    { apply lots_shrink_update; try assumption.
      - apply lots_ok_nonneg. exact F.
      - qc_arith.
      - qc_arith. }
    destruct (IH ps1 (remaining - Fin m)%num (c + m * unit_cost position)%Qc
                (lots_ok_shrink S1 F)) as (c' & Ec & Eb).
    exists c'. split; [exact Ec|]. rewrite Eb. unfold ps1.
    rewrite (@book_value_update ps i position _ N).
    rewrite qty_with_quantity, unit_cost_with_quantity. ring.
Qed.

(** ** Totals of lots, as numbers *)

Lemma fold_sum_Fin {A : Type} (f : A -> number) (g : A -> Qc) (l : list A) :
  Forall (fun x => f x = Fin (g x)) l ->
  forall a, fold_left (fun sum x => (sum + f x)%num) l (Fin a) =
            Fin (a + fold_right (fun x s => (g x + s)%Qc) (qc 0) l).
Proof.
  induction 1 as [|x l Hx F IH]; intro a; simpl.
  - f_equal. change (qc 0) with 0%Qc. ring.
  - rewrite Hx, nadd_Fin, IH. f_equal. ring.
Qed.

Lemma totalQuantity_held (ps : list Position.t) :
  Forall (fun p => lot_nonneg p = true) ps -> totalQuantity ps = Fin (held ps).
Proof.
  intro F. unfold totalQuantity, reduce_sum, zero.
  rewrite (@fold_sum_Fin _ Position.quantity qty).
  - f_equal. unfold held. change (qc 0) with 0%Qc. ring.
  - revert F. apply Forall_impl. intros p Hp. apply (lot_nonneg_qty _ Hp).
Qed.

Lemma totalValue_book_value (ps : list Position.t) :
  Forall (fun p => lot_ok p = true) ps -> totalValue ps = Fin (book_value ps).
Proof.
  intro F. unfold totalValue, reduce_sum, zero.
  rewrite (@fold_sum_Fin _ _ (fun p => (qty p * unit_cost p)%Qc)).
  - f_equal. unfold book_value. change (qc 0) with 0%Qc. ring.
  - revert F. apply Forall_impl. intros p Hp.
    destruct (lot_nonneg_qty _ (lot_ok_nonneg _ Hp)) as [E _].
    rewrite E, (lot_ok_price _ Hp). reflexivity.
Qed.

(** Removing the lots that are not positive removes empty lots only. *)
Lemma held_open_lots (ps : list Position.t) :
  Forall (fun p => lot_nonneg p = true) ps -> held (open_lots ps) = held ps.
Proof.
  induction 1 as [|p ps Hp F IH]; simpl.
  - reflexivity.
  - destruct (lot_nonneg_qty _ Hp) as [E L]. rewrite E.
    destruct (ngtb (Fin (qty p)) zero) eqn:G; simpl; rewrite IH; [reflexivity|].
    unfold ngtb, nltb, zero in G. apply Qcltb_false in G.
    assert (Z0 : qty p = qc 0) by (apply Qcle_antisym; assumption).
    rewrite Z0. change (qc 0) with 0%Qc. ring.
Qed.

Lemma open_lots_positive (ps : list Position.t) :
  Forall (fun p => ngtb (Position.quantity p) zero = true) (open_lots ps).
Proof.
  apply Forall_forall. intros p H. unfold open_lots in H.
  apply filter_In in H. tauto.
Qed.

Lemma open_lots_nonneg (ps : list Position.t) :
  Forall (fun p => lot_nonneg p = true) ps ->
  Forall (fun p => lot_nonneg p = true) (open_lots ps).
Proof.
  intro F. apply Forall_forall. intros p H. unfold open_lots in H.
  apply filter_In in H. rewrite Forall_forall in F. apply F. tauto.
Qed.

Lemma open_lots_empty (ps : list Position.t) :
  Forall (fun p => lot_nonneg p = true) ps ->
  (forall i p, nth_error ps i = Some p -> qty p = qc 0) -> open_lots ps = [].
Proof.
  induction 1 as [|p ps Hp F IH]; intro H; simpl.
  - reflexivity.
  - destruct (lot_nonneg_qty _ Hp) as [E _]. rewrite E.
    rewrite (H 0%nat p eq_refl).
    replace (ngtb (Fin (qc 0)) zero) with false by reflexivity.
    apply IH. intros i p' N. apply (H (S i) p'). exact N.
Qed.

(** ** The order in which lots are selected *)

Lemma slots_fst (ps : list Position.t) :
  map fst (slots ps) = seq 0 (List.length ps).
Proof.
  unfold slots. generalize 0%nat.
  induction ps as [|p ps IH]; intro n; simpl; [reflexivity|].
  f_equal. apply IH.
Qed.

(** Under every method but avg, [orderedPositions] holds the objects of
    [positions] themselves, each one once. *)
Lemma orderPositions_shared (method : string) (ps : list Position.t) :
  String.eqb method "avg" = false ->
  exists order, orderPositions method ps = map Shared order /\
                Permutation order (seq 0 (List.length ps)).
Proof.
  intro Havg. unfold orderPositions. rewrite Havg.
  destruct (String.eqb method "fifo"); [|destruct (String.eqb method "lifo")].
  - exists (map fst (sort by_timestamp_asc (slots ps))). split.
    + rewrite map_map. reflexivity.
    + rewrite <- slots_fst. apply Permutation_map. apply sort_is_permutation.
  - exists (map fst (sort by_timestamp_desc (slots ps))). split.
    + rewrite map_map. reflexivity.
    + rewrite <- slots_fst. apply Permutation_map. apply sort_is_permutation.
  - exists (map fst (slots ps)). split.
    + rewrite map_map. reflexivity.
    + rewrite slots_fst. apply Permutation_refl.
Qed.

(** Under avg it holds fresh copies, priced at the average. *)
Lemma orderPositions_avg (ps : list Position.t) :
  orderPositions "avg" ps =
  map Copy (map (fun p => Position.with_price p (totalValue ps / totalQuantity ps)%num) ps).
Proof. unfold orderPositions. simpl. rewrite map_map. reflexivity. Qed.

(** The loop over copies leaves [positions] as it was. *)
Lemma sellLoop_copies (copies : list Position.t) :
  forall (ps : list Position.t) (remaining cost : number),
  fst (fst (sellLoop (map Copy copies) ps remaining cost)) = ps.
Proof.
  induction copies as [|c copies IH]; intros ps remaining cost; simpl.
  - reflexivity.
  - destruct (ngtb remaining zero); [apply IH|reflexivity].
Qed.

(** The loop over all the shared lots. *)
Lemma sellLoop_shared_all (order : list nat) (ps : list Position.t) (r : Qc)
    (cost : number) :
  Forall (fun p => lot_nonneg p = true) ps -> (qc 0 <= r)%Qc ->
  Permutation order (seq 0 (List.length ps)) ->
  exists ps' r' cost',
    sellLoop (map Shared order) ps (Fin r) cost = (ps', Fin r', cost') /\
    Forall2 lot_shrinks ps ps' /\
    (qc 0 <= r')%Qc /\ (r' <= r)%Qc /\
    (held ps' - r' = held ps - r)%Qc /\
    (r' = qc 0 \/ forall i p, nth_error ps' i = Some p -> qty p = qc 0).
Proof.
  intros F Hr P.
  destruct (sellLoop_shared_quantities order cost F Hr)
    as (ps' & r' & cost' & Eq & L0 & L1 & C & D).
  assert (S : Forall2 lot_shrinks ps ps').
  { replace ps' with (fst (fst (sellLoop (map Shared order) ps (Fin r) cost)))
      by (rewrite Eq; reflexivity).
    apply sellLoop_shrinks. exact F. }
  exists ps', r', cost'. repeat split; try assumption.
  destruct D as [D|D]; [left; exact D|right].
  intros i p N. apply (D i p); [|exact N].
  apply Permutation_in with (l := seq 0 (List.length ps)).
  - apply Permutation_sym. exact P.
  - apply in_seq. apply Forall2_length in S.
    assert (nth_error ps' i <> None) by congruence.
    apply nth_error_Some in H. lia.
Qed.

(** Under fifo and lifo (and under any method but avg) a disposal of
    [quantity] units lowers the total of the key's open lots by
    [min(quantity, total)], and leaves only lots of positive quantity. *)
Lemma dispose_reduces_open_lots (method : string) (ps : list Position.t)
    (quantity cost : number) :
  String.eqb method "avg" = false ->
  Forall (fun p => lot_nonneg p = true) ps ->
  nonneg quantity = true ->
  let after :=
    open_lots (fst (fst (sellLoop (orderPositions method ps) ps quantity cost))) in
  totalQuantity after = (totalQuantity ps - nmin quantity (totalQuantity ps))%num /\
  Forall (fun p => ngtb (Position.quantity p) zero = true) after.
Proof.
  intros Havg F Hq after. split; [|apply open_lots_positive].
  apply nonneg_Fin in Hq. destruct Hq as (r & -> & Hr).
  destruct (orderPositions_shared method ps Havg) as (order & Eo & P).
  destruct (sellLoop_shared_all cost F Hr P)
    as (ps' & r' & cost' & Eq & S & L0 & L1 & C & D).
  unfold after. rewrite Eo, Eq. cbn [fst].
  assert (F' : Forall (fun p => lot_nonneg p = true) ps')
    by (eapply lots_shrink_nonneg; exact S).
  rewrite (totalQuantity_held (open_lots_nonneg F')), (held_open_lots F').
  rewrite (totalQuantity_held F).
  pose proof (held_nonneg F') as Hn'.
  unfold nmin, nltb. destruct (Qcltb (held ps) r) eqn:E; rewrite nsub_Fin; f_equal.
  - apply Qcltb_true in E. destruct D as [D|D].
    + subst r'. exfalso. qc_arith.
    + rewrite (held_zero _ D) in *. change (qc 0) with 0%Qc. ring.
  - apply Qcltb_false in E. destruct D as [D|D].
    + subst r'. apply Qcle_antisym; qc_arith.
    + rewrite (held_zero _ D) in *. apply Qcle_antisym; qc_arith.
Qed.

(** The same, for a disposal transaction processed by the engine. *)
Lemma disposal_reduces_lots (method : string) (e : Engine) (r : Ref)
    (tx : Transaction.t) :
  String.eqb method "avg" = false ->
  deref (heap e) r = Some tx ->
  is_disposal (Transaction.type tx) = true ->
  Forall (fun p => lot_nonneg p = true) (positions_of (key_of tx) e) ->
  nonneg (Transaction.quantity tx) = true ->
  let before := positions_of (key_of tx) e in
  let after := positions_of (key_of tx) (processTransaction method e r) in
  totalQuantity after =
    (totalQuantity before - nmin (Transaction.quantity tx) (totalQuantity before))%num /\
  Forall (fun p => ngtb (Position.quantity p) zero = true) after.
Proof.
  intros Havg D Hd F Hq before after. unfold after.
  rewrite (processTransaction_disposal method e r D Hd).
  rewrite positions_of_removePosition.
  apply dispose_reduces_open_lots; assumption.
Qed.

(** ** Disposals under avg *)

(** Under avg the loop works on copies: the key's lots are what they were,
    less the lots that were not positive already. *)
Lemma avg_disposal_keeps_lots (e : Engine) (r : Ref) (tx : Transaction.t) :
  positions_of (key_of tx) (removePosition "avg" (key_of tx) r tx e) =
  open_lots (positions_of (key_of tx) e).
Proof.
  rewrite positions_of_removePosition, orderPositions_avg, sellLoop_copies.
  reflexivity.
Qed.

(** C5, at the input on which the code departs from it.  Under avg, with a
    lot of quantity 2 bought at 10, the disposal of quantity 1 leaves the
    total of the key's open lots at 2 (the claim requires 2 - min(1, 2) = 1),
    and [calculate] reports [quantity_held = 2]; under fifo and lifo the
    same disposal leaves 1.  In general [removePosition] under avg leaves
    every positive lot of the key as it was. *)
Theorem C5_avg_disposal_does_not_reduce_lots :
  (forall e r tx,
     positions_of (key_of tx) (removePosition "avg" (key_of tx) r tx e) =
     open_lots (positions_of (key_of tx) e))
  /\ (let h := [eth_tx buy 1 2 10; eth_tx sell 2 1 12] in
      let key := key_of (eth_tx sell 2 1 12) in
      let lots_after m := positions_of key (replay m h [0; 1]%nat) in
      totalQuantity (positions_of key (replay "avg" h [0]%nat)) = Fin (qc 2) /\
      totalQuantity (lots_after "avg"%string) = Fin (qc 2) /\
      totalQuantity (lots_after "fifo"%string) = Fin (qc 1) /\
      totalQuantity (lots_after "lifo"%string) = Fin (qc 1) /\
      map TokenPnL.quantity_held
        (PnLResult.by_token (fst (calculate "avg" 0 h (all_refs h) []))) = [Fin (qc 2)]).
Proof.
  split.
  - intros e r tx. apply avg_disposal_keeps_lots.
  - cbv zeta. split; [|split; [|split; [|split]]]; try number_eq.
    vm_compute. apply f_equal2; [number_eq|reflexivity].
Qed.

(** ** Realized P&L of a disposal, against the lots *)

Lemma book_value_open_lots (ps : list Position.t) :
  Forall (fun p => lot_nonneg p = true) ps -> book_value (open_lots ps) = book_value ps.
Proof.
  induction 1 as [|p ps Hp F IH]; simpl.
  - reflexivity.
  - destruct (lot_nonneg_qty _ Hp) as [E L]. rewrite E.
    destruct (ngtb (Fin (qty p)) zero) eqn:G; simpl; rewrite IH; [reflexivity|].
    unfold ngtb, nltb, zero in G. apply Qcltb_false in G.
    assert (Z0 : qty p = qc 0) by (apply Qcle_antisym; assumption).
    rewrite Z0. change (qc 0) with 0%Qc. ring.
Qed.

Lemma open_lots_lot_ok (ps : list Position.t) :
  Forall (fun p => lot_ok p = true) ps ->
  Forall (fun p => lot_ok p = true) (open_lots ps).
Proof.
  intro F. apply Forall_forall. intros p Hp. unfold open_lots in Hp.
  apply filter_In in Hp. rewrite Forall_forall in F. apply F. tauto.
Qed.

(** Under a method other than avg, the cost that a disposal charges is the
    book value that it takes out of the lots of the key. *)
Lemma dispose_cost_is_value_removed (method : string) (ps : list Position.t)
    (quantity : number) :
  String.eqb method "avg" = false ->
  Forall (fun p => lot_ok p = true) ps ->
  snd (sellLoop (orderPositions method ps) ps quantity zero) =
  (totalValue ps -
   totalValue (open_lots (fst (fst (sellLoop (orderPositions method ps) ps
                                      quantity zero)))))%num.
Proof.
  intros Havg F.
  destruct (orderPositions_shared method ps Havg) as (order & -> & _).
  unfold zero.
  destruct (@sellLoop_shared_cost order ps quantity (qc 0) F) as (c' & Ec & Eb).
  set (ps' := fst (fst (sellLoop (map Shared order) ps quantity (Fin (qc 0))))) in *.
  assert (F' : Forall (fun p => lot_ok p = true) ps').
  { eapply lots_ok_shrink; [|exact F]. apply sellLoop_shrinks.
    apply lots_ok_nonneg. exact F. }
  rewrite Ec, (totalValue_book_value F),
    (totalValue_book_value (open_lots_lot_ok F')),
    (book_value_open_lots (lots_ok_nonneg F')), nsub_Fin.
  f_equal. qc_arith.
Qed.

Lemma nmin_Fin (a b : Qc) :
  nmin (Fin a) (Fin b) = Fin (if Qcltb b a then b else a).
Proof. unfold nmin, nltb. destruct (Qcltb b a); reflexivity. Qed.

(** Copies at one unit cost: the loop charges, at that cost, the quantity
    requested or, if that is less, the total of the copies. *)
Lemma sellLoop_copies_cost (u : Qc) (copies : list Position.t) :
  forall (ps : list Position.t) (r c : Qc),
  Forall (fun p => lot_nonneg p = true /\ Position.price_usd p = Fin u) copies ->
  (qc 0 <= r)%Qc ->
  snd (sellLoop (map Copy copies) ps (Fin r) (Fin c)) =
  (Fin c + nmin (Fin r) (Fin (held copies)) * Fin u)%num.
Proof.
  induction copies as [|p copies IH]; intros ps r c F Hr.
  - cbn [map sellLoop snd held fold_right]. rewrite nmin_Fin, nmul_Fin, nadd_Fin.
    f_equal. destruct (Qcltb (qc 0) r) eqn:G.
    + change (qc 0) with 0%Qc. ring.
    + apply Qcltb_false in G.
      assert (r = qc 0) as -> by (apply Qcle_antisym; assumption).
      change (qc 0) with 0%Qc. ring.
  - inversion F as [|? ? [Hp Hu] F']; subst.
    destruct (lot_nonneg_qty _ Hp) as [E L].
    pose proof (held_nonneg (Forall_impl _ (fun a H => proj1 H) F')) as Hn.
    cbn [map sellLoop held fold_right]. fold (held copies).
    destruct (ngtb (Fin r) zero) eqn:G.
    + cbn [resolve assign_quantity]. rewrite E, Hu.
      destruct (take_spec (Fin r) L G) as (m & -> & M0 & M1 & Hm).
      apply ngtb_zero_Fin in G.
      rewrite nsub_Fin, nmul_Fin, nadd_Fin.
      destruct (Hm r eq_refl) as [[Lt ->]|[Le ->]].
      * rewrite IH by (try exact F'; qc_arith).
        rewrite !nmin_Fin, !nmul_Fin, !nadd_Fin. f_equal.
        replace (Qcltb (held copies) (r - r)) with false
          by (symmetry; apply Qcltb_false; qc_arith).
        replace (Qcltb (qty p + held copies) r) with false
          by (symmetry; apply Qcltb_false; qc_arith).
        ring.
      * rewrite IH by (try exact F'; qc_arith).
        rewrite !nmin_Fin, !nmul_Fin, !nadd_Fin. f_equal.
        destruct (Qcltb (held copies) (r - qty p)) eqn:B.
        -- apply Qcltb_true in B.
           replace (Qcltb (qty p + held copies) r) with true
             by (symmetry; apply Qcltb_true; qc_arith).
           ring.
        -- apply Qcltb_false in B.
           replace (Qcltb (qty p + held copies) r) with false
             by (symmetry; apply Qcltb_false; qc_arith).
           ring.
    + cbn [snd]. rewrite nmin_Fin, nmul_Fin, nadd_Fin. f_equal.
      unfold ngtb, nltb, zero in G. apply Qcltb_false in G.
      assert (r = qc 0) as -> by (apply Qcle_antisym; assumption).
      replace (Qcltb (qty p + held copies) (qc 0)) with false
        by (symmetry; apply Qcltb_false; qc_arith).
      change (qc 0) with 0%Qc. ring.
Qed.

Lemma held_with_price (a : number) (ps : list Position.t) :
  held (map (fun p => Position.with_price p a) ps) = held ps.
Proof.
  induction ps as [|p ps IH]; simpl; [reflexivity|]. rewrite IH. reflexivity.
Qed.

(** Under avg the cost that a disposal charges is that of the pooled lot:
    the quantity requested or, if that is less, the total of the lots, at
    the average unit cost of the lots. *)
Lemma avg_cost (ps : list Position.t) (r : Qc) :
  Forall (fun p => lot_ok p = true) ps ->
  Forall (fun p => ngtb (Position.quantity p) zero = true) ps ->
  (qc 0 <= r)%Qc ->
  snd (sellLoop (orderPositions "avg" ps) ps (Fin r) zero) =
  match ps with
  | [] => zero
  | _ :: _ => (nmin (Fin r) (totalQuantity ps) * (totalValue ps / totalQuantity ps))%num
  end.
Proof.
  intros F Fp Hr. rewrite orderPositions_avg.
  destruct ps as [|p0 ps0] eqn:Eps; [reflexivity|]. rewrite <- Eps in *.
  rewrite (totalValue_book_value F), (totalQuantity_held (lots_ok_nonneg F)).
  assert (Hpos : (qc 0 < held ps)%Qc).
  { rewrite Eps. simpl. rewrite Eps in F, Fp.
    inversion F as [|? ? Hp0 F0]; inversion Fp as [|? ? Gp0 Fp0]; subst.
    destruct (lot_nonneg_qty _ (lot_ok_nonneg _ Hp0)) as [E0 _].
    rewrite E0 in Gp0. apply ngtb_zero_Fin in Gp0.
    pose proof (held_nonneg (lots_ok_nonneg F0)). qc_arith. }
  assert (Hne : held ps <> qc 0).
  { intro E. rewrite E in Hpos. exact (Qclt_not_eq _ _ Hpos eq_refl). }
  unfold ndiv. destruct (Qceqb (held ps) (qc 0)) eqn:E0.
  { apply Qceqb_true in E0. contradiction. }
  unfold zero.
  rewrite (@sellLoop_copies_cost (book_value ps / held ps)%Qc).
  - rewrite held_with_price. change (Fin (qc 0)) with zero. apply nadd_0_l.
  - apply Forall_forall. intros c Hc. apply in_map_iff in Hc.
    destruct Hc as (p & <- & Hin). split; [|reflexivity].
    rewrite Forall_forall in F. apply (lot_ok_nonneg _ (F p Hin)).
  - exact Hr.
Qed.



(** ** Overselling *)

(** C4, at the input on which the code departs from it.  With quantity 2
    acquired at 10, the disposal of quantity 5 at 12 does not fail and, under
    each of fifo, lifo and avg, charges a cost basis of exactly 20 and writes
    a realized P&L of exactly 40.  Under fifo and lifo it leaves the key
    without lots and [quantity_held] at 0; under avg the lot of quantity 2 is
    still open after it and [calculate] reports [quantity_held = 2], where
    the claim has all the lots consumed.  In general [removePosition] under
    avg, whatever quantity is requested, leaves every positive lot of the key
    as it was. *)
Theorem C4_avg_oversell_leaves_lots :
  (forall e r tx,
     positions_of (key_of tx) (removePosition "avg" (key_of tx) r tx e) =
     open_lots (positions_of (key_of tx) e))
  /\ (let h := [eth_tx buy 1 2 10; eth_tx sell 2 5 12] in
      let key := key_of (eth_tx sell 2 5 12) in
      let lots m := positions_of key (replay m h [0]%nat) in
      let lots_after m := positions_of key (replay m h [0; 1]%nat) in
      let cost m :=
        snd (sellLoop (orderPositions m (lots m)) (lots m) (Fin (qc 5)) zero) in
      let result m := calculate m 0 h (all_refs h) [] in
      let realized m :=
        map Transaction.realized_pnl_usd (PnLResult.transactions (fst (result m))) in
      let reported m :=
        map TokenPnL.quantity_held (PnLResult.by_token (fst (result m))) in
      (cost "fifo"%string = Fin (qc 20) /\ cost "lifo"%string = Fin (qc 20) /\
       cost "avg"%string = Fin (qc 20)) /\
      (realized "fifo"%string = [None; Some (Fin (qc 40))] /\
       realized "lifo"%string = [None; Some (Fin (qc 40))] /\
       realized "avg"%string = [None; Some (Fin (qc 40))]) /\
      (invoke "fifo" 0 h (all_refs h) [] = Returned (result "fifo"%string) /\
       invoke "lifo" 0 h (all_refs h) [] = Returned (result "lifo"%string) /\
       invoke "avg" 0 h (all_refs h) [] = Returned (result "avg"%string)) /\
      (lots_after "fifo"%string = [] /\ lots_after "lifo"%string = [] /\
       map Position.timestamp (lots_after "avg"%string) = [1%Z] /\
       totalQuantity (lots_after "avg"%string) = Fin (qc 2)) /\
      (reported "fifo"%string = [Fin (qc 0)] /\ reported "lifo"%string = [Fin (qc 0)] /\
       reported "avg"%string = [Fin (qc 2)])).
Proof.
  split.
  - intros e r tx. apply avg_disposal_keeps_lots.
  - cbv zeta. split; [|split; [|split; [|split]]].
    + repeat split; number_eq.
    + repeat split; vm_compute; (apply f_equal2; [reflexivity|]);
        (apply f_equal2; [|reflexivity]); apply f_equal; number_eq.
    + repeat split; reflexivity.
    + split; [reflexivity|]. split; [reflexivity|]. split; [reflexivity|number_eq].
    + repeat split; vm_compute; (apply f_equal2; [number_eq|reflexivity]).
Qed.

(** ** Quantities never go negative *)

Lemma Forall_update_nth {A : Type} (P : A -> Prop) (x : A) :
  forall (l : list A) (i : nat), Forall P l -> P x -> Forall P (update_nth i x l).
Proof.
  induction l as [|y l IH]; intros [|i] F Hx; simpl; try assumption;
    inversion F; subst; constructor; try assumption.
  apply IH; assumption.
Qed.

Lemma positions_of_updateTokenPnL key' key chain symbol address realized e :
  positions_of key' (updateTokenPnL key chain symbol address realized e) =
  positions_of key' e.
Proof. reflexivity. Qed.

Lemma processTransaction_keeps_nonneg (method : string) (e : Engine) (r : Ref) :
  quantities_nonneg (heap e) -> lots_nonneg e ->
  quantities_nonneg (heap (processTransaction method e r)) /\
  lots_nonneg (processTransaction method e r).
Proof.
  intros Hh Hl. unfold processTransaction.
  destruct (deref (heap e) r) as [tx|] eqn:D; [|split; assumption].
  assert (Htx : nonneg (Transaction.quantity tx) = true).
  { unfold quantities_nonneg in Hh. rewrite Forall_forall in Hh. apply Hh.
    eapply nth_error_In. exact D. }
  fold (key_of tx).
  assert (Hadd : quantities_nonneg (heap (addPosition (key_of tx) tx e)) /\
                 lots_nonneg (addPosition (key_of tx) tx e)).
  { split; [exact Hh|]. intro key.
    destruct (String.eqb_spec (key_of tx) key) as [<-|N].
    - rewrite positions_of_addPosition. apply Forall_app. split; [apply Hl|].
      constructor; [exact Htx|constructor].
    - rewrite positions_of_addPosition_ne by exact N. apply Hl. }
  assert (Hrem : quantities_nonneg (heap (removePosition method (key_of tx) r tx e)) /\
                 lots_nonneg (removePosition method (key_of tx) r tx e)).
  { split.
    - rewrite heap_removePosition. apply Forall_update_nth; [exact Hh|exact Htx].
    - intro key. destruct (String.eqb_spec (key_of tx) key) as [<-|N].
      + rewrite positions_of_removePosition. apply open_lots_nonneg.
        eapply lots_shrink_nonneg. apply sellLoop_shrinks. apply Hl.
      + rewrite positions_of_removePosition_ne by exact N. apply Hl. }
  destruct (Transaction.type tx); assumption.
Qed.

Lemma trajectory_keeps_nonneg (method : string) (txs : list Ref) :
  forall e, quantities_nonneg (heap e) -> lots_nonneg e ->
  Forall lots_nonneg (trajectory method e txs).
Proof.
  induction txs as [|r txs IH]; intros e Hh Hl; simpl.
  - constructor; [exact Hl|constructor].
  - constructor; [exact Hl|].
    destruct (processTransaction_keeps_nonneg method r Hh Hl) as [Hh' Hl'].
    apply IH; assumption.
Qed.

(** The trajectory ends in the engine that the replay loop returns. *)
Lemma trajectory_last (method : string) (txs : list Ref) :
  forall e d, last (trajectory method e txs) d = fold_left (processTransaction method) txs e.
Proof.
  induction txs as [|r txs IH]; intros e d; [reflexivity|].
  cbn [trajectory fold_left]. rewrite <- (IH (processTransaction method e r) d).
  destruct txs; reflexivity.
Qed.

(** C6.  When every transaction has a finite, non-negative quantity, then
    under any method, after each transaction of the replay of [calculate]
    (before the first one too), for every token key each lot has a quantity
    that is finite and >= 0, and so has their sum; and from such a state,
    after any number of iterations of the loop of a disposal, of any
    requested quantity, the lots of the key still do: an oversell does not
    make them negative. *)
Theorem C6_quantities_never_negative
    (method : string) (h : TxHeap) (transactions : list Ref) :
  quantities_nonneg h ->
  Forall
    (fun e => forall key,
       Forall (fun p => nonneg (Position.quantity p) = true) (positions_of key e) /\
       nonneg (totalQuantity (positions_of key e)) = true /\
       forall (iterations : nat) (requested : number),
         Forall (fun p => nonneg (Position.quantity p) = true)
           (fst (fst (sellLoop
                        (firstn iterations (orderPositions method (positions_of key e)))
                        (positions_of key e) requested zero))))
    (trajectory method (mkEngine JsMap.empty JsMap.empty h)
       (sort (by_tx_timestamp h) transactions)).
Proof.
  intro Hh.
  assert (H0 : lots_nonneg (mkEngine JsMap.empty JsMap.empty h)).
  { intro key. constructor. }
  pose proof (@trajectory_keeps_nonneg method (sort (by_tx_timestamp h) transactions)
                (mkEngine JsMap.empty JsMap.empty h) Hh H0) as T.
  revert T. apply Forall_impl. intros e He key. split; [apply He|]. split.
  - rewrite (totalQuantity_held (He key)). apply nonneg_Fin.
    exists (held (positions_of key e)). split; [reflexivity|].
    apply held_nonneg. apply He.
  - intros iterations requested.
    apply lots_shrink_nonneg with (ps := positions_of key e).
    apply sellLoop_shrinks. apply He.
Qed.

Lemma C6_quantities_never_negative_witness :
  let h := [eth_tx sell 1 3 12; eth_tx buy 2 2 10; eth_tx sell 3 5 12] in
  Forall
    (fun e => forall key,
       Forall (fun p => nonneg (Position.quantity p) = true) (positions_of key e) /\
       nonneg (totalQuantity (positions_of key e)) = true /\
       forall (iterations : nat) (requested : number),
         Forall (fun p => nonneg (Position.quantity p) = true)
           (fst (fst (sellLoop
                        (firstn iterations (orderPositions "avg" (positions_of key e)))
                        (positions_of key e) requested zero))))
    (trajectory "avg" (mkEngine JsMap.empty JsMap.empty h)
       (sort (by_tx_timestamp h) (all_refs h))).
Proof.
  apply (@C6_quantities_never_negative "avg"
           [eth_tx sell 1 3 12; eth_tx buy 2 2 10; eth_tx sell 3 5 12]).
  repeat constructor.
Defined.

(** ** Order of the input array *)

Lemma existsb_eqb_In (c : string) (l : list string) :
  existsb (String.eqb c) l = true <-> In c l.
Proof.
  rewrite existsb_exists. split.
  - intros (x & Hx & E). apply String.eqb_eq in E. subst. exact Hx.
  - intro H. exists c. split; [exact H|apply String.eqb_refl].
Qed.

Lemma distinct_from_spec (l : list string) : forall seen,
  NoDup seen ->
  NoDup (distinct_from seen l) /\
  (forall x, In x (distinct_from seen l) <-> In x seen \/ In x l).
Proof.
  induction l as [|c l IH]; intros seen ND; simpl.
  - split; [exact ND|]. intro x. tauto.
  - destruct (existsb (String.eqb c) seen) eqn:E.
    + apply existsb_eqb_In in E. destruct (IH seen ND) as [N I].
      split; [exact N|]. intro x. rewrite I. split; [tauto|].
      intros [H|[<-|H]]; tauto.
    + assert (NI : ~ In c seen).
      { intro H. apply existsb_eqb_In in H. congruence. }
      assert (ND' : NoDup (seen ++ [c])).
      { apply NoDup_app; [exact ND|repeat constructor; intros []|].
        intros x Hx [<-|[]]. contradiction. }
      destruct (IH (seen ++ [c]) ND') as [N I].
      split; [exact N|]. intro x. rewrite I, in_app_iff. simpl. tauto.
Qed.

(** The chains queried are the same set for every order of the input. *)
Lemma distinct_permutation (l l' : list string) :
  Permutation l l' -> Permutation (distinct l) (distinct l').
Proof.
  intro P. change (Permutation (distinct_from [] l) (distinct_from [] l')).
  destruct (distinct_from_spec l (NoDup_nil _)) as [N I].
  destruct (distinct_from_spec l' (NoDup_nil _)) as [N' I'].
  apply NoDup_Permutation; try assumption.
  intro x. rewrite I, I'. split; intros [[]|H]; right.
  - eapply Permutation_in; eassumption.
  - eapply Permutation_in; [apply Permutation_sym|]; eassumption.
Qed.

Lemma objects_permutation (h : TxHeap) (refs refs' : list Ref) :
  Permutation refs refs' -> Permutation (objects h refs) (objects h refs').
Proof. intro P. unfold objects. apply Permutation_flat_map. exact P. Qed.

(** With pairwise distinct timestamps, [calculate] sorts every order of the
    input into the same array. *)
Lemma sorted_transactions_permutation (h : TxHeap) (refs refs' : list Ref) :
  Permutation refs refs' -> NoDup (map (timestamp_at h) refs) ->
  sort (by_tx_timestamp h) refs' = sort (by_tx_timestamp h) refs.
Proof.
  intros P ND. symmetry.
  exact (sort_permutation (timestamp_at h) P ND).
Qed.

(** C7, as the code has it.  For two orders of the same input array whose
    transactions have pairwise distinct timestamps, [calculate] returns the
    same summary, by_chain, by_token and annotated transactions, leaves the
    same store, and reports the same chains in [chains_queried], though in
    the order of their first occurrence in the array given. *)
Theorem C7_order_independence
    (method : string) (now : Z) (h : TxHeap) (refs refs' : list Ref)
    (prices : JsMap.t number) :
  Permutation refs refs' ->
  NoDup (map (timestamp_at h) refs) ->
  let result := fst (calculate method now h refs prices) in
  let result' := fst (calculate method now h refs' prices) in
  PnLResult.summary result' = PnLResult.summary result /\
  PnLResult.by_chain result' = PnLResult.by_chain result /\
  PnLResult.by_token result' = PnLResult.by_token result /\
  PnLResult.transactions result' = PnLResult.transactions result /\
  snd (calculate method now h refs' prices) = snd (calculate method now h refs prices) /\
  Metadata.last_updated (PnLResult.metadata result') =
    Metadata.last_updated (PnLResult.metadata result) /\
  Metadata.data_sources (PnLResult.metadata result') =
    Metadata.data_sources (PnLResult.metadata result) /\
  Permutation (Metadata.chains_queried (PnLResult.metadata result'))
    (Metadata.chains_queried (PnLResult.metadata result)).
Proof.
  intros P ND result result'. unfold result, result', calculate.
  cbn [fst snd PnLResult.summary PnLResult.by_chain PnLResult.by_token
       PnLResult.transactions PnLResult.metadata Metadata.last_updated
       Metadata.data_sources Metadata.chains_queried].
  rewrite (@sorted_transactions_permutation h refs refs' P ND).
  repeat split.
  apply distinct_permutation. apply Permutation_map.
  apply objects_permutation. apply Permutation_sym. exact P.
Qed.

Lemma C7_order_independence_witness :
  let h := [token_tx "ethereum" "ETH" buy 2 1 10; token_tx "base" "USDC" buy 1 5 1;
            token_tx "ethereum" "ETH" sell 3 1 12] in
  let result := fst (calculate "lifo" 0 h [0; 1; 2]%nat []) in
  let result' := fst (calculate "lifo" 0 h [1; 0; 2]%nat []) in
  PnLResult.summary result' = PnLResult.summary result /\
  PnLResult.by_chain result' = PnLResult.by_chain result /\
  PnLResult.by_token result' = PnLResult.by_token result /\
  PnLResult.transactions result' = PnLResult.transactions result /\
  snd (calculate "lifo" 0 h [1; 0; 2]%nat []) = snd (calculate "lifo" 0 h [0; 1; 2]%nat []) /\
  Metadata.last_updated (PnLResult.metadata result') =
    Metadata.last_updated (PnLResult.metadata result) /\
  Metadata.data_sources (PnLResult.metadata result') =
    Metadata.data_sources (PnLResult.metadata result) /\
  Permutation (Metadata.chains_queried (PnLResult.metadata result'))
    (Metadata.chains_queried (PnLResult.metadata result)).
Proof.
  apply (@C7_order_independence "lifo" 0%Z
           [token_tx "ethereum" "ETH" buy 2 1 10; token_tx "base" "USDC" buy 1 5 1;
            token_tx "ethereum" "ETH" sell 3 1 12]
           [0; 1; 2]%nat [1; 0; 2]%nat []).
  - apply perm_swap.
  - vm_compute. repeat (apply NoDup_cons; [simpl; lia|]). apply NoDup_nil.
Defined.

(** C7 as stated fails.  Two transactions that share a timestamp are
    replayed in the order of the array: a buy of 1 at 10 and a sell of 1 at
    12 realize 2 in one order and 12 in the other.  And with distinct
    timestamps [chains_queried] still follows the order of the array. *)
Lemma C7_order_dependence :
  (let h := [eth_tx buy 5 1 10; eth_tx sell 5 1 12] in
   Permutation [0; 1]%nat [1; 0]%nat /\
   PnLSummary.total_realized_pnl_usd
     (PnLResult.summary (fst (calculate "fifo" 0 h [0; 1]%nat []))) = Fin (qc 2) /\
   PnLSummary.total_realized_pnl_usd
     (PnLResult.summary (fst (calculate "fifo" 0 h [1; 0]%nat []))) = Fin (qc 12) /\
   fst (calculate "fifo" 0 h [1; 0]%nat []) <> fst (calculate "fifo" 0 h [0; 1]%nat []))
  /\
  (let h := [token_tx "ethereum" "ETH" buy 2 1 10; token_tx "base" "USDC" buy 1 5 1] in
   Metadata.chains_queried
     (PnLResult.metadata (fst (calculate "fifo" 0 h [0; 1]%nat [])))
     = ["ethereum"; "base"]%string /\
   Metadata.chains_queried
     (PnLResult.metadata (fst (calculate "fifo" 0 h [1; 0]%nat [])))
     = ["base"; "ethereum"]%string /\
   fst (calculate "fifo" 0 h [1; 0]%nat []) <> fst (calculate "fifo" 0 h [0; 1]%nat [])).
Proof.
  split; cbv zeta.
  - split; [apply perm_swap|]. split; [number_eq|]. split; [number_eq|].
    intro E.
    apply (f_equal (fun r => PnLSummary.total_realized_pnl_usd (PnLResult.summary r))) in E.
    revert E. apply number_eqb_false. vm_compute. reflexivity.
  - split; [reflexivity|]. split; [reflexivity|].
    intro E.
    apply (f_equal (fun r => Metadata.chains_queried (PnLResult.metadata r))) in E.
    vm_compute in E. discriminate.
Qed.

(** ** What [calculate] does to the caller's objects *)

Lemma with_realized_same (tx : Transaction.t) :
  Transaction.with_realized tx (Transaction.realized_pnl_usd tx) = tx.
Proof. destruct tx. reflexivity. Qed.

(** One transaction processed: the object processed, when it is a disposal,
    gets a number in [realized_pnl_usd]; nothing else changes in the store. *)
Lemma processTransaction_heap (method : string) (e : Engine) (r0 r : Ref)
    (tx : Transaction.t) :
  deref (heap e) r = Some tx ->
  exists v,
    deref (heap (processTransaction method e r0)) r =
      Some (Transaction.with_realized tx v) /\
    (is_acquisition (Transaction.type tx) = true \/ r <> r0 ->
     v = Transaction.realized_pnl_usd tx) /\
    (is_disposal (Transaction.type tx) = true -> r = r0 -> exists x, v = Some x).
Proof.
  intro D.
  destruct (deref (heap e) r0) as [tx0|] eqn:D0.
  - destruct (is_disposal (Transaction.type tx0)) eqn:T0.
    + rewrite (processTransaction_disposal method e r0 D0 T0).
      rewrite heap_removePosition. unfold deref in *.
      destruct (Nat.eq_dec r r0) as [->|N].
      * rewrite D in D0. inversion D0; subst tx0.
        rewrite (nth_error_update_nth _ _ _ D).
        eexists. split; [reflexivity|]. split.
        -- intros [A|A]; [|congruence].
           destruct (Transaction.type tx); discriminate.
        -- intros _ _. eexists. reflexivity.
      * rewrite nth_error_update_nth_ne by congruence. rewrite D.
        exists (Transaction.realized_pnl_usd tx). rewrite with_realized_same.
        split; [reflexivity|]. split; [reflexivity|]. intros _ E. contradiction.
    + assert (T1 : is_acquisition (Transaction.type tx0) = true)
        by (destruct (Transaction.type tx0); try discriminate; reflexivity).
      rewrite (processTransaction_acquisition method e r0 D0 T1).
      rewrite heap_addPosition, D.
      exists (Transaction.realized_pnl_usd tx). rewrite with_realized_same.
      split; [reflexivity|]. split; [reflexivity|].
      intros Hd ->. unfold deref in *. rewrite D in D0. inversion D0; subst.
      congruence.
  - rewrite (processTransaction_dangling method e r0 D0), D.
    exists (Transaction.realized_pnl_usd tx). rewrite with_realized_same.
    split; [reflexivity|]. split; [reflexivity|].
    intros _ ->. unfold deref in *. congruence.
Qed.

Lemma processTransaction_heap_length (method : string) (e : Engine) (r : Ref) :
  List.length (heap (processTransaction method e r)) = List.length (heap e).
Proof.
  unfold processTransaction. destruct (deref (heap e) r) as [tx|]; [|reflexivity].
  destruct (Transaction.type tx); try reflexivity;
    rewrite heap_removePosition; apply length_update_nth.
Qed.

Lemma replay_heap (method : string) (txs : list Ref) :
  forall (e : Engine) (r : Ref) (tx : Transaction.t),
  deref (heap e) r = Some tx ->
  exists v,
    deref (heap (fold_left (processTransaction method) txs e)) r =
      Some (Transaction.with_realized tx v) /\
    (is_acquisition (Transaction.type tx) = true \/ ~ In r txs ->
     v = Transaction.realized_pnl_usd tx) /\
    (is_disposal (Transaction.type tx) = true -> In r txs -> exists x, v = Some x).
Proof.
  induction txs as [|r0 txs IH]; intros e r tx D; simpl.
  - exists (Transaction.realized_pnl_usd tx). rewrite with_realized_same.
    split; [exact D|]. split; [reflexivity|]. intros _ [].
  - destruct (processTransaction_heap method e r0 r D) as (v & D1 & A1 & B1).
    destruct (IH _ _ _ D1) as (v' & D2 & A2 & B2).
    exists v'. split; [exact D2|]. simpl in A2, B2. split.
    + intro H. rewrite A2 by tauto. apply A1.
      destruct H as [H|H]; [left; exact H|right].
      intro E. apply H. left. symmetry. exact E.
    + intros Hd Hin. destruct (in_dec Nat.eq_dec r txs) as [I|I].
      * apply B2; assumption.
      * rewrite A2 by tauto. apply B1; [exact Hd|].
        destruct Hin as [E|E]; [symmetry; exact E|contradiction].
Qed.

Lemma replay_heap_length (method : string) (txs : list Ref) :
  forall e, List.length (heap (fold_left (processTransaction method) txs e)) =
            List.length (heap e).
Proof.
  induction txs as [|r txs IH]; intro e; simpl; [reflexivity|].
  rewrite IH. apply processTransaction_heap_length.
Qed.

(** C9, as the code has it.  [calculate] writes into the caller's objects:
    after the call the store has the same objects, every field other than
    [realized_pnl_usd] is what it was, the acquisitions and the objects that
    are not in the array are what they were, and each disposal (sell or
    transfer_out) in the array has a number in [realized_pnl_usd].  The
    price map is only read: the engine calls nothing but [get] on it. *)
Theorem C9_store_after_calculate
    (method : string) (now : Z) (h : TxHeap) (transactions : list Ref)
    (prices : JsMap.t number) :
  let h' := snd (calculate method now h transactions prices) in
  List.length h' = List.length h /\
  forall r tx, deref h r = Some tx ->
    exists v,
      deref h' r = Some (Transaction.with_realized tx v) /\
      (is_acquisition (Transaction.type tx) = true \/ ~ In r transactions ->
       v = Transaction.realized_pnl_usd tx) /\
      (is_disposal (Transaction.type tx) = true -> In r transactions ->
       exists x, v = Some x).
Proof.
  intro h'. unfold h', calculate, replay. cbn [snd]. split.
  - rewrite replay_heap_length. reflexivity.
  - intros r tx D.
    destruct (@replay_heap method (sort (by_tx_timestamp h) transactions)
                (mkEngine JsMap.empty JsMap.empty h) r tx D) as (v & D' & A & B).
    exists v. split; [exact D'|]. split.
    + intros [H|H]; apply A; [left; exact H|right].
      intro I. apply H. eapply Permutation_in; [apply sort_is_permutation|exact I].
    + intros Hd I. apply B; [exact Hd|].
      eapply Permutation_in; [apply Permutation_sym, sort_is_permutation|exact I].
Qed.

(** C9 as stated fails: the sell handed to [calculate] with no
    [realized_pnl_usd] has [realized_pnl_usd = 2] after the call. *)
Lemma C9_calculate_writes_realized_pnl :
  let h := [eth_tx buy 1 1 10; eth_tx sell 2 1 12] in
  let h' := snd (calculate "fifo" 0 h (all_refs h) []) in
  option_map Transaction.realized_pnl_usd (deref h 1%nat) = Some None /\
  option_map Transaction.realized_pnl_usd (deref h' 1%nat) = Some (Some (Fin (qc 2))) /\
  h' <> h.
Proof.
  cbv zeta. split; [reflexivity|]. split.
  - vm_compute. apply f_equal, f_equal. number_eq.
  - intro E. apply (f_equal (fun x => option_map Transaction.realized_pnl_usd (deref x 1%nat))) in E.
    vm_compute in E. discriminate.
Qed.

Lemma C9_store_after_calculate_witness :
  let h := [eth_tx buy 1 1 10; eth_tx sell 2 1 12] in
  let h' := snd (calculate "fifo" 0 h (all_refs h) []) in
  exists v,
    deref h' 1%nat = Some (Transaction.with_realized (eth_tx sell 2 1 12) v) /\
    (is_acquisition sell = true \/ ~ In 1%nat (all_refs h) -> v = None) /\
    (is_disposal sell = true -> In 1%nat (all_refs h) -> exists x, v = Some x).
Proof.
  apply (proj2 (@C9_store_after_calculate "fifo" 0%Z
                  [eth_tx buy 1 1 10; eth_tx sell 2 1 12]
                  (all_refs [eth_tx buy 1 1 10; eth_tx sell 2 1 12]) [])
           1%nat (eth_tx sell 2 1 12)).
  reflexivity.
Defined.

(** ** Sorting sorts, and leaves a sorted array as it is *)

Section SortSorts.
Variable A : Type.
Variable key : A -> Z.

Let cmp (a b : A) : Z := (key a - key b)%Z.
Let le (a b : A) : Prop := (key a <= key b)%Z.

Lemma insert_sorted_In (x y : A) (l : list A) :
  In y (insert_sorted cmp x l) -> y = x \/ In y l.
Proof.
  intro H. apply (Permutation_in _ (insert_sorted_permutation cmp x l)) in H.
  destruct H as [H|H]; [left; symmetry; exact H|right; exact H].
Qed.

Lemma insert_sorted_sorted (x : A) (l : list A) :
  StronglySorted le l -> StronglySorted le (insert_sorted cmp x l).
Proof.
  induction 1 as [|y l S IH F]; simpl.
  - constructor; constructor.
  - unfold cmp at 1. destruct (Z.leb_spec (key x - key y) 0).
    + constructor; [constructor; assumption|].
      constructor; [unfold le; lia|].
      revert F. apply Forall_impl. unfold le. intros; lia.
    + constructor; [exact IH|].
      apply Forall_forall. intros z Hz. apply insert_sorted_In in Hz.
      destruct Hz as [->|Hz]; [unfold le; lia|].
      rewrite Forall_forall in F. apply F. exact Hz.
Qed.

Lemma sort_sorted (l : list A) : StronglySorted le (sort cmp l).
Proof.
  induction l as [|x l IH]; simpl; [constructor|].
  apply insert_sorted_sorted. exact IH.
Qed.

Lemma sort_of_sorted (l : list A) : StronglySorted le l -> sort cmp l = l.
Proof.
  induction 1 as [|x l S IH F]; simpl; [reflexivity|].
  rewrite IH. destruct l as [|y l]; [reflexivity|]. simpl.
  inversion F; subst. unfold cmp, le in *.
  destruct (Z.leb_spec (key x - key y) 0); [reflexivity|lia].
Qed.

End SortSorts.

(** ** An unrecognized method *)

Lemma slots_sorted (ps : list Position.t) :
  StronglySorted Z.le (map Position.timestamp ps) ->
  StronglySorted
    (fun a b => (Position.timestamp (snd a) <= Position.timestamp (snd b))%Z)
    (slots ps).
Proof.
  unfold slots. generalize 0%nat.
  induction ps as [|p ps IH]; intros n S; simpl; [constructor|].
  inversion S as [|? ? S' F]; subst. constructor; [apply IH; exact S'|].
  apply Forall_forall. intros [i q] H. apply in_combine_r in H. simpl.
  rewrite Forall_forall in F. apply F. apply in_map. exact H.
Qed.

(** On lots in ascending order of timestamp, fifo selects in the order of
    the array, as the [default] branch does. *)
Lemma orderPositions_fifo_in_order (method : string) (ps : list Position.t) :
  documented method = false ->
  StronglySorted Z.le (map Position.timestamp ps) ->
  orderPositions "fifo" ps = orderPositions method ps.
Proof.
  intros Hm S. unfold documented in Hm.
  apply orb_false_elim in Hm. destruct Hm as [H1 Hm].
  apply orb_false_elim in Hm. destruct Hm as [H2 H3].
  unfold orderPositions. rewrite H1, H2, H3. simpl String.eqb. cbv iota.
  f_equal.
  exact (@sort_of_sorted _ (fun s : nat * Position.t => Position.timestamp (snd s))
           _ (@slots_sorted ps S)).
Qed.

Lemma update_nth_timestamps (q : number) :
  forall (ps : list Position.t) (i : nat) (p : Position.t),
  nth_error ps i = Some p ->
  map Position.timestamp (update_nth i (Position.with_quantity p q) ps) =
  map Position.timestamp ps.
Proof.
  induction ps as [|p0 ps IH]; intros [|i] p N; simpl in *; try discriminate.
  - inversion N; subst. reflexivity.
  - f_equal. apply IH. exact N.
Qed.

Lemma sellLoop_timestamps (ordered : list PosRef) :
  forall (ps : list Position.t) (remaining cost : number),
  map Position.timestamp (fst (fst (sellLoop ordered ps remaining cost))) =
  map Position.timestamp ps.
Proof.
  induction ordered as [|r rest IH]; intros ps remaining cost; simpl; [reflexivity|].
  destruct (ngtb remaining zero); [|reflexivity].
  destruct (resolve ps r) as [position|] eqn:R; [|apply IH].
  rewrite IH. destruct r as [i|c]; simpl in *; [|reflexivity].
  rewrite R. apply update_nth_timestamps. exact R.
Qed.

Lemma filter_sorted_timestamps (f : Position.t -> bool) (bound : Z)
    (ps : list Position.t) :
  StronglySorted Z.le (map Position.timestamp ps) /\
  Forall (fun t => (t <= bound)%Z) (map Position.timestamp ps) ->
  StronglySorted Z.le (map Position.timestamp (filter f ps)) /\
  Forall (fun t => (t <= bound)%Z) (map Position.timestamp (filter f ps)).
Proof.
  induction ps as [|p ps IH]; simpl; intros [S F]; [split; constructor|].
  inversion S as [|? ? S' Fs]; inversion F as [|? ? Hb F']; subst.
  destruct (IH (conj S' F')) as [S1 F1].
  destruct (f p); simpl; [|split; assumption].
  split; constructor; try assumption.
  apply Forall_forall. intros t Ht. apply in_map_iff in Ht.
  destruct Ht as (q & <- & Hq). apply filter_In in Hq.
  rewrite Forall_forall in Fs. apply Fs. apply in_map. tauto.
Qed.

Lemma processTransaction_default_is_fifo (method : string) (e : Engine) (r : Ref) :
  documented method = false ->
  (forall key, StronglySorted Z.le (map Position.timestamp (positions_of key e))) ->
  processTransaction method e r = processTransaction "fifo" e r.
Proof.
  intros Hm S. unfold processTransaction.
  destruct (deref (heap e) r) as [tx|]; [|reflexivity].
  destruct (Transaction.type tx); try reflexivity;
    unfold removePosition;
    rewrite (@orderPositions_fifo_in_order method _ Hm (S _)); reflexivity.
Qed.

Lemma lots_in_order_later (bound bound' : Z) (e : Engine) :
  (bound <= bound')%Z -> lots_in_order bound e -> lots_in_order bound' e.
Proof.
  intros L H key. destruct (H key) as [S F]. split; [exact S|].
  revert F. apply Forall_impl. intros; lia.
Qed.

Lemma sorted_snoc (l : list Z) (t : Z) :
  StronglySorted Z.le l -> Forall (fun x => (x <= t)%Z) l ->
  StronglySorted Z.le (l ++ [t]).
Proof.
  induction 1 as [|x l S IH F]; intro B; simpl.
  - constructor; constructor.
  - inversion B; subst. constructor; [apply IH; assumption|].
    apply Forall_app. split; [exact F|]. constructor; [assumption|constructor].
Qed.

Lemma processTransaction_keeps_order (method : string) (e : Engine) (r : Ref)
    (bound : Z) :
  lots_in_order bound e -> (bound <= timestamp_at (heap e) r)%Z ->
  lots_in_order (timestamp_at (heap e) r) (processTransaction method e r).
Proof.
  intros H L. pose proof (@lots_in_order_later _ _ e L H) as H'.
  unfold processTransaction, timestamp_at in *.
  destruct (deref (heap e) r) as [tx|]; [|exact H'].
  fold (key_of tx).
  destruct (is_acquisition (Transaction.type tx)) eqn:T.
  - replace (match Transaction.type tx with
             | buy | transfer_in => addPosition (key_of tx) tx e
             | sell | transfer_out => removePosition method (key_of tx) r tx e
             end) with (addPosition (key_of tx) tx e)
      by (destruct (Transaction.type tx); try discriminate; reflexivity).
    intro key. destruct (String.eqb_spec (key_of tx) key) as [<-|N].
    + rewrite positions_of_addPosition, map_app. simpl.
      destruct (H (key_of tx)) as [S F]. destruct (H' (key_of tx)) as [_ F'].
      split.
      * apply sorted_snoc; assumption.
      * apply Forall_app. split; [exact F'|]. constructor; [lia|constructor].
    + rewrite positions_of_addPosition_ne by exact N. apply H'.
  - replace (match Transaction.type tx with
             | buy | transfer_in => addPosition (key_of tx) tx e
             | sell | transfer_out => removePosition method (key_of tx) r tx e
             end) with (removePosition method (key_of tx) r tx e)
      by (destruct (Transaction.type tx); try discriminate; reflexivity).
    intro key. destruct (String.eqb_spec (key_of tx) key) as [<-|N].
    + rewrite positions_of_removePosition. unfold open_lots.
      apply filter_sorted_timestamps. rewrite sellLoop_timestamps. apply H'.
    + rewrite positions_of_removePosition_ne by exact N. apply H'.
Qed.

Lemma processTransaction_same_objects (method : string) (h : TxHeap) (e : Engine)
    (r : Ref) :
  same_objects h (heap e) -> same_objects h (heap (processTransaction method e r)).
Proof.
  intros H r'. rewrite <- (H r'). unfold timestamp_at.
  destruct (deref (heap e) r') as [tx|] eqn:D.
  - destruct (processTransaction_heap method e r r' D) as (v & -> & _). reflexivity.
  - unfold deref in *. apply nth_error_None in D.
    rewrite <- (processTransaction_heap_length method e r) in D.
    apply nth_error_None in D. rewrite D. reflexivity.
Qed.

(** The replay under an unrecognized method is the replay under fifo: the
    lots of a key are pushed in ascending order of timestamp. *)
Lemma replay_default_is_fifo (method : string) (h : TxHeap) :
  documented method = false ->
  forall (txs : list Ref) (e : Engine) (bound : Z),
  StronglySorted (fun a b => (timestamp_at h a <= timestamp_at h b)%Z) txs ->
  Forall (fun r => (bound <= timestamp_at h r)%Z) txs ->
  same_objects h (heap e) ->
  lots_in_order bound e ->
  fold_left (processTransaction method) txs e =
  fold_left (processTransaction "fifo") txs e.
Proof.
  intro Hm. induction txs as [|r txs IH]; intros e bound S B Ho Hl; simpl.
  - reflexivity.
  - inversion S as [|? ? S' F]; inversion B as [|? ? Br B']; subst.
    rewrite <- (@processTransaction_default_is_fifo method e r Hm (fun key => proj1 (Hl key))).
    apply IH with (bound := timestamp_at h r).
    + exact S'.
    + exact F.
    + apply processTransaction_same_objects. exact Ho.
    + rewrite <- (Ho r). apply processTransaction_keeps_order with (bound := bound).
      * exact Hl.
      * rewrite (Ho r). exact Br.
Qed.

Lemma calculate_default_is_fifo (method : string) (now : Z) (h : TxHeap)
    (transactions : list Ref) (prices : JsMap.t number) :
  documented method = false ->
  calculate method now h transactions prices =
  calculate "fifo" now h transactions prices.
Proof.
  intro Hm. unfold calculate, replay.
  set (sorted := sort (by_tx_timestamp h) transactions).
  assert (S : StronglySorted (fun a b => (timestamp_at h a <= timestamp_at h b)%Z) sorted).
  { exact (@sort_sorted _ (timestamp_at h) transactions). }
  destruct sorted as [|r0 rest] eqn:E; [reflexivity|]. rewrite <- E in *.
  assert (B : Forall (fun r => (timestamp_at h r0 <= timestamp_at h r)%Z) sorted).
  { rewrite E in *. inversion S; subst. constructor; [lia|assumption]. }
  rewrite (@replay_default_is_fifo method h Hm sorted
             (mkEngine JsMap.empty JsMap.empty h) (timestamp_at h r0) S B).
  - reflexivity.
  - intro r. reflexivity.
  - intro key. split; constructor.
Qed.

(** C8, as the code has it.  A method selector that is not fifo, lifo or avg
    is not rejected: [orderPositions] takes its [default] branch and returns
    the lots in the order of the array, no error is raised, and [calculate]
    returns the numbers that it returns under fifo. *)
Theorem C8_unrecognized_method_is_fifo
    (method : string) (now : Z) (h : TxHeap) (transactions : list Ref)
    (prices : JsMap.t number) :
  documented method = false ->
  (forall ps, orderPositions method ps = map Shared (seq 0 (List.length ps))) /\
  invoke method now h transactions prices =
    Returned (calculate "fifo" now h transactions prices).
Proof.
  intro Hm. split.
  - intro ps. pose proof Hm as Hm'. unfold documented in Hm'.
    apply orb_false_elim in Hm'. destruct Hm' as [H1 Hm'].
    apply orb_false_elim in Hm'. destruct Hm' as [H2 H3].
    unfold orderPositions. rewrite H1, H2, H3.
    rewrite <- slots_fst, map_map. reflexivity.
  - unfold invoke. rewrite (@calculate_default_is_fifo method now h transactions prices Hm).
    reflexivity.
Qed.

Lemma C8_unrecognized_method_is_fifo_witness :
  let h := [eth_tx buy 1 2 1800; eth_tx buy 2 1 2000; eth_tx sell 3 1 2200] in
  (forall ps, orderPositions "hifo" ps = map Shared (seq 0 (List.length ps))) /\
  invoke "hifo" 0 h (all_refs h) [] = Returned (calculate "fifo" 0 h (all_refs h) []).
Proof.
  apply (@C8_unrecognized_method_is_fifo "hifo" 0%Z
           [eth_tx buy 1 2 1800; eth_tx buy 2 1 2000; eth_tx sell 3 1 2200]
           (all_refs [eth_tx buy 1 2 1800; eth_tx buy 2 1 2000; eth_tx sell 3 1 2200])
           []).
  reflexivity.
Defined.

(** C8 as stated fails: "hifo" is none of the three methods, and the call
    returns a result, with a realized P&L of 400 on the canonical scenario,
    instead of raising an error. *)
Lemma C8_unrecognized_method_not_rejected :
  let h := [eth_tx buy 1 2 1800; eth_tx buy 2 1 2000; eth_tx sell 3 1 2200] in
  documented "hifo" = false /\
  (forall message, invoke "hifo" 0 h (all_refs h) [] <> Thrown message) /\
  exists result,
    invoke "hifo" 0 h (all_refs h) [] = Returned result /\
    PnLSummary.total_realized_pnl_usd (PnLResult.summary (fst result)) = Fin (qc 400).
Proof.
  cbv zeta. split; [reflexivity|]. split.
  - intros message E. discriminate.
  - eexists. split; [reflexivity|]. number_eq.
Qed.

(** ** Sorting an array with one more element *)

Section SortExtensional.
Variables A B : Type.
Variables (cmp cmp' : A -> A -> Z) (cmpB : B -> B -> Z) (f : A -> B).

Lemma insert_sorted_ext (x : A) (l : list A) :
  (forall b, In b l -> cmp x b = cmp' x b) ->
  insert_sorted cmp x l = insert_sorted cmp' x l.
Proof.
  induction l as [|y l IH]; intro H; simpl; [reflexivity|].
  rewrite (H y) by (left; reflexivity).
  destruct (cmp' x y <=? 0)%Z; [reflexivity|].
  f_equal. apply IH. intros b Hb. apply H. right. exact Hb.
Qed.

Lemma sort_ext (l : list A) :
  (forall a b, In a l -> In b l -> cmp a b = cmp' a b) ->
  sort cmp l = sort cmp' l.
Proof.
  induction l as [|x l IH]; intro H; simpl; [reflexivity|].
  rewrite IH by (intros a b Ha Hb; apply H; right; assumption).
  apply insert_sorted_ext. intros b Hb. apply H; [left; reflexivity|right].
  eapply Permutation_in; [apply sort_is_permutation|exact Hb].
Qed.

Lemma insert_sorted_map (x : A) (l : list A) :
  (forall a b, cmpB (f a) (f b) = cmp a b) ->
  insert_sorted cmpB (f x) (map f l) = map f (insert_sorted cmp x l).
Proof.
  intro H. induction l as [|y l IH]; simpl; [reflexivity|].
  rewrite H. destruct (cmp x y <=? 0)%Z; simpl; [reflexivity|].
  f_equal. exact IH.
Qed.

Lemma sort_map (l : list A) :
  (forall a b, cmpB (f a) (f b) = cmp a b) ->
  sort cmpB (map f l) = map f (sort cmp l).
Proof.
  intro H. induction l as [|x l IH]; simpl; [reflexivity|].
  rewrite IH. apply insert_sorted_map. exact H.
Qed.

Lemma insert_sorted_split (x : A) (l : list A) :
  exists a b, l = a ++ b /\ insert_sorted cmp x l = a ++ x :: b.
Proof.
  induction l as [|y l IH]; simpl.
  - exists [], []. split; reflexivity.
  - destruct (cmp x y <=? 0)%Z.
    + exists [], (y :: l). split; reflexivity.
    + destruct IH as (a & b & -> & ->). exists (y :: a), b. split; reflexivity.
Qed.

End SortExtensional.

Section SortOneMore.
Variable A : Type.
Variable key : A -> Z.

Let cmp (a b : A) : Z := (key a - key b)%Z.
Let le (a b : A) : Prop := (key a <= key b)%Z.

(** Inserting [y] goes the same way with and without [x] in the array. *)
Lemma insert_sorted_around (x y : A) (a : list A) : forall b,
  StronglySorted le (a ++ x :: b) ->
  exists a' b',
    insert_sorted cmp y (a ++ b) = a' ++ b' /\
    insert_sorted cmp y (a ++ x :: b) = a' ++ x :: b'.
Proof.
  induction a as [|a1 a IH]; intros b S; simpl.
  - unfold cmp at 2. destruct (Z.leb_spec (key y - key x) 0) as [L|L].
    + exists [y], b. split; [|reflexivity].
      destruct b as [|b1 b]; [reflexivity|]. simpl.
      inversion S as [|? ? _ F]; subst. inversion F; subst. unfold cmp, le in *.
      destruct (Z.leb_spec (key y - key b1) 0); [reflexivity|lia].
    + exists [], (insert_sorted cmp y b). split; reflexivity.
  - destruct (cmp y a1 <=? 0)%Z.
    + exists (y :: a1 :: a), b. split; reflexivity.
    + inversion S as [|? ? S' _]; subst.
      destruct (IH b S') as (a' & b' & E1 & E2).
      exists (a1 :: a'), b'. rewrite E1, E2. split; reflexivity.
Qed.

(** The sorted array with one more element is the sorted array with that
    element somewhere in it. *)
Lemma sort_one_more (x : A) (l1 l2 : list A) :
  exists s1 s2,
    sort cmp (l1 ++ l2) = s1 ++ s2 /\ sort cmp (l1 ++ x :: l2) = s1 ++ x :: s2.
Proof.
  induction l1 as [|y l1 IH]; simpl.
  - destruct (insert_sorted_split cmp x (sort cmp l2)) as (a & b & E1 & E2).
    exists a, b. split; assumption.
  - destruct IH as (s1 & s2 & E1 & E2). rewrite E1, E2.
    apply insert_sorted_around. rewrite <- E2. apply sort_sorted.
Qed.

End SortOneMore.

(** ** A lot of quantity 0 among the lots of a key *)

Lemma nth_error_insert_at {A : Type} (x : A) : forall (j : nat) (l : list A),
  (j <= List.length l)%nat -> nth_error (insert_at j x l) j = Some x.
Proof.
  induction j as [|j IH]; intros [|y l] L; simpl in *; try reflexivity; try lia.
  apply IH. lia.
Qed.

Lemma nth_error_insert_at_shift {A : Type} (x : A) : forall (j i : nat) (l : list A),
  (j <= List.length l)%nat ->
  nth_error (insert_at j x l) (shift j i) = nth_error l i.
Proof.
  unfold shift. induction j as [|j IH]; intros i l L.
  - reflexivity.
  - destruct l as [|y l]; simpl in L; [lia|].
    destruct i as [|i]; [reflexivity|].
    specialize (IH i l). simpl.
    change (S i <? S j)%nat with (i <? j)%nat.
    destruct (i <? j)%nat; simpl; apply IH; lia.
Qed.

Lemma update_nth_insert_at_shift {A : Type} (x y : A) :
  forall (j i : nat) (l : list A),
  (j <= List.length l)%nat ->
  update_nth (shift j i) y (insert_at j x l) = insert_at j x (update_nth i y l).
Proof.
  unfold shift. induction j as [|j IH]; intros i l L.
  - reflexivity.
  - destruct l as [|z l]; simpl in L; [lia|].
    destruct i as [|i]; [reflexivity|].
    specialize (IH i l). simpl.
    change (S i <? S j)%nat with (i <? j)%nat.
    destruct (i <? j)%nat; simpl; f_equal; apply IH; lia.
Qed.

Lemma update_nth_same {A : Type} (x : A) : forall (l : list A) (i : nat),
  nth_error l i = Some x -> update_nth i x l = l.
Proof.
  induction l as [|y l IH]; intros [|i] N; simpl in *; try discriminate.
  - inversion N; subst. reflexivity.
  - f_equal. apply IH. exact N.
Qed.

Lemma insert_at_length {A : Type} (x : A) (l : list A) :
  insert_at (List.length l) x l = l ++ [x].
Proof. induction l as [|y l IH]; simpl; [reflexivity|]. f_equal. exact IH. Qed.

Lemma insert_at_snoc {A : Type} (x y : A) : forall (j : nat) (l : list A),
  (j <= List.length l)%nat -> insert_at j x l ++ [y] = insert_at j x (l ++ [y]).
Proof.
  induction j as [|j IH]; intros [|z l] L; simpl in *; try reflexivity; try lia.
  f_equal. apply IH. lia.
Qed.

Lemma sellLoop_stopped (ordered : list PosRef) (ps : list Position.t)
    (remaining cost : number) :
  ngtb remaining zero = false ->
  sellLoop ordered ps remaining cost = (ps, remaining, cost).
Proof. intro G. destruct ordered; simpl; [reflexivity|]. rewrite G. reflexivity. Qed.

Lemma sellLoop_length (ordered : list PosRef) :
  forall (ps : list Position.t) (remaining cost : number),
  List.length (fst (fst (sellLoop ordered ps remaining cost))) = List.length ps.
Proof.
  intros ps remaining cost.
  rewrite <- (length_map Position.timestamp), sellLoop_timestamps.
  apply length_map.
Qed.

(** A lot put in at a slot that the loop does not visit stays where it is,
    and changes nothing for the others. *)
Lemma sellLoop_insert_slot (z : Position.t) (j : nat) (order : list nat) :
  forall (ps : list Position.t) (remaining cost : number),
  (j <= List.length ps)%nat ->
  sellLoop (map Shared (map (shift j) order)) (insert_at j z ps) remaining cost =
  (insert_at j z (fst (fst (sellLoop (map Shared order) ps remaining cost))),
   snd (fst (sellLoop (map Shared order) ps remaining cost)),
   snd (sellLoop (map Shared order) ps remaining cost)).
Proof.
  induction order as [|i order IH]; intros ps remaining cost L; simpl.
  - reflexivity.
  - destruct (ngtb remaining zero); [|reflexivity].
    rewrite (@nth_error_insert_at_shift _ z j i ps L).
    destruct (nth_error ps i) as [position|] eqn:N; [|apply IH; exact L].
    rewrite update_nth_insert_at_shift by exact L.
    apply IH. rewrite length_update_nth. exact L.
Qed.

Lemma take_from_empty_lot (remaining : number) :
  ngtb remaining zero = true -> nmin zero remaining = zero.
Proof.
  intro G. destruct (ngtb_zero_cases _ G) as [(r & -> & L)| ->]; [|reflexivity].
  unfold nmin, nltb, zero.
  replace (Qcltb r (qc 0)) with false; [reflexivity|].
  symmetry. apply Qcltb_false. apply Qclt_le_weak. exact L.
Qed.

Lemma with_quantity_same (p : Position.t) :
  Position.with_quantity p (Position.quantity p) = p.
Proof. destruct p. reflexivity. Qed.

(** Visiting a lot of quantity 0 changes nothing. *)
Lemma sellLoop_visit_empty_lot (z : Position.t) (j : nat) (before after : list nat) :
  empty_lot z -> ~ In j before ->
  forall (ps : list Position.t) (remaining cost : number),
  nth_error ps j = Some z ->
  sellLoop (map Shared (before ++ j :: after)) ps remaining cost =
  sellLoop (map Shared (before ++ after)) ps remaining cost.
Proof.
  intros [Zq Zp] NI. induction before as [|i before IH]; intros ps remaining cost N.
  - simpl app. cbn [map sellLoop resolve]. rewrite N.
    destruct (ngtb remaining zero) eqn:G.
    + rewrite Zq, (take_from_empty_lot _ G), !nsub_0_r.
      destruct (Position.price_usd z) as [c| | |] eqn:Ec; try discriminate.
      rewrite nmul_0_l, nadd_0_r.
      unfold assign_quantity. rewrite N, <- Zq, with_quantity_same.
      rewrite (@update_nth_same _ z ps j N). reflexivity.
    + symmetry. apply sellLoop_stopped. exact G.
  - simpl app. cbn [map sellLoop].
    destruct (ngtb remaining zero); [|reflexivity].
    assert (Nij : i <> j) by (intro E; apply NI; left; exact E).
    assert (NI' : ~ In j before) by (intro H; apply NI; right; exact H).
    destruct (resolve ps (Shared i)) as [position|] eqn:R.
    + apply (IH NI'). simpl in R. unfold assign_quantity. rewrite R.
      rewrite nth_error_update_nth_ne by exact Nij. exact N.
    + apply (IH NI'). exact N.
Qed.

Lemma shift_slots_from (t : nat) : forall (ps : list Position.t) (n : nat),
  (t <= n)%nat -> map (shift_slot t) (slots_from n ps) = slots_from (S n) ps.
Proof.
  induction ps as [|p ps IH]; intros n L; [reflexivity|].
  unfold slots_from in *. simpl. f_equal.
  - unfold shift_slot, shift. simpl.
    destruct (Nat.ltb_spec n t); [lia|reflexivity].
  - apply IH. lia.
Qed.

Lemma slots_from_insert_at (z : Position.t) :
  forall (j n : nat) (ps : list Position.t),
  (j <= List.length ps)%nat ->
  exists l1 l2,
    slots_from n ps = l1 ++ l2 /\
    slots_from n (insert_at j z ps) =
      map (shift_slot (n + j)) l1 ++ (n + j, z)%nat :: map (shift_slot (n + j)) l2.
Proof.
  induction j as [|j IH]; intros n ps L.
  - exists [], (slots_from n ps). split; [reflexivity|].
    rewrite Nat.add_0_r. simpl. rewrite shift_slots_from by lia. reflexivity.
  - destruct ps as [|p ps]; simpl in L; [lia|].
    destruct (IH (S n) ps) as (l1 & l2 & E1 & E2); [lia|].
    exists ((n, p) :: l1), l2. split.
    + unfold slots_from in *. simpl. f_equal. exact E1.
    + replace (n + S j)%nat with (S n + j)%nat by lia.
      unfold slots_from in *. simpl insert_at. simpl List.length. simpl seq.
      simpl combine. rewrite E2. simpl. f_equal.
      unfold shift_slot, shift. simpl.
      destruct (Nat.ltb_spec n (S (n + j))); [reflexivity|lia].
Qed.

(** The order of selection with one more lot: the order without it, with
    the slots renumbered and the slot of the new lot somewhere in it. *)
Lemma sorted_slots_insert_at (k : Position.t -> Z) (z : Position.t) (j : nat)
    (ps : list Position.t) :
  (j <= List.length ps)%nat ->
  exists before after,
    map fst (sort (by_lot_key k) (slots (insert_at j z ps))) = before ++ j :: after /\
    map (shift j) (map fst (sort (by_lot_key k) (slots ps))) = before ++ after /\
    ~ In j before.
Proof.
  intro L.
  destruct (@slots_from_insert_at z j 0%nat ps L) as (l1 & l2 & E1 & E2).
  change (slots_from 0 ps) with (slots ps) in E1.
  change (slots_from 0 (insert_at j z ps)) with (slots (insert_at j z ps)) in E2.
  simpl in E2.
  destruct (@sort_one_more _ (fun s : nat * Position.t => k (snd s)) (j, z)
              (map (shift_slot j) l1) (map (shift_slot j) l2))
    as (s1 & s2 & S1 & S2).
  change (fun a b : nat * Position.t => (k (snd a) - k (snd b))%Z)
    with (by_lot_key k) in S1, S2.
  exists (map fst s1), (map fst s2).
  assert (Eb : map fst (sort (by_lot_key k) (slots (insert_at j z ps))) =
               map fst s1 ++ j :: map fst s2).
  { rewrite E2, S2, map_app. reflexivity. }
  split; [exact Eb|]. split.
  - rewrite <- map_app, <- S1, <- map_app, <- E1.
    rewrite (@sort_map _ _ (by_lot_key k) (by_lot_key k) (shift_slot j))
      by reflexivity.
    rewrite !map_map. reflexivity.
  - assert (ND : NoDup (map fst (sort (by_lot_key k) (slots (insert_at j z ps))))).
    { apply Permutation_NoDup with (l := seq 0 (List.length (insert_at j z ps))).
      - rewrite <- slots_fst. apply Permutation_map. apply Permutation_sym.
        apply sort_is_permutation.
      - apply seq_NoDup. }
    rewrite Eb in ND. apply NoDup_remove_2 in ND.
    intro H. apply ND. apply in_or_app. left. exact H.
Qed.

Lemma fold_left_insert_at {A B : Type} (f : B -> A -> B) (z : A) :
  (forall acc, f acc z = acc) ->
  forall (j : nat) (l : list A) (acc : B),
  fold_left f (insert_at j z l) acc = fold_left f l acc.
Proof.
  intro H. induction j as [|j IH]; intros [|y l] acc; simpl;
    try rewrite H; try reflexivity.
  apply IH.
Qed.

Lemma totalQuantity_insert_at (z : Position.t) (j : nat) (ps : list Position.t) :
  empty_lot z -> totalQuantity (insert_at j z ps) = totalQuantity ps.
Proof.
  intros [Zq _]. unfold totalQuantity, reduce_sum. apply fold_left_insert_at.
  intro acc. rewrite Zq. apply nadd_0_r.
Qed.

Lemma totalValue_insert_at (z : Position.t) (j : nat) (ps : list Position.t) :
  empty_lot z -> totalValue (insert_at j z ps) = totalValue ps.
Proof.
  intros [Zq Zp]. unfold totalValue, reduce_sum. apply fold_left_insert_at.
  intro acc. rewrite Zq.
  destruct (Position.price_usd z); try discriminate.
  rewrite nmul_0_l. apply nadd_0_r.
Qed.

Lemma open_lots_insert_at (z : Position.t) :
  empty_lot z ->
  forall (j : nat) (ps : list Position.t),
  open_lots (insert_at j z ps) = open_lots ps.
Proof.
  intros [Zq _]. induction j as [|j IH]; intros [|p ps]; simpl;
    try (rewrite Zq; reflexivity).
  rewrite IH. reflexivity.
Qed.

Lemma orderPositions_fifo_by_key (ps : list Position.t) :
  orderPositions "fifo" ps =
  map Shared (map fst (sort (by_lot_key Position.timestamp) (slots ps))).
Proof. unfold orderPositions. simpl. rewrite map_map. reflexivity. Qed.

Lemma orderPositions_lifo_by_key (ps : list Position.t) :
  orderPositions "lifo" ps =
  map Shared
    (map fst (sort (by_lot_key (fun p => (- Position.timestamp p)%Z)) (slots ps))).
Proof.
  unfold orderPositions. simpl. rewrite map_map. f_equal.
  apply sort_ext. intros a b _ _. unfold by_timestamp_desc, by_lot_key. lia.
Qed.

(** Under fifo and lifo a lot of quantity 0 among the lots of the key
    changes nothing in a disposal: the same quantity remains to be served,
    the same cost is charged, and the other lots end up the same. *)
Lemma sellLoop_extra_lot (method : string) (z : Position.t) (j : nat)
    (ps : list Position.t) (remaining cost : number) :
  method = "fifo"%string \/ method = "lifo"%string ->
  empty_lot z -> (j <= List.length ps)%nat ->
  sellLoop (orderPositions method (insert_at j z ps)) (insert_at j z ps)
    remaining cost =
  (insert_at j z (fst (fst (sellLoop (orderPositions method ps) ps remaining cost))),
   snd (fst (sellLoop (orderPositions method ps) ps remaining cost)),
   snd (sellLoop (orderPositions method ps) ps remaining cost)).
Proof.
  intros Hm Hz L.
  assert (Generic : forall k,
    sellLoop (map Shared (map fst (sort (by_lot_key k) (slots (insert_at j z ps)))))
      (insert_at j z ps) remaining cost =
    (insert_at j z
       (fst (fst (sellLoop (map Shared (map fst (sort (by_lot_key k) (slots ps))))
                    ps remaining cost))),
     snd (fst (sellLoop (map Shared (map fst (sort (by_lot_key k) (slots ps))))
                 ps remaining cost)),
     snd (sellLoop (map Shared (map fst (sort (by_lot_key k) (slots ps))))
            ps remaining cost))).
  { intro k.
    destruct (@sorted_slots_insert_at k z j ps L) as (before & after & Eb & Ea & NI).
    rewrite Eb.
    rewrite (@sellLoop_visit_empty_lot z j before after Hz NI)
      by (apply nth_error_insert_at; exact L).
    rewrite <- Ea. apply sellLoop_insert_slot. exact L. }
  destruct Hm as [-> | ->].
  - rewrite !orderPositions_fifo_by_key. apply Generic.
  - rewrite !orderPositions_lifo_by_key. apply Generic.
Qed.

(** ** Two replays that differ by a lot of quantity 0 *)

Lemma removePosition_unfold (method key : string) (r : Ref) (tx : Transaction.t)
    (e : Engine) :
  let X := sellLoop (orderPositions method (positions_of key e)) (positions_of key e)
             (Transaction.quantity tx) zero in
  let realized :=
    (Transaction.quantity tx * Transaction.price_usd tx - snd X)%num in
  removePosition method key r tx e =
  updateTokenPnL key (Transaction.chain tx) (Transaction.token_symbol tx)
    (Transaction.token_address tx) realized
    (mkEngine (JsMap.set key (open_lots (fst (fst X))) (positions e)) (tokenPnL e)
       (update_nth r (Transaction.with_realized tx (Some realized)) (heap e))).
Proof.
  intros X realized. unfold removePosition. fold X.
  unfold realized. destruct X as [[ps' rem] cost]. reflexivity.
Qed.

Lemma positions_of_set (key : string) (ps : list Position.t)
    (m : JsMap.t (list Position.t)) (t : JsMap.t TokenPnL.t) (h : TxHeap) :
  positions_of key (mkEngine (JsMap.set key ps m) t h) = ps.
Proof. unfold positions_of. cbn [positions]. rewrite get_set_eq. reflexivity. Qed.

Lemma tokenPnL_updateTokenPnL_congr (key chain symbol address : string)
    (realized : number) (e e' : Engine) :
  tokenPnL e' = tokenPnL e ->
  totalQuantity (positions_of key e') = totalQuantity (positions_of key e) ->
  totalValue (positions_of key e') = totalValue (positions_of key e) ->
  tokenPnL (updateTokenPnL key chain symbol address realized e') =
  tokenPnL (updateTokenPnL key chain symbol address realized e).
Proof.
  intros Et Eq Ev. unfold updateTokenPnL. cbn [tokenPnL]. rewrite Et, Eq, Ev.
  reflexivity.
Qed.

Lemma with_extra_lot_totals (z : Position.t) (ps ps' : list Position.t) :
  empty_lot z -> with_extra_lot z ps ps' ->
  totalQuantity ps' = totalQuantity ps /\ totalValue ps' = totalValue ps.
Proof.
  intros Hz [->|(j & L & ->)]; [split; reflexivity|].
  split; [apply totalQuantity_insert_at|apply totalValue_insert_at]; exact Hz.
Qed.

Lemma with_extra_lot_snoc (z p : Position.t) (ps ps' : list Position.t) :
  with_extra_lot z ps ps' -> with_extra_lot z (ps ++ [p]) (ps' ++ [p]).
Proof.
  intros [->|(j & L & ->)]; [left; reflexivity|right].
  exists j. split; [rewrite length_app; lia|]. apply insert_at_snoc. exact L.
Qed.

Lemma with_extra_lot_disposal (method : string) (z : Position.t)
    (ps ps' : list Position.t) (remaining cost : number) :
  method = "fifo"%string \/ method = "lifo"%string ->
  empty_lot z -> with_extra_lot z ps ps' ->
  open_lots (fst (fst (sellLoop (orderPositions method ps') ps' remaining cost))) =
  open_lots (fst (fst (sellLoop (orderPositions method ps) ps remaining cost))) /\
  snd (sellLoop (orderPositions method ps') ps' remaining cost) =
  snd (sellLoop (orderPositions method ps) ps remaining cost).
Proof.
  intros Hm Hz [->|(j & L & ->)]; [split; reflexivity|].
  rewrite (@sellLoop_extra_lot method z j ps remaining cost Hm Hz L). cbn [fst snd].
  split; [apply open_lots_insert_at; exact Hz|reflexivity].
Qed.

(** One more transaction processed on both sides. *)
Lemma differ_by_lot_step (method key : string) (z : Position.t) (e e' : Engine)
    (r : Ref) :
  method = "fifo"%string \/ method = "lifo"%string ->
  empty_lot z ->
  differ_by_lot key z e e' ->
  differ_by_lot key z (processTransaction method e r) (processTransaction method e' r).
Proof.
  intros Hm Hz (Et & Eh & Eo & Ez). unfold processTransaction. rewrite Eh.
  destruct (deref (heap e) r) as [tx|]; [|repeat split; assumption].
  fold (key_of tx).
  assert (Same : positions_of (key_of tx) e' = positions_of (key_of tx) e \/
                 (key_of tx = key /\
                  with_extra_lot z (positions_of key e) (positions_of key e'))).
  { destruct (String.eqb_spec (key_of tx) key) as [E|N].
    - right. split; [exact E|exact Ez].
    - left. apply Eo. exact N. }
  assert (Rel : with_extra_lot z (positions_of (key_of tx) e)
                  (positions_of (key_of tx) e')).
  { destruct Same as [E|[E W]]; [left; exact E|rewrite E; exact W]. }
  assert (Hadd : differ_by_lot key z (addPosition (key_of tx) tx e)
                   (addPosition (key_of tx) tx e')).
  { split; [|split; [|split]].
    - unfold addPosition. apply tokenPnL_updateTokenPnL_congr.
      + exact Et.
      + rewrite !positions_of_set.
        apply (with_extra_lot_totals Hz). apply with_extra_lot_snoc. exact Rel.
      + rewrite !positions_of_set.
        apply (with_extra_lot_totals Hz). apply with_extra_lot_snoc. exact Rel.
    - exact Eh.
    - intros k N. destruct (String.eqb_spec (key_of tx) k) as [<-|N'].
      + rewrite !positions_of_addPosition. rewrite (Eo _ N). reflexivity.
      + rewrite !positions_of_addPosition_ne by exact N'. apply Eo. exact N.
    - destruct (String.eqb_spec (key_of tx) key) as [E|N].
      + rewrite <- E in *. rewrite !positions_of_addPosition.
        apply with_extra_lot_snoc. exact Rel.
      + rewrite !positions_of_addPosition_ne by exact N. exact Ez. }
  assert (Hrem : differ_by_lot key z (removePosition method (key_of tx) r tx e)
                   (removePosition method (key_of tx) r tx e')).
  { destruct (@with_extra_lot_disposal method z _ _ (Transaction.quantity tx) zero
                Hm Hz Rel) as [Eopen Ecost].
    split; [|split; [|split]].
    - rewrite !removePosition_unfold. cbv zeta. rewrite Ecost.
      apply tokenPnL_updateTokenPnL_congr.
      + exact Et.
      + rewrite !positions_of_set. rewrite Eopen. reflexivity.
      + rewrite !positions_of_set. rewrite Eopen. reflexivity.
    - rewrite !heap_removePosition. rewrite Ecost, Eh. reflexivity.
    - intros k N. destruct (String.eqb_spec (key_of tx) k) as [<-|N'].
      + rewrite !positions_of_removePosition. exact Eopen.
      + rewrite !positions_of_removePosition_ne by exact N'. apply Eo. exact N.
    - destruct (String.eqb_spec (key_of tx) key) as [E|N].
      + rewrite <- E in *. rewrite !positions_of_removePosition.
        left. exact Eopen.
      + rewrite !positions_of_removePosition_ne by exact N. exact Ez. }
  destruct (Transaction.type tx); assumption.
Qed.

Lemma differ_by_lot_replay (method key : string) (z : Position.t) (txs : list Ref) :
  method = "fifo"%string \/ method = "lifo"%string ->
  empty_lot z ->
  forall e e', differ_by_lot key z e e' ->
  differ_by_lot key z (fold_left (processTransaction method) txs e)
    (fold_left (processTransaction method) txs e').
Proof.
  intros Hm Hz. induction txs as [|r txs IH]; intros e e' H; simpl; [exact H|].
  apply IH. apply differ_by_lot_step; assumption.
Qed.

(** ** Token entries along the replay *)

Lemma tokenPnL_processTransaction (method : string) (e : Engine) (r : Ref)
    (tx : Transaction.t) :
  deref (heap e) r = Some tx ->
  exists entry,
    tokenPnL (processTransaction method e r) =
    JsMap.set (key_of tx) entry (tokenPnL e).
Proof.
  intro D. unfold processTransaction. rewrite D. fold (key_of tx).
  destruct (Transaction.type tx);
    try (unfold addPosition, updateTokenPnL; cbn [tokenPnL]; eexists; reflexivity);
    rewrite removePosition_unfold; cbv zeta; unfold updateTokenPnL; cbn [tokenPnL];
    eexists; reflexivity.
Qed.

Lemma processTransaction_keeps_entry (method key : string) (e : Engine) (r : Ref) :
  JsMap.get key (tokenPnL e) <> None ->
  JsMap.get key (tokenPnL (processTransaction method e r)) <> None.
Proof.
  intro H. destruct (deref (heap e) r) as [tx|] eqn:D.
  - destruct (tokenPnL_processTransaction method e r D) as (entry & ->).
    destruct (String.eqb_spec (key_of tx) key) as [<-|N].
    + rewrite get_set_eq. discriminate.
    + rewrite get_set_ne by exact N. exact H.
  - rewrite (processTransaction_dangling method e r D). exact H.
Qed.

Lemma replay_keeps_entry (method key : string) (txs : list Ref) :
  forall e, JsMap.get key (tokenPnL e) <> None ->
  JsMap.get key (tokenPnL (fold_left (processTransaction method) txs e)) <> None.
Proof.
  induction txs as [|r txs IH]; intros e H; simpl; [exact H|].
  apply IH. apply processTransaction_keeps_entry. exact H.
Qed.

Lemma key_of_with_realized (tx : Transaction.t) (v : option number) :
  key_of (Transaction.with_realized tx v) = key_of tx.
Proof. reflexivity. Qed.

(** A key has its entry once one of its transactions has been processed. *)
Lemma replay_creates_entry (method : string) (txs : list Ref) :
  forall (e : Engine) (r0 : Ref) (tx0 : Transaction.t),
  In r0 txs -> deref (heap e) r0 = Some tx0 ->
  JsMap.get (key_of tx0) (tokenPnL (fold_left (processTransaction method) txs e))
  <> None.
Proof.
  induction txs as [|r txs IH]; intros e r0 tx0 I D; simpl; [destruct I|].
  destruct (in_dec Nat.eq_dec r0 txs) as [I'|I'].
  - destruct (processTransaction_heap method e r r0 D) as (v & D' & _).
    rewrite <- (key_of_with_realized tx0 v). apply (IH _ _ _ I' D').
  - destruct I as [->|I]; [|contradiction].
    apply replay_keeps_entry.
    destruct (tokenPnL_processTransaction method e r0 D) as (entry & ->).
    rewrite get_set_eq. discriminate.
Qed.

Lemma updateTokenPnL_reports_lots (key chain symbol address : string)
    (realized : number) (e : Engine) :
  (forall k t, k <> key -> JsMap.get k (tokenPnL e) = Some t ->
     TokenPnL.quantity_held t = totalQuantity (positions_of k e) /\
     TokenPnL.average_buy_price_usd t =
       (if ngtb (totalQuantity (positions_of k e)) zero
        then (totalValue (positions_of k e) / totalQuantity (positions_of k e))%num
        else zero)) ->
  entries_report_lots (updateTokenPnL key chain symbol address realized e).
Proof.
  intros H k t G. rewrite positions_of_updateTokenPnL.
  unfold updateTokenPnL in G. cbn [tokenPnL] in G.
  destruct (String.eqb_spec key k) as [<-|N].
  - rewrite get_set_eq in G. inversion G; subst t. split; reflexivity.
  - rewrite get_set_ne in G by exact N. apply H; [|exact G].
    intro E. apply N. symmetry. exact E.
Qed.

Lemma positions_of_set_ne (key k : string) (ps : list Position.t) (e : Engine)
    (t : JsMap.t TokenPnL.t) (h : TxHeap) :
  key <> k ->
  positions_of k (mkEngine (JsMap.set key ps (positions e)) t h) = positions_of k e.
Proof.
  intro N. unfold positions_of. cbn [positions].
  rewrite get_set_ne by exact N. reflexivity.
Qed.

Lemma processTransaction_reports_lots (method : string) (e : Engine) (r : Ref) :
  entries_report_lots e -> entries_report_lots (processTransaction method e r).
Proof.
  intro J. unfold processTransaction.
  destruct (deref (heap e) r) as [tx|]; [|exact J]. fold (key_of tx).
  assert (Hadd : entries_report_lots (addPosition (key_of tx) tx e)).
  { unfold addPosition. apply updateTokenPnL_reports_lots.
    intros k t N G. cbn [tokenPnL] in G.
    rewrite positions_of_set_ne by (intro E; apply N; symmetry; exact E).
    apply (J k t G). }
  assert (Hrem : entries_report_lots (removePosition method (key_of tx) r tx e)).
  { rewrite removePosition_unfold. cbv zeta. apply updateTokenPnL_reports_lots.
    intros k t N G. cbn [tokenPnL] in G.
    rewrite positions_of_set_ne by (intro E; apply N; symmetry; exact E).
    apply (J k t G). }
  destruct (Transaction.type tx); assumption.
Qed.

Lemma replay_reports_lots (method : string) (txs : list Ref) :
  forall e, entries_report_lots e ->
  entries_report_lots (fold_left (processTransaction method) txs e).
Proof.
  induction txs as [|r txs IH]; intros e J; simpl; [exact J|].
  apply IH. apply processTransaction_reports_lots. exact J.
Qed.

(** ** One more object in the store *)

Lemma update_nth_app1 {A : Type} (x : A) (l' : list A) : forall (l : list A) (i : nat),
  (i < List.length l)%nat -> update_nth i x (l ++ l') = update_nth i x l ++ l'.
Proof.
  induction l as [|y l IH]; intros [|i] L; simpl in *; try lia; try reflexivity.
  f_equal. apply IH. lia.
Qed.

Lemma processTransaction_with_object (method : string) (z : Transaction.t)
    (e : Engine) (r : Ref) :
  (r < List.length (heap e))%nat ->
  processTransaction method (with_object z e) r =
  with_object z (processTransaction method e r).
Proof.
  intro L. unfold processTransaction. cbn [with_object heap]. unfold deref.
  rewrite nth_error_app1 by exact L.
  destruct (nth_error (heap e) r) as [tx|]; [|reflexivity].
  destruct (Transaction.type tx); try reflexivity;
    rewrite !removePosition_unfold; cbv zeta;
    unfold with_object, updateTokenPnL, positions_of; cbn [positions tokenPnL heap];
    rewrite update_nth_app1 by exact L; reflexivity.
Qed.

Lemma replay_with_object (method : string) (z : Transaction.t) (txs : list Ref) :
  forall e, Forall (fun r => (r < List.length (heap e))%nat) txs ->
  fold_left (processTransaction method) txs (with_object z e) =
  with_object z (fold_left (processTransaction method) txs e).
Proof.
  induction txs as [|r txs IH]; intros e F; simpl; [reflexivity|].
  inversion F; subst. rewrite processTransaction_with_object by assumption.
  apply IH. rewrite processTransaction_heap_length. assumption.
Qed.

Lemma set_same {V : Type} (k : string) (v : V) : forall (m : JsMap.t V),
  JsMap.get k m = Some v -> JsMap.set k v m = m.
Proof.
  induction m as [|[k' v'] m IH]; simpl; intro G; [discriminate|].
  destruct (String.eqb_spec k k') as [->|N].
  - inversion G; subst. reflexivity.
  - f_equal. apply IH. exact G.
Qed.

(** An acquisition of quantity 0, for a key that has its entry, leaves the
    token entries as they are. *)
Lemma addPosition_zero_tokenPnL (z : Transaction.t) (e : Engine) :
  entries_report_lots e ->
  JsMap.get (key_of z) (tokenPnL e) <> None ->
  empty_lot (lot_of z) ->
  tokenPnL (addPosition (key_of z) z e) = tokenPnL e.
Proof.
  intros J G Hz. unfold addPosition, updateTokenPnL. cbn [tokenPnL].
  rewrite positions_of_set.
  destruct (JsMap.get (key_of z) (tokenPnL e)) as [t|] eqn:Eg; [|congruence].
  destruct (J _ _ Eg) as [Jq Ja].
  rewrite <- insert_at_length.
  rewrite (totalQuantity_insert_at _ _ Hz), (totalValue_insert_at _ _ Hz).
  rewrite <- Jq in *. rewrite <- Ja. rewrite nadd_0_r.
  apply set_same. rewrite Eg. destruct t. reflexivity.
Qed.

(** ** A zero-quantity acquisition in the input *)

Lemma sorted_after {A : Type} (R : A -> A -> Prop) (x : A) (a b : list A) :
  StronglySorted R (a ++ x :: b) -> Forall (R x) b.
Proof.
  induction a as [|y a IH]; simpl; intro S; inversion S; subst; auto.
Qed.

Lemma timestamp_at_app1 (h : TxHeap) (z : Transaction.t) (r : Ref) :
  (r < List.length h)%nat -> timestamp_at (h ++ [z]) r = timestamp_at h r.
Proof.
  intro L. unfold timestamp_at, deref. rewrite nth_error_app1 by exact L. reflexivity.
Qed.

Lemma objects_app1 (h : TxHeap) (z : Transaction.t) (refs : list Ref) :
  Forall (fun r => (r < List.length h)%nat) refs ->
  objects (h ++ [z]) refs = objects h refs.
Proof.
  induction 1 as [|r refs L F IH]; simpl; [reflexivity|].
  unfold deref. rewrite nth_error_app1 by exact L. rewrite IH. reflexivity.
Qed.

Lemma objects_app (h : TxHeap) (l1 l2 : list Ref) :
  objects h (l1 ++ l2) = objects h l1 ++ objects h l2.
Proof. unfold objects. apply flat_map_app. Qed.

Lemma deref_new_object (h : TxHeap) (z : Transaction.t) :
  deref (h ++ [z]) (List.length h) = Some z.
Proof.
  unfold deref. rewrite nth_error_app2 by lia. rewrite Nat.sub_diag. reflexivity.
Qed.

(** The two replays: the engine after the input without [z], and the engine
    after the input with [z]. *)
Lemma replay_with_zero_acquisition (method : string) (h : TxHeap)
    (z : Transaction.t) (s1 s2 : list Ref) (r0 : Ref) (tx0 : Transaction.t) :
  method = "fifo"%string \/ method = "lifo"%string ->
  is_acquisition (Transaction.type z) = true ->
  empty_lot (lot_of z) ->
  Forall (fun r => (r < List.length h)%nat) (s1 ++ s2) ->
  In r0 s1 -> deref h r0 = Some tx0 -> key_of tx0 = key_of z ->
  let e := replay method h (s1 ++ s2) in
  let e' := replay method (h ++ [z]) (s1 ++ List.length h :: s2) in
  tokenPnL e' = tokenPnL e /\ heap e' = heap e ++ [z].
Proof.
  intros Hm Ha Hz F I D K e e'.
  apply Forall_app in F. destruct F as [F1 F2].
  unfold e, e', replay. rewrite !fold_left_app. cbn [fold_left].
  set (init := mkEngine JsMap.empty JsMap.empty h).
  change (mkEngine JsMap.empty JsMap.empty (h ++ [z])) with (with_object z init).
  set (es := fold_left (processTransaction method) s1 init).
  assert (Ls : List.length (heap es) = List.length h).
  { unfold es. rewrite replay_heap_length. reflexivity. }
  rewrite (@replay_with_object method z s1 init F1). fold es.
  assert (Dz : deref (heap (with_object z es)) (List.length h) = Some z).
  { cbn [with_object heap]. rewrite <- Ls. apply deref_new_object. }
  rewrite (processTransaction_acquisition method (with_object z es) _ Dz Ha).
  assert (Jes : entries_report_lots (with_object z es)).
  { assert (J : entries_report_lots es).
    { unfold es. apply replay_reports_lots. intros key t G. discriminate. }
    exact J. }
  assert (Ges : JsMap.get (key_of z) (tokenPnL (with_object z es)) <> None).
  { cbn [with_object tokenPnL]. rewrite <- K. unfold es.
    apply replay_creates_entry with (r0 := r0); assumption. }
  assert (Sim : differ_by_lot (key_of z) (lot_of z) (with_object z es)
                  (addPosition (key_of z) z (with_object z es))).
  { split; [|split; [|split]].
    - apply addPosition_zero_tokenPnL; assumption.
    - reflexivity.
    - intros k N. apply positions_of_addPosition_ne.
      intro E. apply N. symmetry. exact E.
    - right. exists (List.length (positions_of (key_of z) (with_object z es))).
      split; [lia|]. rewrite positions_of_addPosition. symmetry.
      apply insert_at_length. }
  destruct (@differ_by_lot_replay method (key_of z) (lot_of z) s2 Hm Hz _ _ Sim)
    as (Et & Eh & _).
  rewrite Et, Eh.
  rewrite (@replay_with_object method z s2 es)
    by (rewrite Ls; exact F2).
  split; reflexivity.
Qed.

(** C10, as the code has it.  Under fifo and lifo, take an input whose
    references are all in the store, and an additional acquisition [z] of
    quantity 0 at a finite price whose token key occurs in the input on a
    transaction with an earlier timestamp.  Putting [z] anywhere into the
    array changes neither the summary nor by_chain nor by_token; the
    annotated transactions are the same with the entry of [z] among them;
    the other objects of the store end up the same; and no error is
    raised. *)
Theorem C10_zero_quantity_acquisition
    (method : string) (now : Z) (h : TxHeap) (l1 l2 : list Ref) (z : Transaction.t)
    (prices : JsMap.t number) (r0 : Ref) (tx0 : Transaction.t) :
  method = "fifo"%string \/ method = "lifo"%string ->
  is_acquisition (Transaction.type z) = true ->
  Transaction.quantity z = zero ->
  finite (Transaction.price_usd z) = true ->
  Forall (fun r => (r < List.length h)%nat) (l1 ++ l2) ->
  In r0 (l1 ++ l2) -> deref h r0 = Some tx0 ->
  key_of tx0 = key_of z ->
  (Transaction.timestamp tx0 < Transaction.timestamp z)%Z ->
  let before := calculate method now h (l1 ++ l2) prices in
  let after := calculate method now (h ++ [z]) (l1 ++ List.length h :: l2) prices in
  PnLResult.summary (fst after) = PnLResult.summary (fst before) /\
  PnLResult.by_chain (fst after) = PnLResult.by_chain (fst before) /\
  PnLResult.by_token (fst after) = PnLResult.by_token (fst before) /\
  (exists a b,
     PnLResult.transactions (fst before) = a ++ b /\
     PnLResult.transactions (fst after) = a ++ annotate z :: b) /\
  snd after = snd before ++ [z] /\
  invoke method now (h ++ [z]) (l1 ++ List.length h :: l2) prices = Returned after.
Proof.
  intros Hm Ha Zq Zp F I D K Lt before after.
  set (n := List.length h) in *. set (h2 := h ++ [z]) in *.
  assert (Split : exists s1 s2,
            sort (by_tx_timestamp h2) (l1 ++ l2) = s1 ++ s2 /\
            sort (by_tx_timestamp h2) (l1 ++ n :: l2) = s1 ++ n :: s2)
    by exact (@sort_one_more _ (timestamp_at h2) n l1 l2).
  destruct Split as (s1 & s2 & S1 & S2).
  assert (Sorted2 : StronglySorted
                      (fun a b => (timestamp_at h2 a <= timestamp_at h2 b)%Z)
                      (s1 ++ n :: s2)).
  { rewrite <- S2. exact (@sort_sorted _ (timestamp_at h2) (l1 ++ n :: l2)). }
  assert (Sort1 : sort (by_tx_timestamp h) (l1 ++ l2) = s1 ++ s2).
  { rewrite <- S1. apply sort_ext. intros a b Ia Ib.
    rewrite Forall_forall in F. unfold by_tx_timestamp, h2.
    rewrite !timestamp_at_app1 by (apply F; assumption). reflexivity. }
  assert (Perm : Permutation (s1 ++ s2) (l1 ++ l2)).
  { rewrite <- Sort1. apply sort_is_permutation. }
  assert (Fs : Forall (fun r => (r < n)%nat) (s1 ++ s2)).
  { apply Forall_forall. intros r Hr. rewrite Forall_forall in F. apply F.
    eapply Permutation_in; [exact Perm|exact Hr]. }
  assert (I1 : In r0 s1).
  { assert (I' : In r0 (s1 ++ s2)).
    { eapply Permutation_in; [apply Permutation_sym; exact Perm|exact I]. }
    apply in_app_or in I'. destruct I' as [I'|I']; [exact I'|exfalso].
    pose proof (sorted_after _ _ _ Sorted2) as Fa.
    rewrite Forall_forall in Fa. specialize (Fa r0 I').
    unfold h2 in Fa. rewrite (timestamp_at_app1 h z (r := r0)) in Fa.
    - unfold timestamp_at at 2 in Fa. rewrite D in Fa.
      unfold timestamp_at, n in Fa. rewrite deref_new_object in Fa. lia.
    - rewrite Forall_forall in F. apply F. exact I. }
  assert (Hz : empty_lot (lot_of z)) by (split; assumption).
  destruct (@replay_with_zero_acquisition method h z s1 s2 r0 tx0 Hm Ha Hz Fs I1 D K)
    as [Et Eh].
  fold n h2 in Et, Eh.
  assert (Lh : List.length (heap (replay method h (s1 ++ s2))) = n).
  { unfold replay. rewrite replay_heap_length. reflexivity. }
  apply Forall_app in Fs. destruct Fs as [F1 F2].
  unfold after, before, invoke, calculate.
  rewrite S2, Sort1, Et, Eh. cbn [fst snd PnLResult.summary PnLResult.by_chain
    PnLResult.by_token PnLResult.transactions].
  repeat split.
  exists (map annotate (objects (heap (replay method h (s1 ++ s2))) s1)),
         (map annotate (objects (heap (replay method h (s1 ++ s2))) s2)).
  split.
  - rewrite objects_app, map_app. reflexivity.
  - rewrite objects_app, map_app.
    rewrite objects_app1 by (rewrite Lh; exact F1).
    f_equal. change (n :: s2) with ([n] ++ s2).
    rewrite objects_app, map_app.
    rewrite (objects_app1 _ z (refs := s2)) by (rewrite Lh; exact F2).
    f_equal. unfold objects. simpl. rewrite <- Lh.
    rewrite deref_new_object. reflexivity.
Qed.

Lemma C10_zero_quantity_acquisition_witness :
  let h := [eth_tx buy 1 2 10; eth_tx sell 4 3 12; eth_tx buy 5 1 11] in
  let z := eth_tx transfer_in 2 0 11 in
  let before := calculate "lifo" 0 h ([0] ++ [1; 2])%nat [] in
  let after := calculate "lifo" 0 (h ++ [z]) ([0] ++ List.length h :: [1; 2])%nat [] in
  PnLResult.summary (fst after) = PnLResult.summary (fst before) /\
  PnLResult.by_chain (fst after) = PnLResult.by_chain (fst before) /\
  PnLResult.by_token (fst after) = PnLResult.by_token (fst before) /\
  (exists a b,
     PnLResult.transactions (fst before) = a ++ b /\
     PnLResult.transactions (fst after) = a ++ annotate z :: b) /\
  snd after = snd before ++ [z] /\
  invoke "lifo" 0 (h ++ [z]) ([0] ++ List.length h :: [1; 2])%nat [] = Returned after.
Proof.
  apply (@C10_zero_quantity_acquisition "lifo" 0%Z
           [eth_tx buy 1 2 10; eth_tx sell 4 3 12; eth_tx buy 5 1 11]
           [0]%nat [1; 2]%nat (eth_tx transfer_in 2 0 11) []
           0%nat (eth_tx buy 1 2 10)); try reflexivity.
  - right. reflexivity.
  - repeat constructor.
  - left. reflexivity.
Defined.

(** C10 as stated fails.  Under avg, after a sell of 1 at 12 with nothing
    held, a zero-quantity acquisition leaves a lot of quantity 0; at the
    next sell the average price is 0/0, the cost basis is NaN, and the total
    realized P&L of the summary is NaN instead of 24.  And under fifo a
    zero-quantity acquisition of a token that is not in the input adds an
    entry to by_token and to by_chain. *)
Lemma C10_zero_quantity_acquisition_changes_figures :
  (let h := [eth_tx sell 1 1 12; eth_tx sell 3 1 12] in
   let z := eth_tx buy 2 0 10 in
   PnLSummary.total_realized_pnl_usd
     (PnLResult.summary (fst (calculate "avg" 0 h [0; 1]%nat []))) = Fin (qc 24) /\
   PnLSummary.total_realized_pnl_usd
     (PnLResult.summary (fst (calculate "avg" 0 (h ++ [z]) [0; 2; 1]%nat []))) = NaN)
  /\
  (let h := [eth_tx buy 1 1 10] in
   let z := token_tx "base" "USDC" buy 2 0 1 in
   List.length (PnLResult.by_token (fst (calculate "fifo" 0 h [0]%nat []))) = 1%nat /\
   List.length (PnLResult.by_token (fst (calculate "fifo" 0 (h ++ [z]) [0; 1]%nat [])))
     = 2%nat /\
   List.length (PnLResult.by_chain (fst (calculate "fifo" 0 h [0]%nat []))) = 1%nat /\
   List.length (PnLResult.by_chain (fst (calculate "fifo" 0 (h ++ [z]) [0; 1]%nat [])))
     = 2%nat).
Proof.
  split; cbv zeta.
  - split; number_eq.
  - repeat split; reflexivity.
Qed.

(** * Further properties of the engine *)

(** ** No transactions *)

(** X1.  On an empty array [calculate] returns, under any method and any
    price map, what the wallet service builds itself for a wallet without
    transactions when it is asked for no chains: zeros in the summary, no
    by_chain, by_token or transactions entries, no chains queried; and it
    leaves the store as it is. *)
Theorem calculate_empty (method : string) (now : Z) (h : TxHeap)
    (prices : JsMap.t number) :
  calculate method now h [] prices = (getEmptyResult now [], h).
Proof.
  unfold calculate, replay, getEmptyResult.
  cbn [sort fold_right fold_left tokenPnL heap objects
    flat_map map calculateUnrealizedPnL JsMap.values aggregateByChain JsMap.empty].
  unfold calculateSummary, reduce_sum. cbn [fold_left].
  replace (ngeb zero zero) with true by reflexivity.
  rewrite nadd_0_r, nsub_0_r.
  replace (ngtb zero zero) with false by reflexivity.
  reflexivity.
Qed.

(** ** The annotated transactions *)

Lemma replay_heap_dangling (method : string) (txs : list Ref) (e : Engine) (r : Ref) :
  deref (heap e) r = None ->
  deref (heap (fold_left (processTransaction method) txs e)) r = None.
Proof.
  unfold deref. intro D. apply nth_error_None. rewrite replay_heap_length.
  apply nth_error_None. exact D.
Qed.

Lemma objects_In (h : TxHeap) (tx : Transaction.t) (refs : list Ref) :
  In tx (objects h refs) <-> exists r, In r refs /\ deref h r = Some tx.
Proof.
  unfold objects. rewrite in_flat_map. split.
  - intros (r & I & H). exists r. split; [exact I|].
    destruct (deref h r) as [t|]; [|destruct H].
    destruct H as [->|[]]. reflexivity.
  - intros (r & I & D). exists r. split; [exact I|]. rewrite D. left. reflexivity.
Qed.

(** The objects after the replay are the objects before it, up to
    [realized_pnl_usd]. *)
Lemma objects_after_replay (method : string) (e : Engine) (txs refs : list Ref) :
  map without_realized
    (objects (heap (fold_left (processTransaction method) txs e)) refs) =
  map without_realized (objects (heap e) refs).
Proof.
  induction refs as [|r refs IH]; [reflexivity|].
  unfold objects in *. cbn [flat_map]. rewrite !map_app, IH. f_equal.
  destruct (deref (heap e) r) as [tx|] eqn:D.
  - destruct (@replay_heap method txs e r tx D) as (v & -> & _).
    reflexivity.
  - rewrite (@replay_heap_dangling method txs e r D).
    reflexivity.
Qed.

Lemma objects_sorted (h : TxHeap) (refs : list Ref) :
  StronglySorted (fun a b => (timestamp_at h a <= timestamp_at h b)%Z) refs ->
  StronglySorted Z.le (map Transaction.timestamp (objects h refs)).
Proof.
  induction 1 as [|r refs S IH F]; [constructor|].
  unfold objects in *. cbn [flat_map]. destruct (deref h r) as [tx|] eqn:D; [|exact IH].
  cbn [app map]. constructor; [exact IH|].
  apply Forall_forall. intros t Ht. apply in_map_iff in Ht.
  destruct Ht as (tx' & <- & Hin).
  apply (objects_In h tx' refs) in Hin. destruct Hin as (r' & I' & D').
  rewrite Forall_forall in F. specialize (F r' I').
  unfold timestamp_at in F. rewrite D, D' in F. exact F.
Qed.

(** X2.  The [transactions] of a result are the transactions of the input
    array, up to [realized_pnl_usd], in ascending order of timestamp; an
    entry has a [realized_pnl_usd] exactly when it is a sell: the P&L of a
    transfer_out is written on the caller's object but is not in the
    result. *)
Theorem annotated_transactions (method : string) (now : Z) (h : TxHeap)
    (refs : list Ref) (prices : JsMap.t number) :
  let out := PnLResult.transactions (fst (calculate method now h refs prices)) in
  Permutation (map without_realized out) (map without_realized (objects h refs)) /\
  StronglySorted Z.le (map Transaction.timestamp out) /\
  Forall (fun tx =>
            match Transaction.type tx with
            | sell => exists x, Transaction.realized_pnl_usd tx = Some x
            | _ => Transaction.realized_pnl_usd tx = None
            end) out.
Proof.
  intro out. unfold out, calculate, replay. cbn [fst PnLResult.transactions].
  set (sorted := sort (by_tx_timestamp h) refs).
  set (e0 := mkEngine JsMap.empty JsMap.empty h).
  set (hf := heap (fold_left (processTransaction method) sorted e0)).
  assert (Strip : map without_realized (map annotate (objects hf sorted)) =
                  map without_realized (objects h sorted)).
  { rewrite map_map.
    change (objects h sorted) with (objects (heap e0) sorted).
    rewrite <- (@objects_after_replay method e0 sorted sorted). fold hf.
    apply map_ext. intro tx. reflexivity. }
  split; [|split].
  - rewrite Strip. apply Permutation_map. apply objects_permutation.
    apply sort_is_permutation.
  - replace (map Transaction.timestamp (map annotate (objects hf sorted)))
      with (map Transaction.timestamp (objects h sorted)).
    + apply objects_sorted. exact (@sort_sorted _ (timestamp_at h) refs).
    + transitivity (map Transaction.timestamp (map without_realized (objects h sorted))).
      * rewrite map_map. reflexivity.
      * rewrite <- Strip, map_map. reflexivity.
  - apply Forall_forall. intros t Ht. apply in_map_iff in Ht.
    destruct Ht as (t0 & <- & Hin).
    apply (objects_In hf t0 sorted) in Hin. destruct Hin as (r & I & D).
    destruct (deref h r) as [tx|] eqn:Dh.
    + destruct (@replay_heap method sorted e0 r tx Dh) as (v & D' & _ & B).
      fold hf in D'. rewrite D in D'. inversion D'; subst t0.
      destruct tx as [ha ch ts ty sy ad q p tv rz]; cbn in B |- *.
      destruct ty; try reflexivity.
      apply B; [reflexivity|exact I].
    + pose proof (@replay_heap_dangling method sorted e0 r Dh) as D'.
      fold hf in D'. congruence.
Qed.

(** ** The token entries *)

Lemma map_keys_set {V : Type} (k : string) (v : V) (m : JsMap.t V) :
  map_keys (JsMap.set k v m) =
  if existsb (String.eqb k) (map_keys m) then map_keys m else map_keys m ++ [k].
Proof.
  unfold map_keys. induction m as [|[k' v'] m IH]; [reflexivity|].
  cbn [JsMap.set map fst existsb]. destruct (String.eqb k k') eqn:E; cbn [orb].
  - reflexivity.
  - cbn [map fst]. rewrite IH. destruct (existsb (String.eqb k) (map fst m)); reflexivity.
Qed.

Lemma map_keys_values_pending (e : Engine) :
  entries_pending e -> map entry_key (JsMap.values (tokenPnL e)) = map_keys (tokenPnL e).
Proof.
  unfold entries_pending, JsMap.values, map_keys. induction 1 as [|[k t] m [K _] _ IH].
  - reflexivity.
  - cbn [map fst snd] in *. rewrite K, IH. reflexivity.
Qed.

Lemma get_In {V : Type} (k : string) (v : V) : forall (m : JsMap.t V),
  JsMap.get k m = Some v -> In (k, v) m.
Proof.
  induction m as [|[k' v'] m IH]; simpl; intro G; [discriminate|].
  destruct (String.eqb_spec k k') as [->|N].
  - inversion G. left. reflexivity.
  - right. apply IH. exact G.
Qed.

Lemma Forall_set {V : Type} (P : string * V -> Prop) (k : string) (v : V) :
  forall (m : JsMap.t V), Forall P m -> P (k, v) -> Forall P (JsMap.set k v m).
Proof.
  induction m as [|[k' v'] m IH]; intros F H; cbn [JsMap.set].
  - constructor; [exact H|constructor].
  - inversion F as [|? ? Hk Hm]; subst.
    destruct (String.eqb_spec k k') as [->|N]; constructor; auto.
Qed.

Lemma updateTokenPnL_pending (chain symbol address : string) (realized : number)
    (e : Engine) :
  entries_pending e ->
  entries_pending
    (updateTokenPnL (getTokenKey chain symbol address) chain symbol address realized e).
Proof.
  unfold entries_pending. intro F. unfold updateTokenPnL. cbn [tokenPnL].
  apply Forall_set; [exact F|]. cbn [fst snd].
  destruct (JsMap.get (getTokenKey chain symbol address) (tokenPnL e)) as [t|] eqn:G.
  - apply get_In in G. rewrite Forall_forall in F. apply F in G. exact G.
  - repeat split.
Qed.

Lemma processTransaction_pending (method : string) (e : Engine) (r : Ref) :
  entries_pending e -> entries_pending (processTransaction method e r).
Proof.
  intro F. unfold processTransaction. destruct (deref (heap e) r) as [tx|]; [|exact F].
  destruct (Transaction.type tx).
  - unfold addPosition. apply updateTokenPnL_pending. exact F.
  - unfold removePosition.
    destruct (sellLoop _ _ _ _) as [[ps' rem] cost].
    apply updateTokenPnL_pending. exact F.
  - unfold addPosition. apply updateTokenPnL_pending. exact F.
  - unfold removePosition.
    destruct (sellLoop _ _ _ _) as [[ps' rem] cost].
    apply updateTokenPnL_pending. exact F.
Qed.

Lemma replay_pending (method : string) (txs : list Ref) :
  forall e, entries_pending e ->
  entries_pending (fold_left (processTransaction method) txs e).
Proof.
  induction txs as [|r txs IH]; intros e F; simpl; [exact F|].
  apply IH. apply processTransaction_pending. exact F.
Qed.

Lemma key_of_without_realized (l : list Transaction.t) :
  map key_of (map without_realized l) = map key_of l.
Proof. rewrite map_map. reflexivity. Qed.

(** The keys of [tokenPnL] are the keys of the transactions, in order of
    first occurrence. *)
Lemma replay_keys (method : string) (txs : list Ref) : forall e,
  map_keys (tokenPnL (fold_left (processTransaction method) txs e)) =
  distinct_from (map_keys (tokenPnL e)) (map key_of (objects (heap e) txs)).
Proof.
  induction txs as [|r txs IH]; intro e; [reflexivity|].
  cbn [fold_left]. rewrite IH.
  assert (K : map key_of (objects (heap (processTransaction method e r)) txs) =
              map key_of (objects (heap e) txs)).
  { rewrite <- key_of_without_realized.
    change (processTransaction method e r)
      with (fold_left (processTransaction method) [r] e).
    rewrite (@objects_after_replay method e [r] txs).
    apply key_of_without_realized. }
  rewrite K. unfold objects at 2. cbn [flat_map]. fold (objects (heap e) txs).
  destruct (deref (heap e) r) as [tx|] eqn:D.
  - destruct (tokenPnL_processTransaction method e r D) as (entry & ->).
    rewrite map_keys_set. reflexivity.
  - rewrite (processTransaction_dangling method e r D). reflexivity.
Qed.

(** X3.  [by_token] has one entry for each token key of the transactions, in
    the order in which the keys first occur in the result's [transactions];
    the identity fields of an entry spell its key. *)
Theorem by_token_keys (method : string) (now : Z) (h : TxHeap)
    (refs : list Ref) (prices : JsMap.t number) :
  let res := fst (calculate method now h refs prices) in
  map entry_key (PnLResult.by_token res) =
    distinct (map key_of (PnLResult.transactions res)) /\
  NoDup (map entry_key (PnLResult.by_token res)).
Proof.
  intro res. unfold res, calculate, replay. cbn [fst PnLResult.by_token PnLResult.transactions].
  set (sorted := sort (by_tx_timestamp h) refs).
  set (e0 := mkEngine JsMap.empty JsMap.empty h).
  set (ef := fold_left (processTransaction method) sorted e0).
  assert (E : map entry_key (JsMap.values (calculateUnrealizedPnL prices (tokenPnL ef))) =
              distinct (map key_of (map annotate (objects (heap ef) sorted)))).
  { transitivity (map entry_key (JsMap.values (tokenPnL ef))).
    - unfold calculateUnrealizedPnL, JsMap.values. rewrite !map_map. reflexivity.
    - rewrite map_keys_values_pending
        by (apply replay_pending; constructor).
      unfold ef. rewrite replay_keys. unfold distinct, distinct_from.
      f_equal. fold ef.
      replace (map key_of (map annotate (objects (heap ef) sorted)))
        with (map key_of (objects (heap ef) sorted))
        by (rewrite map_map; reflexivity).
      rewrite <- (key_of_without_realized (objects (heap ef) sorted)).
      unfold ef. rewrite objects_after_replay. symmetry.
      apply key_of_without_realized. }
  split; [exact E|]. rewrite E.
  apply (proj1 (@distinct_from_spec _ [] (NoDup_nil _))).
Qed.

(** The entry that a transaction files keeps the identity fields that the
    key had, and takes those of the transaction when the key is new. *)
Lemma tokenPnL_processTransaction_identity (method : string) (e : Engine) (r : Ref)
    (tx : Transaction.t) :
  deref (heap e) r = Some tx ->
  exists entry,
    tokenPnL (processTransaction method e r) =
      JsMap.set (key_of tx) entry (tokenPnL e) /\
    match JsMap.get (key_of tx) (tokenPnL e) with
    | Some t => forall tx', identity_of t tx' -> identity_of entry tx'
    | None => identity_of entry tx
    end.
Proof.
  intro D. unfold processTransaction. rewrite D. fold (key_of tx).
  destruct (Transaction.type tx);
    try (unfold addPosition, updateTokenPnL; cbn [tokenPnL]; eexists;
         split; [reflexivity|];
         destruct (JsMap.get (key_of tx) (tokenPnL e));
         [intros tx' I; exact I|repeat split]);
    rewrite removePosition_unfold; cbv zeta; unfold updateTokenPnL; cbn [tokenPnL];
    eexists; (split; [reflexivity|]);
    destruct (JsMap.get (key_of tx) (tokenPnL e));
    [intros tx' I; exact I|repeat split|intros tx' I; exact I|repeat split].
Qed.

Lemma first_of_app (key : string) (l l' : list Transaction.t) (tx : Transaction.t) :
  first_of key l = Some tx -> first_of key (l ++ l') = Some tx.
Proof.
  unfold first_of. induction l as [|x l IH]; cbn [find app]; [discriminate|].
  destruct (String.eqb (key_of x) key); [intro H; exact H|exact IH].
Qed.

Lemma first_of_last (tx : Transaction.t) (l : list Transaction.t) :
  (forall x, In x l -> key_of x <> key_of tx) ->
  first_of (key_of tx) (l ++ [tx]) = Some tx.
Proof.
  unfold first_of. induction l as [|x l IH]; intro N; cbn [find app].
  - rewrite String.eqb_refl. reflexivity.
  - destruct (String.eqb_spec (key_of x) (key_of tx)) as [E|_].
    + exfalso. apply (N x); [left; reflexivity|exact E].
    + apply IH. intros y I. apply N. right. exact I.
Qed.

Lemma first_of_map (f : Transaction.t -> Transaction.t) (key : string) :
  (forall x, key_of (f x) = key_of x) ->
  forall l, first_of key (map f l) = option_map f (first_of key l).
Proof.
  intros K l. unfold first_of. induction l as [|x l IH]; [reflexivity|].
  cbn [map find]. rewrite K. destruct (String.eqb (key_of x) key); [reflexivity|exact IH].
Qed.

(** During the replay every entry carries the chain, symbol and address of
    the first transaction of its key among those processed so far. *)
Lemma replay_identity (method : string) (txs : list Ref) :
  forall (e : Engine) (done : list Transaction.t),
  Forall (fun kv => exists tx, first_of (fst kv) done = Some tx /\
                               identity_of (snd kv) tx) (tokenPnL e) ->
  (forall tx, In tx done -> JsMap.get (key_of tx) (tokenPnL e) <> None) ->
  Forall (fun kv => exists tx,
            first_of (fst kv)
              (done ++ map without_realized (objects (heap e) txs)) = Some tx /\
            identity_of (snd kv) tx)
    (tokenPnL (fold_left (processTransaction method) txs e)).
Proof.
  induction txs as [|r txs IH]; intros e done F G.
  - cbn [fold_left objects flat_map map]. rewrite app_nil_r. exact F.
  - cbn [fold_left]. unfold objects. cbn [flat_map]. fold (objects (heap e) txs).
    destruct (deref (heap e) r) as [tx|] eqn:D.
    + cbn [app map].
      replace (done ++ without_realized tx :: map without_realized (objects (heap e) txs))
        with ((done ++ [without_realized tx]) ++
              map without_realized (objects (heap e) txs))
        by (rewrite <- app_assoc; reflexivity).
      rewrite <- (@objects_after_replay method e [r] txs). cbn [fold_left].
      destruct (tokenPnL_processTransaction_identity method e r D) as (entry & E & I).
      apply IH.
      * rewrite E. apply Forall_set.
        -- eapply Forall_impl; [|exact F]. intros kv (tx' & F1 & F2).
           exists tx'. split; [|exact F2]. apply first_of_app. exact F1.
        -- cbn [fst snd].
           destruct (JsMap.get (key_of tx) (tokenPnL e)) as [t|] eqn:Gt.
           ++ apply get_In in Gt. rewrite Forall_forall in F.
              destruct (F _ Gt) as (tx' & F1 & F2). cbn [fst snd] in F1, F2.
              exists tx'. split; [apply first_of_app; exact F1|apply I; exact F2].
           ++ exists (without_realized tx). split; [|exact I].
              change (key_of tx) with (key_of (without_realized tx)).
              apply first_of_last. intros x Hx K.
              apply (G x Hx). rewrite K. exact Gt.
      * intros x Hx. apply in_app_or in Hx. rewrite E.
        destruct (String.eqb_spec (key_of tx) (key_of x)) as [K|N].
        -- rewrite <- K, get_set_eq. discriminate.
        -- rewrite get_set_ne by exact N.
           destruct Hx as [Hx|[<-|[]]]; [apply G; exact Hx|].
           exfalso. apply N. reflexivity.
    + cbn [app]. rewrite (processTransaction_dangling method e r D).
      apply IH; assumption.
Qed.

(** Each entry of [by_token] carries the chain, symbol and address of the
    first transaction of its key in the result's [transactions]. *)
Lemma by_token_first_transaction (method : string) (now : Z) (h : TxHeap)
    (refs : list Ref) (prices : JsMap.t number) (t : TokenPnL.t) :
  In t (PnLResult.by_token (fst (calculate method now h refs prices))) ->
  exists tx,
    first_of (entry_key t)
      (PnLResult.transactions (fst (calculate method now h refs prices))) = Some tx /\
    identity_of t tx.
Proof.
  unfold calculate, replay.
  cbn [fst PnLResult.by_token PnLResult.transactions].
  set (sorted := sort (by_tx_timestamp h) refs).
  set (e0 := mkEngine JsMap.empty JsMap.empty h).
  set (ef := fold_left (processTransaction method) sorted e0).
  assert (P : entries_pending ef) by (apply replay_pending; constructor).
  assert (I : Forall (fun kv => exists tx,
                first_of (fst kv)
                  ([] ++ map without_realized (objects (heap e0) sorted)) = Some tx /\
                identity_of (snd kv) tx) (tokenPnL ef)).
  { apply replay_identity; [constructor|intros tx []]. }
  cbn [app] in I.
  rewrite <- (@objects_after_replay method e0 sorted sorted) in I. fold ef in I.
  unfold entries_pending in P.
  unfold calculateUnrealizedPnL, JsMap.values. rewrite map_map. cbn [snd].
  intro Ht. apply in_map_iff in Ht.
  destruct Ht as ([k t0] & <- & Hin). cbn [snd].
  rewrite Forall_forall in P, I.
  destruct (P _ Hin) as (K & _). destruct (I _ Hin) as (tx & F1 & F2).
  cbn [fst snd] in K, F1, F2.
  change (entry_key (finalizeToken prices t0)) with (entry_key t0). rewrite K.
  rewrite (@first_of_map without_realized k (fun x => eq_refl)) in F1.
  rewrite (@first_of_map annotate k (fun x => eq_refl)).
  destruct (first_of k (objects (heap ef) sorted)) as [tx0|]; [|discriminate].
  inversion F1; subst tx. exists (annotate tx0). split; [reflexivity|exact F2].
Qed.

(** X4.  Each entry of [by_token] carries the chain, symbol and address of
    the first transaction of its key in the result's [transactions], also
    when later transactions of the key spell them in another case. *)
Theorem by_token_identity (method : string) (now : Z) (h : TxHeap)
    (refs : list Ref) (prices : JsMap.t number) :
  let res := fst (calculate method now h refs prices) in
  Forall (fun t => exists tx,
            first_of (entry_key t) (PnLResult.transactions res) = Some tx /\
            identity_of t tx)
    (PnLResult.by_token res).
Proof.
  intro res. apply Forall_forall. intros t Ht.
  destruct (by_token_first_transaction method now h refs prices t Ht)
    as (tx & F & I).
  exists tx. split; [exact F|exact I].
Qed.

(** ** Looking up an entry *)

Lemma In_get {V : Type} (k : string) (v : V) : forall (m : JsMap.t V),
  NoDup (map_keys m) -> In (k, v) m -> JsMap.get k m = Some v.
Proof.
  unfold map_keys. induction m as [|[k' v'] m IH]; intros ND I; [destruct I|].
  cbn [map fst] in ND. inversion ND as [|? ? NI ND']; subst. cbn [JsMap.get].
  destruct I as [E|I].
  - inversion E; subst. rewrite String.eqb_refl. reflexivity.
  - destruct (String.eqb_spec k k') as [->|N]; [|apply IH; assumption].
    exfalso. apply NI. apply in_map_iff. exists (k', v). split; [reflexivity|exact I].
Qed.

Lemma replay_keys_NoDup (method : string) (h : TxHeap) (txs : list Ref) :
  NoDup (map_keys (tokenPnL (replay method h txs))).
Proof.
  unfold replay. rewrite replay_keys.
  apply (proj1 (@distinct_from_spec _ [] (NoDup_nil _))).
Qed.

(** ** The figures of a token entry *)

(** X6.  Each entry of [by_token] is priced at the price filed under its
    symbol, or at 0 when there is none (or it is 0 or NaN); its unrealized
    P&L is the value of the holding at that price less its cost at the
    average buy price, and 0 when nothing is held; its total is realized
    plus unrealized; its percentage is the total over cost of the holding
    plus the absolute realized P&L, and 0 when that is not positive. *)
Theorem by_token_figures (method : string) (now : Z) (h : TxHeap)
    (refs : list Ref) (prices : JsMap.t number) :
  Forall (fun t =>
            let held := TokenPnL.quantity_held t in
            let cost := (held * TokenPnL.average_buy_price_usd t)%num in
            let basis := (cost + nabs (TokenPnL.realized_pnl_usd t))%num in
            TokenPnL.current_price_usd t =
              or_zero (JsMap.get (TokenPnL.token_symbol t) prices) /\
            TokenPnL.unrealized_pnl_usd t =
              (if ngtb held zero
               then (held * TokenPnL.current_price_usd t - cost)%num else zero) /\
            TokenPnL.total_pnl_usd t =
              (TokenPnL.realized_pnl_usd t + TokenPnL.unrealized_pnl_usd t)%num /\
            TokenPnL.pnl_percentage t =
              (if ngtb basis zero
               then (TokenPnL.total_pnl_usd t / basis * hundred)%num else zero))
    (PnLResult.by_token (fst (calculate method now h refs prices))).
Proof.
  unfold calculate. cbn [fst PnLResult.by_token].
  set (sorted := sort (by_tx_timestamp h) refs).
  assert (P : entries_pending (replay method h sorted))
    by (apply replay_pending; constructor).
  unfold calculateUnrealizedPnL, JsMap.values. rewrite map_map. cbn [snd].
  apply Forall_forall. intros t Ht. apply in_map_iff in Ht.
  destruct Ht as ([k t0] & <- & Hin). cbn [snd].
  unfold entries_pending in P. rewrite Forall_forall in P.
  destruct (P _ Hin) as (_ & _ & U & _). cbn [snd] in U.
  unfold finalizeToken.
  cbn [TokenPnL.quantity_held TokenPnL.average_buy_price_usd TokenPnL.realized_pnl_usd
       TokenPnL.current_price_usd TokenPnL.token_symbol TokenPnL.unrealized_pnl_usd
       TokenPnL.total_pnl_usd TokenPnL.pnl_percentage].
  rewrite U. repeat split.
Qed.

(** ** Oldest first, newest first *)

Section SortStable.
Variable A : Type.
Variable key : A -> Z.
Variable idx : A -> nat.

Lemma insert_sorted_stable (x : A) (l : list A) :
  StronglySorted (fun a b => (key a < key b)%Z \/ (key a = key b /\ (idx a < idx b)%nat)) l ->
  Forall (fun y => (idx x < idx y)%nat) l ->
  StronglySorted (fun a b => (key a < key b)%Z \/ (key a = key b /\ (idx a < idx b)%nat))
    (insert_sorted (fun a b => (key a - key b)%Z) x l).
Proof.
  induction 1 as [|y l S IH F]; intro G; cbn [insert_sorted].
  - constructor; constructor.
  - inversion G as [|? ? Gy Gl]; subst.
    destruct (key x - key y <=? 0)%Z eqn:E.
    + apply Z.leb_le in E. constructor.
      * constructor; assumption.
      * assert (Hy : (key x < key y)%Z \/ (key x = key y /\ (idx x < idx y)%nat))
          by (destruct (Z.eq_dec (key x) (key y)); [right; split; assumption|left; lia]).
        constructor; [exact Hy|].
        rewrite Forall_forall in F, Gl |- *. intros z Hz.
        destruct (F z Hz) as [Lt|[Eq Lt]].
        -- left. lia.
        -- destruct (Z.eq_dec (key x) (key z)); [right; split; auto|left; lia].
    + apply Z.leb_gt in E. constructor.
      * apply IH. exact Gl.
      * rewrite Forall_forall in F |- *. intros z Hz.
        apply (Permutation_in _ (insert_sorted_permutation _ x l)) in Hz.
        destruct Hz as [<-|Hz]; [left; lia|apply F; exact Hz].
Qed.

Lemma sort_stable (l : list A) :
  StronglySorted (fun a b => (idx a < idx b)%nat) l ->
  StronglySorted (fun a b => (key a < key b)%Z \/ (key a = key b /\ (idx a < idx b)%nat))
    (sort (fun a b => (key a - key b)%Z) l).
Proof.
  induction 1 as [|x l S IH F]; cbn [sort fold_right]; [constructor|].
  apply insert_sorted_stable; [exact IH|].
  rewrite Forall_forall in F |- *. intros y Hy. apply F.
  eapply Permutation_in; [apply sort_is_permutation|exact Hy].
Qed.

End SortStable.

Lemma StronglySorted_map {A B : Type} (R : A -> A -> Prop) (R' : B -> B -> Prop)
    (f : A -> B) (l : list A) :
  (forall a b, In a l -> In b l -> R a b -> R' (f a) (f b)) ->
  StronglySorted R l -> StronglySorted R' (map f l).
Proof.
  intros H S. induction S as [|x l S IH F]; cbn [map]; [constructor|].
  constructor.
  - apply IH. intros a b Ia Ib. apply H; right; assumption.
  - rewrite Forall_forall in F. apply Forall_forall. intros y Hy.
    apply in_map_iff in Hy. destruct Hy as (z & <- & Hz).
    apply H; [left; reflexivity|right; exact Hz|apply F; exact Hz].
Qed.

Lemma slots_from_sorted (ps : list Position.t) : forall n,
  StronglySorted (fun a b : nat * Position.t => (fst a < fst b)%nat)
    (combine (seq n (List.length ps)) ps).
Proof.
  induction ps as [|p ps IH]; intro n; cbn [List.length seq combine]; [constructor|].
  constructor; [apply IH|].
  apply Forall_forall. intros [i q] Hi. apply in_combine_l in Hi.
  apply in_seq in Hi. cbn [fst]. lia.
Qed.

Lemma slots_lookup (ps : list Position.t) (s : nat * Position.t) :
  In s (slots ps) -> lot_timestamp ps (fst s) = Position.timestamp (snd s).
Proof.
  unfold slots, lot_timestamp. intro I.
  assert (G : forall (l : list Position.t) n s, In s (combine (seq n (List.length l)) l) ->
              nth_error l (fst s - n) = Some (snd s) /\ (n <= fst s)%nat).
  { clear. induction l as [|p l IH]; intros n s I; [destruct I|].
    cbn [List.length seq combine] in I. destruct I as [<-|I].
    - cbn [fst snd]. rewrite Nat.sub_diag. split; [reflexivity|lia].
    - destruct (IH _ _ I) as [E L]. split; [|lia].
      replace (fst s - n)%nat with (S (fst s - S n)) by lia. exact E. }
  destruct (G ps 0%nat s I) as [E _]. rewrite Nat.sub_0_r in E. rewrite E. reflexivity.
Qed.

(** X7.  Under fifo a disposal goes through all the lots of the key from
    the oldest to the newest, under lifo from the newest to the oldest; lots
    of one timestamp are taken in the order of the array under both. *)
Theorem selection_order (ps : list Position.t) :
  (exists order,
     orderPositions "fifo" ps = map Shared order /\
     Permutation order (seq 0 (List.length ps)) /\
     StronglySorted (oldest_first ps) order) /\
  (exists order,
     orderPositions "lifo" ps = map Shared order /\
     Permutation order (seq 0 (List.length ps)) /\
     StronglySorted (newest_first ps) order).
Proof.
  split.
  - exists (map fst (sort by_timestamp_asc (slots ps))). split; [|split].
    + unfold orderPositions. cbn [String.eqb Ascii.eqb Bool.eqb]. rewrite map_map.
      reflexivity.
    + rewrite <- slots_fst. apply Permutation_map. apply sort_is_permutation.
    + pose proof (@sort_stable _ (fun s => Position.timestamp (snd s)) fst (slots ps)
                    (slots_from_sorted ps 0)) as S.
      eapply StronglySorted_map; [|exact S].
      intros a b Ia Ib H. cbv beta in H.
      apply (Permutation_in _ (sort_is_permutation _ (slots ps))) in Ia, Ib.
      unfold oldest_first. rewrite (slots_lookup ps a Ia), (slots_lookup ps b Ib).
      exact H.
  - exists (map fst (sort by_timestamp_desc (slots ps))). split; [|split].
    + unfold orderPositions. cbn [String.eqb Ascii.eqb Bool.eqb]. rewrite map_map.
      reflexivity.
    + rewrite <- slots_fst. apply Permutation_map. apply sort_is_permutation.
    + pose proof (@sort_stable _ (fun s => (- Position.timestamp (snd s))%Z) fst
                    (slots ps) (slots_from_sorted ps 0)) as S.
      replace (sort by_timestamp_desc (slots ps))
        with (sort (fun a b : nat * Position.t =>
                      (- Position.timestamp (snd a) - - Position.timestamp (snd b))%Z)
                (slots ps)).
      * eapply StronglySorted_map; [|exact S].
        intros a b Ia Ib H. cbv beta in H.
        apply (Permutation_in _ (sort_is_permutation _ (slots ps))) in Ia, Ib.
        unfold newest_first. rewrite (slots_lookup ps a Ia), (slots_lookup ps b Ib).
        lia.
      * apply sort_ext. intros a b _ _. unfold by_timestamp_desc. lia.
Qed.

(** ** The chain entries *)

Lemma Forall_set_others {V : Type} (P : string * V -> Prop) (k : string) (v : V) :
  forall (m : JsMap.t V),
  NoDup (map_keys m) ->
  (forall kv, In kv m -> fst kv <> k -> P kv) -> P (k, v) ->
  Forall P (JsMap.set k v m).
Proof.
  unfold map_keys.
  induction m as [|[k' v'] m IH]; intros ND F H; cbn [JsMap.set].
  - constructor; [exact H|constructor].
  - cbn [map fst] in ND. inversion ND as [|? ? NI ND']; subst.
    destruct (String.eqb_spec k k') as [<-|N].
    + constructor; [exact H|].
      apply Forall_forall. intros kv I. apply F; [right; exact I|].
      intros <-. apply NI. apply in_map. exact I.
    + constructor.
      * apply F; [left; reflexivity|]. cbn [fst]. congruence.
      * apply IH; [exact ND'| |exact H]. intros kv I. apply F. right. exact I.
Qed.

Lemma get_None_keys {V : Type} (k : string) : forall (m : JsMap.t V),
  JsMap.get k m = None -> ~ In k (map_keys m).
Proof.
  unfold map_keys. induction m as [|[k' v'] m IH]; cbn [JsMap.get map fst]; intros G I.
  - destruct I.
  - destruct I as [E|I].
    + subst k'. rewrite String.eqb_refl in G. discriminate.
    + destruct (String.eqb k k'); [discriminate|]. exact (IH G I).
Qed.

Lemma reduce_sum_push {A : Type} (f : A -> number) (l : list A) (x : A) :
  reduce_sum f (l ++ [x]) = (reduce_sum f l + f x)%num.
Proof. unfold reduce_sum. rewrite fold_left_app. reflexivity. Qed.

Lemma tokens_of_chain_push (c : string) (done : list TokenPnL.t) (t : TokenPnL.t) :
  tokens_of_chain c (done ++ [t]) =
  tokens_of_chain c done ++ (if String.eqb (TokenPnL.chain t) c then [t] else []).
Proof. unfold tokens_of_chain. rewrite filter_app. reflexivity. Qed.

Lemma tokens_of_chain_none (c : string) (tokens : list TokenPnL.t) :
  ~ In c (map TokenPnL.chain tokens) -> tokens_of_chain c tokens = [].
Proof.
  unfold tokens_of_chain. induction tokens as [|t tokens IH]; intro N; [reflexivity|].
  cbn [filter]. destruct (String.eqb_spec (TokenPnL.chain t) c) as [E|_].
  - exfalso. apply N. left. exact E.
  - apply IH. intro I. apply N. right. exact I.
Qed.

Lemma distinct_push (l : list string) (c : string) :
  distinct (l ++ [c]) =
  if existsb (String.eqb c) (distinct l) then distinct l else distinct l ++ [c].
Proof. unfold distinct. rewrite fold_left_app. reflexivity. Qed.

(** The first loop of [aggregateByChain]: one entry per chain, in order of
    first occurrence, with the sums over the tokens of the chain. *)
Lemma addToChain_sums (tokens : list TokenPnL.t) :
  forall (done : list TokenPnL.t) (m : JsMap.t ChainPnL.t),
  map_keys m = distinct (map TokenPnL.chain done) ->
  Forall (chain_sums done) m ->
  map_keys (fold_left addToChain tokens m) =
    distinct (map TokenPnL.chain (done ++ tokens)) /\
  Forall (chain_sums (done ++ tokens)) (fold_left addToChain tokens m).
Proof.
  induction tokens as [|t tokens IH]; intros done m K F.
  - rewrite app_nil_r. split; assumption.
  - cbn [fold_left].
    replace (done ++ t :: tokens) with ((done ++ [t]) ++ tokens)
      by (rewrite <- app_assoc; reflexivity).
    assert (ND : NoDup (map_keys m)).
    { rewrite K. apply (proj1 (@distinct_from_spec _ [] (NoDup_nil _))). }
    apply IH.
    + unfold addToChain. rewrite map_keys_set, map_app.
      change (map TokenPnL.chain [t]) with [TokenPnL.chain t].
      rewrite distinct_push, K. reflexivity.
    + unfold addToChain. apply Forall_set_others; [exact ND| |].
      * intros kv I N. rewrite Forall_forall in F.
        destruct (F kv I) as (C & R & U & T).
        unfold chain_sums. rewrite tokens_of_chain_push.
        destruct (String.eqb_spec (TokenPnL.chain t) (fst kv)) as [E|_];
          [exfalso; apply N; symmetry; exact E|].
        rewrite app_nil_r. repeat split; assumption.
      * unfold chain_sums. cbn [fst snd]. rewrite tokens_of_chain_push, String.eqb_refl.
        rewrite !reduce_sum_push.
        destruct (JsMap.get (TokenPnL.chain t) m) as [old|] eqn:G.
        -- apply get_In in G. rewrite Forall_forall in F.
           destruct (F _ G) as (C & R & U & T). cbn [fst snd] in C, R, U, T.
           cbn [ChainPnL.chain ChainPnL.realized_pnl_usd ChainPnL.unrealized_pnl_usd
                ChainPnL.total_pnl_usd].
           rewrite C, R, U, T. repeat split.
        -- apply get_None_keys in G. rewrite K in G.
           rewrite tokens_of_chain_none.
           ++ repeat split.
           ++ intro I. apply G.
              apply (proj2 (@distinct_from_spec (map TokenPnL.chain done) []
                              (NoDup_nil _))).
              right. exact I.
Qed.

(** X8.  [by_chain] has one entry for each chain of [by_token], in order of
    first occurrence; the realized, unrealized and total P&L of an entry are
    the sums of those of the tokens of its chain, added in the order of
    [by_token]; its percentage is its total over the absolute difference of
    total and realized, and 0 when that difference is 0. *)
Theorem by_chain_sums (method : string) (now : Z) (h : TxHeap)
    (refs : list Ref) (prices : JsMap.t number) :
  let res := fst (calculate method now h refs prices) in
  let tokens := PnLResult.by_token res in
  map ChainPnL.chain (PnLResult.by_chain res) = distinct (map TokenPnL.chain tokens) /\
  Forall (fun c =>
            let own := tokens_of_chain (ChainPnL.chain c) tokens in
            let invested :=
              nabs (ChainPnL.total_pnl_usd c - ChainPnL.realized_pnl_usd c)%num in
            ChainPnL.realized_pnl_usd c = reduce_sum TokenPnL.realized_pnl_usd own /\
            ChainPnL.unrealized_pnl_usd c = reduce_sum TokenPnL.unrealized_pnl_usd own /\
            ChainPnL.total_pnl_usd c = reduce_sum TokenPnL.total_pnl_usd own /\
            ChainPnL.pnl_percentage c =
              (if ngtb invested zero
               then (ChainPnL.total_pnl_usd c / invested * hundred)%num else zero))
    (PnLResult.by_chain res).
Proof.
  intros res tokens.
  change (PnLResult.by_chain res) with (aggregateByChain tokens).
  generalize tokens. clear. intro tokens. unfold aggregateByChain.
  destruct (@addToChain_sums tokens [] JsMap.empty eq_refl (Forall_nil _)) as [K F].
  cbn [app] in K, F. split.
  - rewrite <- K. unfold JsMap.values, map_keys. rewrite !map_map.
    apply map_ext_in. intros kv I. rewrite Forall_forall in F.
    destruct (F kv I) as (C & _). exact C.
  - unfold JsMap.values. rewrite map_map. apply Forall_forall. intros c Hc.
    apply in_map_iff in Hc. destruct Hc as (kv & <- & I).
    rewrite Forall_forall in F. destruct (F kv I) as (C & R & U & T).
    unfold chainPercentage.
    cbn [ChainPnL.chain ChainPnL.realized_pnl_usd ChainPnL.unrealized_pnl_usd
         ChainPnL.total_pnl_usd ChainPnL.pnl_percentage].
    rewrite C. repeat split; assumption.
Qed.

(** ** The token key *)

Lemma toLowerCase_app (a b : string) :
  toLowerCase (a ++ b) = (toLowerCase a ++ toLowerCase b)%string.
Proof.
  induction a as [|c a IH]; [reflexivity|]. cbn [String.append toLowerCase].
  rewrite IH. reflexivity.
Qed.

Lemma getTokenKey_parts (chain symbol address : string) :
  getTokenKey chain symbol address =
  (toLowerCase chain ++ ":" ++ toLowerCase symbol ++ ":" ++ toLowerCase address)%string.
Proof.
  unfold getTokenKey. rewrite !toLowerCase_app. reflexivity.
Qed.

(** X9.  The token key does not see the case of ASCII letters: chains,
    symbols and addresses that are equal once lowered give one key, so their
    transactions share lots and one token entry. *)
Theorem token_key_ignores_case (chain symbol address chain' symbol' address' : string) :
  toLowerCase chain = toLowerCase chain' ->
  toLowerCase symbol = toLowerCase symbol' ->
  toLowerCase address = toLowerCase address' ->
  getTokenKey chain symbol address = getTokenKey chain' symbol' address'.
Proof.
  intros C S A. rewrite !getTokenKey_parts, C, S, A. reflexivity.
Qed.

Lemma token_key_ignores_case_witness :
  getTokenKey "ethereum" "USDC" "0xA0b8" = getTokenKey "Ethereum" "usdc" "0xa0B8".
Proof.
  apply token_key_ignores_case; reflexivity.
Defined.

(** ** The tokens do not depend on one another *)

Section SortFilter.
Variable A : Type.
Variable key : A -> Z.
Variable p : A -> bool.

Lemma insert_sorted_first (x : A) (l : list A) :
  Forall (fun z => (key x <= key z)%Z) l ->
  insert_sorted (fun a b => (key a - key b)%Z) x l = x :: l.
Proof.
  intro F. destruct l as [|y l]; [reflexivity|]. cbn [insert_sorted].
  inversion F as [|? ? Hy _]; subst.
  destruct (Z.leb_spec (key x - key y) 0); [reflexivity|lia].
Qed.

Lemma insert_sorted_filter (x : A) (l : list A) :
  StronglySorted (fun a b => (key a <= key b)%Z) l ->
  filter p (insert_sorted (fun a b => (key a - key b)%Z) x l) =
  if p x then insert_sorted (fun a b => (key a - key b)%Z) x (filter p l)
  else filter p l.
Proof.
  induction 1 as [|y l S IH F].
  - cbn [insert_sorted filter]. destruct (p x); reflexivity.
  - cbn [insert_sorted]. destruct (Z.leb_spec (key x - key y) 0) as [L|G].
    + cbn [filter]. destruct (p x) eqn:Px; [|reflexivity].
      symmetry. apply insert_sorted_first.
      assert (Fy : Forall (fun z => (key x <= key z)%Z) (y :: l)).
      { constructor; [lia|]. revert F. apply Forall_impl. intros; lia. }
      rewrite Forall_forall in Fy |- *. intros z Hz. apply Fy.
      change (In z (filter p (y :: l))) in Hz. apply filter_In in Hz. tauto.
    + cbn [filter]. rewrite IH. destruct (p y) eqn:Py; [|reflexivity].
      destruct (p x); [|reflexivity]. cbn [insert_sorted].
      destruct (Z.leb_spec (key x - key y) 0); [lia|reflexivity].
Qed.

(** Sorting by a key and filtering commute. *)
Lemma sort_filter (l : list A) :
  sort (fun a b => (key a - key b)%Z) (filter p l) =
  filter p (sort (fun a b => (key a - key b)%Z) l).
Proof.
  induction l as [|x l IH]; [reflexivity|].
  cbn [filter sort fold_right]. fold (sort (fun a b => (key a - key b)%Z) l).
  rewrite insert_sorted_filter by exact (@sort_sorted _ key l).
  destruct (p x); [|exact IH].
  cbn [sort fold_right]. fold (sort (fun a b => (key a - key b)%Z) (filter p l)).
  rewrite IH. reflexivity.
Qed.

End SortFilter.

Lemma same_store_step (method : string) (e : Engine) (r : Ref) :
  same_store (heap (processTransaction method e r)) (heap e).
Proof.
  intro r'. destruct (deref (heap e) r') as [tx|] eqn:D.
  - destruct (processTransaction_heap method e r r' D) as (v & -> & _). reflexivity.
  - unfold deref in *. apply nth_error_None in D.
    rewrite <- (processTransaction_heap_length method e r) in D.
    apply nth_error_None in D. rewrite D. reflexivity.
Qed.

Lemma has_key_same_store (h1 h2 : TxHeap) (key : string) (r : Ref) :
  same_store h1 h2 -> has_key h1 key r = has_key h2 key r.
Proof.
  intro S. specialize (S r). unfold has_key.
  destruct (deref h1 r) as [t1|], (deref h2 r) as [t2|]; try discriminate; [|reflexivity].
  cbn [option_map] in S.
  assert (W : without_realized t1 = without_realized t2) by congruence.
  change (key_of t1) with (key_of (without_realized t1)).
  change (key_of t2) with (key_of (without_realized t2)).
  rewrite W. reflexivity.
Qed.

(** A transaction of another key leaves the lots and the entry of a key as
    they are. *)
Lemma processTransaction_other_key (method key : string) (e : Engine) (r : Ref) :
  has_key (heap e) key r = false -> agree_on key (processTransaction method e r) e.
Proof.
  unfold has_key, agree_on. intro H.
  destruct (deref (heap e) r) as [tx|] eqn:D.
  - assert (N : key_of tx <> key).
    { intro E. rewrite E, String.eqb_refl in H. discriminate. }
    split.
    + destruct (is_acquisition (Transaction.type tx)) eqn:T.
      * rewrite (processTransaction_acquisition method e r D T).
        apply positions_of_addPosition_ne. exact N.
      * assert (Hd : is_disposal (Transaction.type tx) = true)
          by (destruct (Transaction.type tx); try discriminate; reflexivity).
        rewrite (processTransaction_disposal method e r D Hd).
        apply positions_of_removePosition_ne. exact N.
    + destruct (tokenPnL_processTransaction method e r D) as (entry & ->).
      apply get_set_ne. exact N.
  - rewrite (processTransaction_dangling method e r D). split; reflexivity.
Qed.

Lemma get_updateTokenPnL_congr (key chain symbol address : string) (realized : number)
    (e1 e2 : Engine) :
  agree_on key e1 e2 ->
  agree_on key (updateTokenPnL key chain symbol address realized e1)
    (updateTokenPnL key chain symbol address realized e2).
Proof.
  intros [Ep Et]. split.
  - rewrite !positions_of_updateTokenPnL. exact Ep.
  - unfold updateTokenPnL. cbn [tokenPnL]. rewrite !get_set_eq, Ep, Et. reflexivity.
Qed.

(** A transaction of the key takes engines that agree on the key to engines
    that agree on it. *)
Lemma processTransaction_own_key (method key : string) (e1 e2 : Engine) (r : Ref)
    (tx1 tx2 : Transaction.t) :
  agree_on key e1 e2 ->
  deref (heap e1) r = Some tx1 -> deref (heap e2) r = Some tx2 ->
  without_realized tx1 = without_realized tx2 ->
  key_of tx1 = key ->
  agree_on key (processTransaction method e1 r) (processTransaction method e2 r).
Proof.
  intros [Ep Et] D1 D2 W K.
  assert (K2 : key_of tx2 = key).
  { rewrite <- K. change (key_of (without_realized tx2) = key_of (without_realized tx1)).
    rewrite W. reflexivity. }
  unfold processTransaction. rewrite D1, D2.
  fold (key_of tx1). fold (key_of tx2). rewrite K, K2.
  destruct tx1 as [ha1 ch1 ts1 ty1 sy1 ad1 q1 p1 tv1 rz1].
  destruct tx2 as [ha2 ch2 ts2 ty2 sy2 ad2 q2 p2 tv2 rz2].
  unfold without_realized, Transaction.with_realized in W. cbn in W.
  inversion W; subst ha1 ch1 ts1 ty1 sy1 ad1 q1 p1 tv1. clear W.
  cbn [Transaction.type].
  assert (Hadd : forall rz rz',
            agree_on key
              (addPosition key (Transaction.mk ha2 ch2 ts2 ty2 sy2 ad2 q2 p2 tv2 rz) e1)
              (addPosition key (Transaction.mk ha2 ch2 ts2 ty2 sy2 ad2 q2 p2 tv2 rz') e2)).
  { intros rz rz'. unfold addPosition.
    cbn [Transaction.chain Transaction.token_symbol Transaction.token_address
         Transaction.quantity Transaction.price_usd Transaction.timestamp
         Transaction.tx_hash].
    apply get_updateTokenPnL_congr. split.
    - rewrite !positions_of_set, Ep. reflexivity.
    - exact Et. }
  assert (Hrem : forall rz rz',
            agree_on key
              (removePosition method key r
                 (Transaction.mk ha2 ch2 ts2 ty2 sy2 ad2 q2 p2 tv2 rz) e1)
              (removePosition method key r
                 (Transaction.mk ha2 ch2 ts2 ty2 sy2 ad2 q2 p2 tv2 rz') e2)).
  { intros rz rz'. rewrite !removePosition_unfold. cbv zeta.
    cbn [Transaction.chain Transaction.token_symbol Transaction.token_address
         Transaction.quantity Transaction.price_usd Transaction.timestamp
         Transaction.tx_hash].
    rewrite Ep.
    apply get_updateTokenPnL_congr. split.
    - rewrite !positions_of_set. reflexivity.
    - exact Et. }
  destruct ty2; [apply Hadd|apply Hrem|apply Hadd|apply Hrem].
Qed.

Lemma same_store_trans (h1 h2 h3 : TxHeap) :
  same_store h1 h2 -> same_store h2 h3 -> same_store h1 h3.
Proof. intros A B r. rewrite (A r). apply B. Qed.

Lemma same_store_sym (h1 h2 : TxHeap) : same_store h1 h2 -> same_store h2 h1.
Proof. intros A r. symmetry. apply A. Qed.

(** The replay of all the transactions and the replay of those of one key
    agree on the key. *)
Lemma replay_own_key (method key : string) (h : TxHeap) (txs : list Ref) :
  forall e1 e2,
  same_store (heap e1) h -> same_store (heap e2) h ->
  agree_on key e1 e2 ->
  agree_on key (fold_left (processTransaction method) txs e1)
    (fold_left (processTransaction method) (filter (has_key h key) txs) e2).
Proof.
  induction txs as [|r txs IH]; intros e1 e2 S1 S2 G; [exact G|].
  cbn [fold_left filter].
  assert (S1' : same_store (heap (processTransaction method e1 r)) h).
  { eapply same_store_trans; [apply same_store_step|exact S1]. }
  destruct (has_key h key r) eqn:Hk.
  - cbn [fold_left]. apply IH; [exact S1'| |].
    + eapply same_store_trans; [apply same_store_step|exact S2].
    + pose proof (S1 r) as A1. pose proof (S2 r) as A2.
      unfold has_key in Hk.
      destruct (deref h r) as [tx|] eqn:D; [|discriminate].
      apply String.eqb_eq in Hk.
      destruct (deref (heap e1) r) as [tx1|] eqn:D1; [|discriminate].
      destruct (deref (heap e2) r) as [tx2|] eqn:D2; [|discriminate].
      cbn [option_map] in A1, A2.
      assert (W1 : without_realized tx1 = without_realized tx) by congruence.
      assert (W2 : without_realized tx2 = without_realized tx) by congruence.
      apply (@processTransaction_own_key method key e1 e2 r tx1 tx2 G D1 D2).
      * congruence.
      * change (key_of (without_realized tx1) = key). rewrite W1. exact Hk.
  - apply IH; [exact S1'|exact S2|].
    destruct G as [Gp Gt].
    destruct (@processTransaction_other_key method key e1 r) as [Pp Pt].
    + rewrite (@has_key_same_store (heap e1) h key r S1). exact Hk.
    + split; [rewrite Pp; exact Gp|rewrite Pt; exact Gt].
Qed.

Lemma pending_calculateUnrealizedPnL_entry (prices : JsMap.t number) (key : string) :
  forall (m : JsMap.t TokenPnL.t),
  Forall (fun kv => entry_pending (fst kv) (snd kv)) m ->
  entry_of key (JsMap.values (calculateUnrealizedPnL prices m)) =
  option_map (finalizeToken prices) (JsMap.get key m).
Proof.
  unfold entry_of, JsMap.values, calculateUnrealizedPnL.
  induction 1 as [|[k t] m [K _] _ IH]; [reflexivity|].
  cbn [map find fst snd JsMap.get] in *.
  change (entry_key (finalizeToken prices t)) with (entry_key t).
  rewrite K, String.eqb_sym. destruct (String.eqb key k); [reflexivity|exact IH].
Qed.

(** X10.  The entry of a token key in [by_token] depends only on the
    transactions of that key: it is the entry that [calculate] gives when
    handed those transactions alone. *)
Theorem token_independence (method : string) (now : Z) (h : TxHeap)
    (refs : list Ref) (prices : JsMap.t number) (key : string) :
  entry_of key (PnLResult.by_token (fst (calculate method now h refs prices))) =
  entry_of key
    (PnLResult.by_token
       (fst (calculate method now h (filter (has_key h key) refs) prices))).
Proof.
  unfold calculate. cbn [fst PnLResult.by_token].
  rewrite !pending_calculateUnrealizedPnL_entry
    by (apply replay_pending; constructor).
  f_equal.
  change (by_tx_timestamp h)
    with (fun a b => (timestamp_at h a - timestamp_at h b)%Z).
  rewrite sort_filter.
  unfold replay.
  apply (@replay_own_key method key h); try (intro r; reflexivity).
  split; reflexivity.
Qed.

(** ** The token filter of the handler *)

Lemma filter_all {A : Type} (p : A -> bool) (l : list A) :
  Forall (fun x => p x = true) l -> filter p l = l.
Proof.
  induction 1 as [|x l Hx _ IH]; [reflexivity|].
  cbn [filter]. rewrite Hx, IH. reflexivity.
Qed.

Lemma filter_twice {A : Type} (p : A -> bool) (l : list A) :
  filter p (filter p l) = filter p l.
Proof.
  apply filter_all. apply Forall_forall. intros x Hx.
  apply filter_In in Hx. tauto.
Qed.

Lemma first_of_In (key : string) (tx : Transaction.t) (l : list Transaction.t) :
  first_of key l = Some tx -> In tx l.
Proof. unfold first_of. intro F. apply find_some in F. tauto. Qed.

(** X11.  When [include_tokens] names the symbol of every transaction of the
    result, the filter of the handler keeps [by_token], [transactions],
    [by_chain], the metadata and the other summary figures of the engine's
    result, but replaces [total_pnl_usd], which the engine computes as
    current value less initial investment, by realized plus unrealized. *)
Theorem filter_by_all_tokens (method : string) (now : Z) (h : TxHeap)
    (refs : list Ref) (prices : JsMap.t number) (include_tokens : list string) :
  include_tokens <> [] ->
  let res := fst (calculate method now h refs prices) in
  Forall (fun tx => includes include_tokens (Transaction.token_symbol tx) = true)
    (PnLResult.transactions res) ->
  filter_by_tokens (Some include_tokens) res =
  PnLResult.mk
    (PnLSummary.mk
       (PnLSummary.total_realized_pnl_usd (PnLResult.summary res))
       (PnLSummary.total_unrealized_pnl_usd (PnLResult.summary res))
       (PnLSummary.total_realized_pnl_usd (PnLResult.summary res) +
        PnLSummary.total_unrealized_pnl_usd (PnLResult.summary res))%num
       (PnLSummary.total_pnl_percentage (PnLResult.summary res))
       (PnLSummary.initial_investment_usd (PnLResult.summary res))
       (PnLSummary.current_value_usd (PnLResult.summary res)))
    (PnLResult.by_chain res) (PnLResult.by_token res) (PnLResult.transactions res)
    (PnLResult.metadata res).
Proof.
  intros NE res Htx.
  assert (Htok : Forall (fun t => includes include_tokens (TokenPnL.token_symbol t) = true)
                   (PnLResult.by_token res)).
  { apply Forall_forall. intros t Ht.
    destruct (by_token_first_transaction method now h refs prices t Ht)
      as (tx & F & _ & S & _).
    apply first_of_In in F. rewrite Forall_forall in Htx. rewrite S.
    apply Htx. exact F. }
  unfold filter_by_tokens.
  destruct include_tokens as [|s l]; [contradiction|].
  cbn [List.length Nat.ltb Nat.leb]. cbv zeta.
  rewrite (filter_all _ Htok), (filter_all _ Htx).
  reflexivity.
Qed.

Lemma filter_by_all_tokens_witness :
  let res :=
    fst (calculate "fifo" 0
           [eth_tx buy 1 3 10; eth_tx sell 2 1 12] [0; 1]%nat
           [("ETH"%string, Fin (qc 11))]) in
  filter_by_tokens (Some ["ETH"%string]) res =
  PnLResult.mk
    (PnLSummary.mk
       (PnLSummary.total_realized_pnl_usd (PnLResult.summary res))
       (PnLSummary.total_unrealized_pnl_usd (PnLResult.summary res))
       (PnLSummary.total_realized_pnl_usd (PnLResult.summary res) +
        PnLSummary.total_unrealized_pnl_usd (PnLResult.summary res))%num
       (PnLSummary.total_pnl_percentage (PnLResult.summary res))
       (PnLSummary.initial_investment_usd (PnLResult.summary res))
       (PnLSummary.current_value_usd (PnLResult.summary res)))
    (PnLResult.by_chain res) (PnLResult.by_token res) (PnLResult.transactions res)
    (PnLResult.metadata res).
Proof.
  apply (@filter_by_all_tokens "fifo" 0
           [eth_tx buy 1 3 10; eth_tx sell 2 1 12] [0; 1]%nat
           [("ETH"%string, Fin (qc 11))] ["ETH"%string]).
  - discriminate.
  - repeat constructor.
Defined.

(** X12.  The filter of the handler is idempotent: a filtered result passes
    the same filter unchanged. *)
Theorem filter_by_tokens_idempotent (include_tokens : option (list string))
    (result : PnLResult.t) :
  filter_by_tokens include_tokens (filter_by_tokens include_tokens result) =
  filter_by_tokens include_tokens result.
Proof.
  destruct include_tokens as [l|]; [|reflexivity].
  unfold filter_by_tokens. destruct (0 <? List.length l)%nat; [|reflexivity].
  cbv zeta.
  cbn [PnLResult.by_token PnLResult.transactions PnLResult.summary PnLResult.by_chain
       PnLResult.metadata PnLSummary.total_pnl_percentage
       PnLSummary.initial_investment_usd PnLSummary.current_value_usd].
  rewrite !filter_twice. reflexivity.
Qed.

(** ** The [realized_pnl_usd] of the input is not read *)

Lemma same_store_refl (h : TxHeap) : same_store h h.
Proof. intro r. reflexivity. Qed.

Lemma same_store_of_map (h h' : TxHeap) :
  map without_realized h = map without_realized h' -> same_store h h'.
Proof.
  intros E r. unfold deref. rewrite <- !nth_error_map, E. reflexivity.
Qed.

Lemma same_store_update (h1 h2 : TxHeap) (r : Ref) (x : Transaction.t) :
  same_store h1 h2 -> same_store (update_nth r x h1) (update_nth r x h2).
Proof.
  intros S r'. unfold deref. destruct (Nat.eq_dec r r') as [<-|N].
  - specialize (S r). unfold deref in S.
    destruct (nth_error h1 r) as [t1|] eqn:D1, (nth_error h2 r) as [t2|] eqn:D2;
      try discriminate.
    + rewrite (nth_error_update_nth x h1 r D1), (nth_error_update_nth x h2 r D2).
      reflexivity.
    + apply nth_error_None in D1, D2.
      rewrite <- (@length_update_nth _ x h1 r) in D1.
      rewrite <- (@length_update_nth _ x h2 r) in D2.
      apply nth_error_None in D1, D2. rewrite D1, D2. reflexivity.
  - rewrite !nth_error_update_nth_ne by exact N. apply S.
Qed.

Lemma objects_same_store (h1 h2 : TxHeap) (refs : list Ref) :
  same_store h1 h2 ->
  map without_realized (objects h1 refs) = map without_realized (objects h2 refs).
Proof.
  intro S. induction refs as [|r refs IH]; [reflexivity|].
  unfold objects in *. cbn [flat_map]. rewrite !map_app, IH. f_equal.
  specialize (S r).
  destruct (deref h1 r), (deref h2 r); try discriminate; [|reflexivity].
  cbn [option_map] in S. cbn [map]. congruence.
Qed.

Lemma objects_annotated (h1 h2 : TxHeap) (refs : list Ref) :
  (forall r, In r refs ->
     option_map annotate (deref h1 r) = option_map annotate (deref h2 r)) ->
  map annotate (objects h1 refs) = map annotate (objects h2 refs).
Proof.
  induction refs as [|r refs IH]; intro H; [reflexivity|].
  unfold objects in *. cbn [flat_map]. rewrite !map_app.
  rewrite IH by (intros r' I; apply H; right; exact I). f_equal.
  specialize (H r (or_introl eq_refl)).
  destruct (deref h1 r), (deref h2 r); try discriminate; [|reflexivity].
  cbn [option_map] in H. cbn [map]. congruence.
Qed.

(** A transaction takes engines that differ in the [realized_pnl_usd] of
    their objects only to such engines, and the two objects it was read from
    are annotated alike afterwards. *)
Lemma processTransaction_same_store (method : string) (e1 e2 : Engine) (r : Ref) :
  positions e1 = positions e2 -> tokenPnL e1 = tokenPnL e2 ->
  same_store (heap e1) (heap e2) ->
  positions (processTransaction method e1 r) =
    positions (processTransaction method e2 r) /\
  tokenPnL (processTransaction method e1 r) =
    tokenPnL (processTransaction method e2 r) /\
  same_store (heap (processTransaction method e1 r))
    (heap (processTransaction method e2 r)) /\
  option_map annotate (deref (heap (processTransaction method e1 r)) r) =
    option_map annotate (deref (heap (processTransaction method e2 r)) r).
Proof.
  destruct e1 as [P1 T1 h1], e2 as [P2 T2 h2]. cbn [positions tokenPnL heap].
  intros <- <- S. pose proof (S r) as Sr.
  unfold processTransaction. cbn [heap].
  destruct (deref h1 r) as [tx1|] eqn:D1, (deref h2 r) as [tx2|] eqn:D2;
    try discriminate.
  - cbn [option_map] in Sr.
    assert (W : without_realized tx1 = without_realized tx2) by congruence.
    destruct tx1 as [ha1 ch1 ts1 ty1 sy1 ad1 q1 p1 tv1 rz1].
    destruct tx2 as [ha2 ch2 ts2 ty2 sy2 ad2 q2 p2 tv2 rz2].
    unfold without_realized, Transaction.with_realized in W. cbn in W.
    inversion W; subst ha1 ch1 ts1 ty1 sy1 ad1 q1 p1 tv1. clear W Sr.
    cbn [Transaction.type Transaction.chain Transaction.token_symbol
         Transaction.token_address].
    set (key := getTokenKey ch2 sy2 ad2).
    assert (Hadd : forall rz rz' ty,
              ty = buy \/ ty = transfer_in ->
              deref h1 r = Some (Transaction.mk ha2 ch2 ts2 ty sy2 ad2 q2 p2 tv2 rz) ->
              deref h2 r = Some (Transaction.mk ha2 ch2 ts2 ty sy2 ad2 q2 p2 tv2 rz') ->
              let a1 := addPosition key
                          (Transaction.mk ha2 ch2 ts2 ty sy2 ad2 q2 p2 tv2 rz)
                          (mkEngine P1 T1 h1) in
              let a2 := addPosition key
                          (Transaction.mk ha2 ch2 ts2 ty sy2 ad2 q2 p2 tv2 rz')
                          (mkEngine P1 T1 h2) in
              positions a1 = positions a2 /\ tokenPnL a1 = tokenPnL a2 /\
              same_store (heap a1) (heap a2) /\
              option_map annotate (deref (heap a1) r) =
                option_map annotate (deref (heap a2) r)).
    { intros rz rz' ty Hty E1 E2 a1 a2. unfold a1, a2.
      split; [reflexivity|]. split; [reflexivity|]. split; [exact S|].
      rewrite !heap_addPosition. cbn [heap]. rewrite E1, E2.
      destruct Hty as [-> | ->]; reflexivity. }
    assert (Hrem : forall rz rz' ty,
              deref h1 r = Some (Transaction.mk ha2 ch2 ts2 ty sy2 ad2 q2 p2 tv2 rz) ->
              deref h2 r = Some (Transaction.mk ha2 ch2 ts2 ty sy2 ad2 q2 p2 tv2 rz') ->
              let a1 := removePosition method key r
                          (Transaction.mk ha2 ch2 ts2 ty sy2 ad2 q2 p2 tv2 rz)
                          (mkEngine P1 T1 h1) in
              let a2 := removePosition method key r
                          (Transaction.mk ha2 ch2 ts2 ty sy2 ad2 q2 p2 tv2 rz')
                          (mkEngine P1 T1 h2) in
              positions a1 = positions a2 /\ tokenPnL a1 = tokenPnL a2 /\
              same_store (heap a1) (heap a2) /\
              option_map annotate (deref (heap a1) r) =
                option_map annotate (deref (heap a2) r)).
    { intros rz rz' ty E1 E2 a1 a2. unfold a1, a2.
      rewrite !removePosition_unfold. cbv zeta.
      split; [reflexivity|]. split; [reflexivity|].
      unfold updateTokenPnL. cbn [heap positions tokenPnL].
      split.
      - apply same_store_update. exact S.
      - unfold deref in *.
        rewrite (nth_error_update_nth _ h1 r E1), (nth_error_update_nth _ h2 r E2).
        reflexivity. }
    destruct ty2.
    + apply Hadd; auto.
    + apply Hrem; assumption.
    + apply Hadd; auto.
    + apply Hrem; assumption.
  - cbn [positions tokenPnL heap]. rewrite D1, D2. repeat split. exact S.
Qed.

Lemma processTransaction_other_object (method : string) (e : Engine) (r0 r : Ref) :
  r <> r0 -> deref (heap (processTransaction method e r0)) r = deref (heap e) r.
Proof.
  intro N. destruct (deref (heap e) r) as [tx|] eqn:D.
  - destruct (processTransaction_heap method e r0 r D) as (v & -> & A & _).
    rewrite (A (or_intror N)), with_realized_same. reflexivity.
  - unfold deref in *. apply nth_error_None in D.
    rewrite <- (processTransaction_heap_length method e r0) in D.
    apply nth_error_None in D. exact D.
Qed.

Lemma replay_same_store (method : string) (txs : list Ref) :
  forall (done : list Ref) (e1 e2 : Engine),
  positions e1 = positions e2 -> tokenPnL e1 = tokenPnL e2 ->
  same_store (heap e1) (heap e2) ->
  (forall r, In r done ->
     option_map annotate (deref (heap e1) r) =
     option_map annotate (deref (heap e2) r)) ->
  tokenPnL (fold_left (processTransaction method) txs e1) =
    tokenPnL (fold_left (processTransaction method) txs e2) /\
  forall r, In r (done ++ txs) ->
    option_map annotate (deref (heap (fold_left (processTransaction method) txs e1)) r) =
    option_map annotate (deref (heap (fold_left (processTransaction method) txs e2)) r).
Proof.
  induction txs as [|r0 txs IH]; intros done e1 e2 EP ET S A.
  - rewrite app_nil_r. split; [exact ET|exact A].
  - cbn [fold_left].
    destruct (@processTransaction_same_store method e1 e2 r0 EP ET S)
      as (EP' & ET' & S' & A0).
    replace (done ++ r0 :: txs) with ((done ++ [r0]) ++ txs)
      by (rewrite <- app_assoc; reflexivity).
    apply IH; try assumption.
    intros r I. destruct (Nat.eq_dec r r0) as [->|N]; [exact A0|].
    rewrite !(@processTransaction_other_object method _ r0 r N).
    apply A. apply in_app_or in I. destruct I as [I|[E|[]]]; [exact I|].
    exfalso. apply N. symmetry. exact E.
Qed.

(** The result of [calculate] is the same on stores that differ in
    [realized_pnl_usd] only. *)
Lemma calculate_same_store (method : string) (now : Z) (h h' : TxHeap)
    (refs : list Ref) (prices : JsMap.t number) :
  same_store h h' ->
  fst (calculate method now h refs prices) = fst (calculate method now h' refs prices).
Proof.
  intro S. unfold calculate. cbn [fst].
  assert (Es : sort (by_tx_timestamp h) refs = sort (by_tx_timestamp h') refs).
  { apply sort_ext. intros a b _ _. unfold by_tx_timestamp, timestamp_at.
    pose proof (S a) as Sa. pose proof (S b) as Sb.
    destruct (deref h a) as [ta|], (deref h' a) as [ta'|]; try discriminate;
      destruct (deref h b) as [tb|], (deref h' b) as [tb'|]; try discriminate;
      cbn [option_map] in Sa, Sb; try reflexivity.
    - replace (Transaction.timestamp ta) with (Transaction.timestamp ta')
        by (change (Transaction.timestamp (without_realized ta') =
                    Transaction.timestamp (without_realized ta)); congruence).
      replace (Transaction.timestamp tb) with (Transaction.timestamp tb')
        by (change (Transaction.timestamp (without_realized tb') =
                    Transaction.timestamp (without_realized tb)); congruence).
      reflexivity.
    - replace (Transaction.timestamp ta) with (Transaction.timestamp ta')
        by (change (Transaction.timestamp (without_realized ta') =
                    Transaction.timestamp (without_realized ta)); congruence).
      reflexivity.
    - replace (Transaction.timestamp tb) with (Transaction.timestamp tb')
        by (change (Transaction.timestamp (without_realized tb') =
                    Transaction.timestamp (without_realized tb)); congruence).
      reflexivity. }
  rewrite <- Es. set (sorted := sort (by_tx_timestamp h) refs).
  destruct (@replay_same_store method sorted []
              (mkEngine JsMap.empty JsMap.empty h)
              (mkEngine JsMap.empty JsMap.empty h') eq_refl eq_refl S
              (fun r (I : In r []) => match I with end)) as [ET A].
  cbn [app] in A. unfold replay. rewrite ET.
  rewrite (objects_annotated _ _ sorted A).
  replace (map Transaction.chain (objects h refs))
    with (map Transaction.chain (objects h' refs)); [reflexivity|].
  transitivity (map Transaction.chain (map without_realized (objects h' refs))).
  - rewrite map_map. reflexivity.
  - rewrite <- (objects_same_store refs S), map_map. reflexivity.
Qed.

(** X14.  [calculate] does not read the [realized_pnl_usd] of its input:
    arrays that differ in that field only give the same result. *)
Theorem calculate_ignores_realized (method : string) (now : Z) (h h' : TxHeap)
    (refs : list Ref) (prices : JsMap.t number) :
  map without_realized h = map without_realized h' ->
  fst (calculate method now h refs prices) = fst (calculate method now h' refs prices).
Proof.
  intro E. apply calculate_same_store. apply same_store_of_map. exact E.
Qed.

Lemma calculate_ignores_realized_witness :
  fst (calculate "fifo" 0 [eth_tx buy 1 3 10; eth_tx sell 2 1 12] [0; 1]%nat []) =
  fst (calculate "fifo" 0
         [Transaction.with_realized (eth_tx buy 1 3 10) (Some (Fin (qc 7)));
          Transaction.with_realized (eth_tx sell 2 1 12) (Some NaN)]
         [0; 1]%nat []).
Proof.
  apply calculate_ignores_realized. reflexivity.
Defined.

Lemma same_store_replay (method : string) (txs : list Ref) :
  forall e, same_store (heap (fold_left (processTransaction method) txs e)) (heap e).
Proof.
  induction txs as [|r txs IH]; intro e; [apply same_store_refl|].
  cbn [fold_left]. eapply same_store_trans; [apply IH|apply same_store_step].
Qed.

(** X15.  A second call of [calculate] on the same objects, which the first
    call has written to, returns what the first call returned, up to the
    clock: each call reads [Date.now()] for itself, so the two results
    differ in [last_updated] and in nothing else. *)
Theorem calculate_again (method : string) (now now' : Z) (h : TxHeap)
    (refs : list Ref) (prices : JsMap.t number) :
  let first := calculate method now h refs prices in
  let second := calculate method now' (snd first) refs prices in
  fst second =
  PnLResult.mk (PnLResult.summary (fst first)) (PnLResult.by_chain (fst first))
    (PnLResult.by_token (fst first)) (PnLResult.transactions (fst first))
    (Metadata.mk now'
       (Metadata.chains_queried (PnLResult.metadata (fst first)))
       (Metadata.data_sources (PnLResult.metadata (fst first)))).
Proof.
  intros first second. unfold second.
  rewrite (@calculate_same_store method now' (snd first) h refs prices).
  - reflexivity.
  - unfold first, calculate, replay. cbn [snd].
    exact (@same_store_replay method (sort (by_tx_timestamp h) refs)
             (mkEngine JsMap.empty JsMap.empty h)).
Qed.

(** ** The retries of the fetchers *)

(** X16.  A call [retryRequest(url)] issues between one and three requests,
    one after the other: each but the last has failed, the call ends as the
    last one does (its response returned, its error thrown), and an error is
    thrown only after the third request; before the second request the call
    waits 1000 ms and before the third 2000 ms. *)
Theorem retryRequest_attempts (fuel : nat) (outcome : nat -> Outcome) (net : Network) :
  (3 <= fuel)%nat ->
  exists n,
    (1 <= n <= 3)%nat /\
    (forall i, (i < n - 1)%nat -> exists error, outcome (issued net + i)%nat = Failure error) /\
    retryRequest fuel outcome 1 net =
      Some (completion_of (outcome (issued net + (n - 1))%nat),
            mkNetwork (issued net + n) (waited net ++ firstn (n - 1) [1000; 2000]%Z)) /\
    ((n < 3)%nat -> exists data, outcome (issued net + (n - 1))%nat = Response data).
Proof.
  intro F. destruct fuel as [|[|[|fuel]]]; try lia. clear F.
  destruct net as [k w]. cbn [issued waited].
  destruct (outcome k) as [d0|e0] eqn:O0.
  - exists 1%nat. split; [lia|]. split; [intros i Hi; lia|].
    cbn [Nat.sub]. rewrite Nat.add_0_r, Nat.add_1_r, O0. split.
    + cbn [retryRequest issued waited firstn completion_of]. rewrite O0, app_nil_r.
      reflexivity.
    + intros _. exists d0. reflexivity.
  - destruct (outcome (S k)) as [d1|e1] eqn:O1.
    + exists 2%nat. split; [lia|]. split.
      * intros i Hi. assert (i = 0%nat) by lia. subst i. rewrite Nat.add_0_r.
        exists e0. exact O0.
      * cbn [Nat.sub]. rewrite Nat.add_1_r, O1. split.
        -- cbn [retryRequest issued waited firstn completion_of]. rewrite O0.
           cbn [Z.ltb Z.compare Pos.compare Pos.compare_cont maxRetries].
           cbn [retryRequest issued waited]. rewrite O1.
           replace (k + 2)%nat with (S (S k)) by lia. reflexivity.
        -- intros _. exists d1. reflexivity.
    + exists 3%nat. split; [lia|]. split.
      * intros i Hi. assert (i = 0 \/ i = 1)%nat as [-> | ->] by lia.
        -- rewrite Nat.add_0_r. exists e0. exact O0.
        -- rewrite Nat.add_1_r. exists e1. exact O1.
      * cbn [Nat.sub]. replace (k + 2)%nat with (S (S k)) by lia. split; [|lia].
        cbn [retryRequest issued waited firstn]. rewrite O0.
        cbn [Z.ltb Z.compare Pos.compare Pos.compare_cont maxRetries].
        cbn [retryRequest issued waited]. rewrite O1.
        cbn [Z.ltb Z.compare Pos.compare Pos.compare_cont maxRetries Z.add Pos.add
             Pos.succ].
        cbn [retryRequest issued waited].
        replace (k + 3)%nat with (S (S (S k))) by lia.
        destruct (outcome (S (S k))) as [d2|e2]; cbn [completion_of].
        -- rewrite <- app_assoc. reflexivity.
        -- cbn [Z.ltb Z.compare Pos.compare Pos.compare_cont Z.add Pos.add Pos.succ].
           rewrite <- app_assoc. reflexivity.
Qed.

Lemma retryRequest_attempts_witness :
  exists n,
    (1 <= n <= 3)%nat /\
    (forall i, (i < n - 1)%nat ->
       exists error,
         (fun k => if (k <? 1)%nat then Failure "timeout" else Response "body")
           (0 + i)%nat = Failure error) /\
    retryRequest 3 (fun k => if (k <? 1)%nat then Failure "timeout" else Response "body")
      1 (mkNetwork 0 []) =
      Some (completion_of
              ((fun k => if (k <? 1)%nat then Failure "timeout" else Response "body")
                 (0 + (n - 1))%nat),
            mkNetwork (0 + n) ([] ++ firstn (n - 1) [1000; 2000]%Z)) /\
    ((n < 3)%nat ->
     exists data,
       (fun k => if (k <? 1)%nat then Failure "timeout" else Response "body")
         (0 + (n - 1))%nat = Response data).
Proof.
  apply (@retryRequest_attempts 3
           (fun k => if (k <? 1)%nat then Failure "timeout" else Response "body")
           (mkNetwork 0 [])).
  lia.
Defined.

(** ** The realized P&L of a token *)

(** What a transaction does to the realized P&L of its key and to its own
    object. *)
Lemma processTransaction_realized (method : string) (e : Engine) (r : Ref)
    (tx : Transaction.t) :
  deref (heap e) r = Some tx ->
  exists R,
    realized_so_far (key_of tx) (processTransaction method e r) =
      (realized_so_far (key_of tx) e + R)%num /\
    (is_acquisition (Transaction.type tx) = true ->
     R = zero /\ deref (heap (processTransaction method e r)) r = Some tx) /\
    (is_disposal (Transaction.type tx) = true ->
     deref (heap (processTransaction method e r)) r =
       Some (Transaction.with_realized tx (Some R))).
Proof.
  intro D. unfold processTransaction. rewrite D. fold (key_of tx).
  assert (Hadd : exists R,
            realized_so_far (key_of tx) (addPosition (key_of tx) tx e) =
              (realized_so_far (key_of tx) e + R)%num /\
            R = zero /\ deref (heap (addPosition (key_of tx) tx e)) r = Some tx).
  { exists zero. split; [|split; [reflexivity|exact D]].
    unfold realized_so_far, addPosition, updateTokenPnL. cbn [tokenPnL].
    rewrite get_set_eq. cbn [TokenPnL.realized_pnl_usd].
    destruct (JsMap.get (key_of tx) (tokenPnL e)); reflexivity. }
  assert (Hrem : exists R,
            realized_so_far (key_of tx) (removePosition method (key_of tx) r tx e) =
              (realized_so_far (key_of tx) e + R)%num /\
            deref (heap (removePosition method (key_of tx) r tx e)) r =
              Some (Transaction.with_realized tx (Some R))).
  { rewrite removePosition_unfold. cbv zeta. eexists. split.
    - unfold realized_so_far, updateTokenPnL. cbn [tokenPnL].
      rewrite get_set_eq. cbn [TokenPnL.realized_pnl_usd].
      destruct (JsMap.get (key_of tx) (tokenPnL e)); reflexivity.
    - unfold updateTokenPnL. cbn [heap]. unfold deref in *.
      apply (nth_error_update_nth _ _ _ D). }
  destruct (Transaction.type tx).
  - destruct Hadd as (R & E & Z & H). exists R. split; [exact E|].
    split; [intros _; split; assumption|discriminate].
  - destruct Hrem as (R & E & H). exists R. split; [exact E|].
    split; [discriminate|intros _; exact H].
  - destruct Hadd as (R & E & Z & H). exists R. split; [exact E|].
    split; [intros _; split; assumption|discriminate].
  - destruct Hrem as (R & E & H). exists R. split; [exact E|].
    split; [discriminate|intros _; exact H].
Qed.

Lemma realized_so_far_other_key (method key : string) (e : Engine) (r : Ref) :
  has_key (heap e) key r = false ->
  realized_so_far key (processTransaction method e r) = realized_so_far key e.
Proof.
  intro H. unfold realized_so_far.
  destruct (@processTransaction_other_key method key e r H) as [_ ->]. reflexivity.
Qed.

Lemma objects_unchanged (h1 h2 : TxHeap) (refs : list Ref) :
  (forall r, In r refs -> deref h1 r = deref h2 r) -> objects h1 refs = objects h2 refs.
Proof.
  induction refs as [|r refs IH]; intro H; [reflexivity|].
  unfold objects in *. cbn [flat_map].
  rewrite (H r (or_introl eq_refl)), IH; [reflexivity|].
  intros r' I. apply H. right. exact I.
Qed.

Lemma disposals_of_push (key : string) (l : list Transaction.t) (tx : Transaction.t) :
  disposals_of key (l ++ [tx]) =
  disposals_of key l ++
  (if andb (is_disposal (Transaction.type tx)) (String.eqb (key_of tx) key)
   then [tx] else []).
Proof. unfold disposals_of. rewrite filter_app. reflexivity. Qed.

Lemma disposals_of_none (key : string) (l : list Transaction.t) :
  (forall tx, In tx l -> key_of tx <> key) -> disposals_of key l = [].
Proof.
  unfold disposals_of. induction l as [|x l IH]; intro H; [reflexivity|].
  cbn [filter]. destruct (String.eqb_spec (key_of x) key) as [E|_].
  - exfalso. apply (H x); [left; reflexivity|exact E].
  - rewrite andb_false_r. apply IH. intros tx I. apply H. right. exact I.
Qed.

(** Along the replay of an array without repeated references, the realized
    P&L of every key is the sum of what has been written on the disposals of
    the key processed so far. *)
Lemma replay_realized (method : string) (txs : list Ref) :
  forall (done : list Ref) (e : Engine),
  NoDup (done ++ txs) ->
  (forall key, realized_so_far key e =
               reduce_sum realized_or_zero (disposals_of key (objects (heap e) done))) ->
  forall key,
    realized_so_far key (fold_left (processTransaction method) txs e) =
    reduce_sum realized_or_zero
      (disposals_of key
         (objects (heap (fold_left (processTransaction method) txs e)) (done ++ txs))).
Proof.
  induction txs as [|r txs IH]; intros done e ND H key.
  - rewrite app_nil_r. apply H.
  - cbn [fold_left].
    replace (done ++ r :: txs) with ((done ++ [r]) ++ txs) in *
      by (rewrite <- app_assoc; reflexivity).
    apply IH; [exact ND|]. clear key IH. intro key.
    assert (Nr : ~ In r done).
    { apply NoDup_app_remove_r in ND. apply NoDup_remove_2 in ND.
      rewrite app_nil_r in ND. exact ND. }
    assert (Old : objects (heap (processTransaction method e r)) done =
                  objects (heap e) done).
    { apply objects_unchanged. intros r' I.
      apply processTransaction_other_object. intros ->. exact (Nr I). }
    rewrite objects_app, Old.
    unfold objects at 2. cbn [flat_map]. rewrite app_nil_r.
    destruct (deref (heap e) r) as [tx|] eqn:D.
    + destruct (processTransaction_realized method e r D) as (R & E & A & B).
      destruct (String.eqb_spec (key_of tx) key) as [<-|N].
      * rewrite E, H.
        destruct (is_acquisition (Transaction.type tx)) eqn:T.
        -- destruct (A eq_refl) as [-> ->]. rewrite disposals_of_push.
           replace (is_disposal (Transaction.type tx)) with false
             by (destruct (Transaction.type tx); try discriminate; reflexivity).
           cbn [andb]. rewrite app_nil_r. apply nadd_0_r.
        -- assert (Hd : is_disposal (Transaction.type tx) = true)
             by (destruct (Transaction.type tx); try discriminate; reflexivity).
           rewrite (B Hd), disposals_of_push.
           cbn [Transaction.with_realized Transaction.type].
           change (key_of (Transaction.with_realized tx (Some R))) with (key_of tx).
           rewrite Hd, String.eqb_refl. cbn [andb].
           rewrite reduce_sum_push. reflexivity.
      * rewrite realized_so_far_other_key, H.
        -- destruct (deref (heap (processTransaction method e r)) r) as [tx'|] eqn:D';
             [|rewrite app_nil_r; reflexivity].
           rewrite disposals_of_push.
           destruct (processTransaction_heap method e r r D) as (v & D2 & _).
           rewrite D' in D2. inversion D2; subst tx'.
           change (key_of (Transaction.with_realized tx v)) with (key_of tx).
           destruct (String.eqb_spec (key_of tx) key) as [K|_]; [contradiction|].
           rewrite andb_false_r, app_nil_r. reflexivity.
        -- unfold has_key. rewrite D. apply String.eqb_neq. exact N.
    + rewrite (processTransaction_dangling method e r D), D, app_nil_r. apply H.
Qed.

(** X17.  When the input array holds no object twice, the realized P&L of
    each entry of [by_token] is the sum, in order of timestamp, of the
    [realized_pnl_usd] that the call has written on the caller's disposals
    of the entry's key: the P&L of the transfer_outs is part of it, though
    the result's [transactions] do not show it. *)
Theorem realized_is_sum_of_disposals (method : string) (now : Z) (h : TxHeap)
    (refs : list Ref) (prices : JsMap.t number) :
  NoDup refs ->
  let out := calculate method now h refs prices in
  Forall (fun t =>
            TokenPnL.realized_pnl_usd t =
            reduce_sum realized_or_zero
              (disposals_of (entry_key t)
                 (objects (snd out) (sort (by_tx_timestamp h) refs))))
    (PnLResult.by_token (fst out)).
Proof.
  intros ND out. unfold out, calculate. cbn [fst snd PnLResult.by_token].
  set (sorted := sort (by_tx_timestamp h) refs).
  assert (NDs : NoDup ([] ++ sorted)).
  { cbn [app]. eapply Permutation_NoDup; [|exact ND].
    apply Permutation_sym. apply sort_is_permutation. }
  pose proof (replay_keys_NoDup method h sorted) as NK.
  assert (P : entries_pending (replay method h sorted))
    by (apply replay_pending; constructor).
  pose proof (@replay_realized method sorted [] (mkEngine JsMap.empty JsMap.empty h)
                NDs (fun key => eq_refl)) as R.
  cbn [app] in R. fold (replay method h sorted) in R.
  unfold calculateUnrealizedPnL, JsMap.values. rewrite map_map. cbn [snd].
  apply Forall_forall. intros t Ht. apply in_map_iff in Ht.
  destruct Ht as ([k t0] & <- & Hin). cbn [snd].
  unfold entries_pending in P. rewrite Forall_forall in P.
  destruct (P _ Hin) as (K & _). cbn [fst snd] in K.
  change (entry_key (finalizeToken prices t0)) with (entry_key t0). rewrite K.
  change (TokenPnL.realized_pnl_usd (finalizeToken prices t0))
    with (TokenPnL.realized_pnl_usd t0).
  rewrite <- (R k). unfold realized_so_far.
  rewrite (@In_get _ k t0 _ NK Hin). reflexivity.
Qed.

Lemma realized_is_sum_of_disposals_witness :
  let h := [eth_tx buy 1 3 10; eth_tx transfer_out 2 1 12; eth_tx sell 3 1 15] in
  let out := calculate "fifo" 0 h [0; 1; 2]%nat [] in
  Forall (fun t =>
            TokenPnL.realized_pnl_usd t =
            reduce_sum realized_or_zero
              (disposals_of (entry_key t)
                 (objects (snd out) (sort (by_tx_timestamp h) [0; 1; 2]%nat))))
    (PnLResult.by_token (fst out)).
Proof.
  apply (@realized_is_sum_of_disposals "fifo" 0
           [eth_tx buy 1 3 10; eth_tx transfer_out 2 1 12; eth_tx sell 3 1 15]
           [0; 1; 2]%nat []).
  repeat (apply NoDup_cons; [simpl; lia|]). apply NoDup_nil.
Defined.

(** ** The holding of a key that was never disposed of *)

Lemma transactions_of_map (g : Transaction.t -> Transaction.t) (key : string)
    (l : list Transaction.t) :
  (forall x, key_of (g x) = key_of x) ->
  transactions_of key (map g l) = map g (transactions_of key l).
Proof.
  intro K. unfold transactions_of. induction l as [|x l IH]; [reflexivity|].
  cbn [map filter]. rewrite K, IH. destruct (String.eqb (key_of x) key); reflexivity.
Qed.

Lemma never_disposed_map (g : Transaction.t -> Transaction.t) (key : string)
    (l : list Transaction.t) :
  (forall x, key_of (g x) = key_of x) ->
  (forall x, Transaction.type (g x) = Transaction.type x) ->
  never_disposed key (map g l) = never_disposed key l.
Proof.
  intros K T. unfold never_disposed. induction l as [|x l IH]; [reflexivity|].
  cbn [map forallb]. rewrite K, T, IH. reflexivity.
Qed.

Lemma reduce_sum_map {A B : Type} (f : B -> number) (g : A -> B) (l : list A) :
  reduce_sum f (map g l) = reduce_sum (fun x => f (g x)) l.
Proof.
  unfold reduce_sum. generalize zero. induction l as [|x l IH]; intro a; [reflexivity|].
  cbn [map fold_left]. apply IH.
Qed.

(** As long as no transaction of a key is a disposal, the lots of the key
    are those that its transactions have pushed, in their order. *)
Lemma replay_lots_without_disposals (method key : string) (txs : list Ref) :
  forall e,
  never_disposed key (objects (heap e) txs) = true ->
  positions_of key (fold_left (processTransaction method) txs e) =
  positions_of key e ++ map lot_of (transactions_of key (objects (heap e) txs)).
Proof.
  induction txs as [|r txs IH]; intros e N.
  - cbn [fold_left objects flat_map transactions_of filter map]. rewrite app_nil_r.
    reflexivity.
  - cbn [fold_left].
    assert (S : map without_realized (objects (heap (processTransaction method e r)) txs) =
                map without_realized (objects (heap e) txs)).
    { change (processTransaction method e r)
        with (fold_left (processTransaction method) [r] e).
      apply objects_after_replay. }
    unfold objects in N |- *. cbn [flat_map] in N |- *.
    fold (objects (heap e) txs) in N |- *.
    unfold never_disposed in N. rewrite forallb_app in N.
    apply andb_prop in N. destruct N as [N0 N].
    fold (never_disposed key (objects (heap e) txs)) in N.
    assert (N' : never_disposed key
                   (objects (heap (processTransaction method e r)) txs) = true).
    { rewrite <- (@never_disposed_map without_realized key _
                    (fun x => eq_refl) (fun x => eq_refl)).
      rewrite S.
      rewrite (@never_disposed_map without_realized key _
                 (fun x => eq_refl) (fun x => eq_refl)).
      exact N. }
    rewrite (IH _ N').
    assert (L : map lot_of
                  (transactions_of key
                     (objects (heap (processTransaction method e r)) txs)) =
                map lot_of (transactions_of key (objects (heap e) txs))).
    { transitivity (map lot_of (transactions_of key
                      (map without_realized
                         (objects (heap (processTransaction method e r)) txs)))).
      - rewrite (@transactions_of_map without_realized key _ (fun x => eq_refl)).
        rewrite map_map. reflexivity.
      - rewrite S, (@transactions_of_map without_realized key _ (fun x => eq_refl)).
        rewrite map_map. reflexivity. }
    rewrite L. unfold transactions_of at 2. rewrite filter_app.
    fold (transactions_of key (objects (heap e) txs)). rewrite map_app, app_assoc.
    f_equal.
    destruct (deref (heap e) r) as [tx|] eqn:D.
    + cbn [forallb] in N0. rewrite andb_true_r in N0. cbn [filter].
      destruct (String.eqb_spec (key_of tx) key) as [<-|Ne].
      * cbn [negb orb] in N0. cbn [map].
        rewrite (processTransaction_acquisition method e r D N0).
        apply positions_of_addPosition.
      * cbn [map]. rewrite app_nil_r.
        destruct (is_acquisition (Transaction.type tx)) eqn:T.
        -- rewrite (processTransaction_acquisition method e r D T).
           apply positions_of_addPosition_ne. exact Ne.
        -- assert (Hd : is_disposal (Transaction.type tx) = true)
             by (destruct (Transaction.type tx); try discriminate; reflexivity).
           rewrite (processTransaction_disposal method e r D Hd).
           apply positions_of_removePosition_ne. exact Ne.
    + cbn [filter map]. rewrite app_nil_r.
      rewrite (processTransaction_dangling method e r D). reflexivity.
Qed.

Lemma own_sum_map (f : Transaction.t -> number) (g : Transaction.t -> Transaction.t)
    (key : string) (l : list Transaction.t) :
  (forall x, key_of (g x) = key_of x) -> (forall x, f (g x) = f x) ->
  reduce_sum f (transactions_of key (map g l)) = reduce_sum f (transactions_of key l).
Proof.
  intros K E. rewrite (transactions_of_map g key l K), reduce_sum_map.
  unfold reduce_sum. generalize zero.
  induction (transactions_of key l) as [|x l' IH]; intro a; [reflexivity|].
  cbn [fold_left]. rewrite E. apply IH.
Qed.

(** X5.  For a token key none of whose transactions is a disposal, under
    any method, the [quantity_held] of its entry is the sum of the
    quantities of its transactions, added in order of timestamp from 0, and
    its [average_buy_price_usd] is the sum of their [quantity * price_usd]
    over that sum, and 0 when that sum is not positive. *)
Theorem holding_without_disposals (method : string) (now : Z) (h : TxHeap)
    (refs : list Ref) (prices : JsMap.t number) (key : string) :
  never_disposed key (objects h refs) = true ->
  let res := fst (calculate method now h refs prices) in
  let own := transactions_of key (PnLResult.transactions res) in
  let quantity := reduce_sum Transaction.quantity own in
  let value :=
    reduce_sum (fun tx => (Transaction.quantity tx * Transaction.price_usd tx)%num)
      own in
  match entry_of key (PnLResult.by_token res) with
  | Some t =>
      TokenPnL.quantity_held t = quantity /\
      TokenPnL.average_buy_price_usd t =
        (if ngtb quantity zero then (value / quantity)%num else zero)
  | None => True
  end.
Proof.
  intros N res own quantity value.
  unfold quantity, value, own, res, calculate.
  cbn [fst PnLResult.by_token PnLResult.transactions].
  set (sorted := sort (by_tx_timestamp h) refs).
  set (e0 := mkEngine JsMap.empty JsMap.empty h).
  assert (Ns : never_disposed key (objects (heap e0) sorted) = true).
  { unfold never_disposed in *. rewrite forallb_forall in N |- *.
    intros x Hx. apply N. eapply Permutation_in; [|exact Hx].
    apply objects_permutation. apply sort_is_permutation. }
  assert (L : positions_of key (replay method h sorted) =
              map lot_of (transactions_of key (objects h sorted)))
    by exact (@replay_lots_without_disposals method key sorted e0 Ns).
  assert (Strip : forall f : Transaction.t -> number,
            (forall x, f (without_realized x) = f x) ->
            (forall x, f (annotate x) = f x) ->
            reduce_sum f
              (transactions_of key
                 (map annotate (objects (heap (replay method h sorted)) sorted))) =
            reduce_sum f (transactions_of key (objects h sorted))).
  { intros f Ew Ea.
    rewrite (@own_sum_map f annotate key _ (fun x => eq_refl) Ea).
    rewrite <- (@own_sum_map f without_realized key _ (fun x => eq_refl) Ew).
    unfold replay. rewrite objects_after_replay. cbn [heap].
    apply (@own_sum_map f without_realized key _ (fun x => eq_refl) Ew). }
  rewrite !Strip by (intro x; reflexivity).
  rewrite pending_calculateUnrealizedPnL_entry
    by (apply replay_pending; constructor).
  destruct (JsMap.get key (tokenPnL (replay method h sorted))) as [t0|] eqn:G;
    [|exact I].
  cbn [option_map].
  assert (J : entries_report_lots (replay method h sorted)).
  { apply replay_reports_lots. intros k t G0. discriminate. }
  destruct (J key t0 G) as [Q A].
  change (TokenPnL.quantity_held (finalizeToken prices t0))
    with (TokenPnL.quantity_held t0).
  change (TokenPnL.average_buy_price_usd (finalizeToken prices t0))
    with (TokenPnL.average_buy_price_usd t0).
  rewrite Q, A, L. unfold totalQuantity, totalValue. rewrite !reduce_sum_map.
  split; reflexivity.
Qed.

Lemma holding_without_disposals_witness :
  let h := [eth_tx buy 1 3 10; token_tx "base" "USDC" sell 2 1 1; eth_tx transfer_in 3 2 14] in
  let res := fst (calculate "avg" 0 h [0; 1; 2]%nat []) in
  let own := transactions_of "ethereum:eth:0x0000" (PnLResult.transactions res) in
  let quantity := reduce_sum Transaction.quantity own in
  let value :=
    reduce_sum (fun tx => (Transaction.quantity tx * Transaction.price_usd tx)%num)
      own in
  match entry_of "ethereum:eth:0x0000" (PnLResult.by_token res) with
  | Some t =>
      TokenPnL.quantity_held t = quantity /\
      TokenPnL.average_buy_price_usd t =
        (if ngtb quantity zero then (value / quantity)%num else zero)
  | None => True
  end.
Proof.
  apply (@holding_without_disposals "avg" 0
           [eth_tx buy 1 3 10; token_tx "base" "USDC" sell 2 1 1;
            eth_tx transfer_in 3 2 14]
           [0; 1; 2]%nat [] "ethereum:eth:0x0000").
  reflexivity.
Defined.
